(** * google-news-url-decoder: token extraction, binary token decoding,
      batched resolution and ordered fan-out.

    The Go sources [decoder.go] and [google_decoder.go], and the text
    output of [cmd/gnewsdecoder/main.go], are embedded as executable
    definitions.  Go strings are byte sequences and are modelled
    by [string] (a list of 8-bit [ascii] characters); a slice is a [list];
    a Go [map] is a [gmap]; an index or slice expression that would panic
    returns [None], so that a function that never panics is one that
    always returns [Some].  The parts of the Go standard library the code
    calls ([strings], [encoding/base64], [fmt]) are modelled as far as the
    code uses them; the network, [net/url] and [encoding/json] are
    collected in an environment record the decoders are parametrised by,
    and the statements hold for every environment.  The goroutines of the
    concurrent decoder are a transition system over the permits, the
    result channel and the result slice, and the statements hold for
    every order of its events. *)

From Stdlib Require Import ZArith NArith Ascii String List Bool Lia.
From Stdlib Require Import DecimalString ZifyNat.
From stdpp Require Import gmap strings list.
From Equations Require Import Equations.

(** ** Package [strings] and the built-in string operations *)

Module Strings.

(** [len(s)] *)
Abbreviation len := String.length.

(** [s[n:]] for [n <= len(s)] *)
Fixpoint drop (n : nat) (s : string) : string :=
  match n, s with
  | O, _ => s
  | S _, EmptyString => EmptyString
  | S n', String _ s' => drop n' s'
  end.

(** [s[:n]] for [n <= len(s)] *)
Fixpoint take (n : nat) (s : string) : string :=
  match n, s with
  | O, _ => EmptyString
  | S _, EmptyString => EmptyString
  | S n', String c s' => String c (take n' s')
  end.

(** [s[lo:hi]]; Go panics unless [lo <= hi <= len(s)]. *)
Definition slice (s : string) (lo hi : nat) : option string :=
  if (lo <=? hi)%nat && (hi <=? len s)%nat
  then Some (take (hi - lo) (drop lo s))
  else None.

(** [s[i]]; Go panics unless [i < len(s)]. *)
Definition index (s : string) (i : nat) : option ascii := String.get i s.

(** [strings.HasPrefix]:
    [len(s) >= len(prefix) && s[:len(prefix)] == prefix] *)
Definition HasPrefix (s prefix : string) : bool :=
  (len prefix <=? len s)%nat && String.eqb (take (len prefix) s) prefix.

(** [strings.HasSuffix]:
    [len(s) >= len(suffix) && s[len(s)-len(suffix):] == suffix] *)
Definition HasSuffix (s suffix : string) : bool :=
  (len suffix <=? len s)%nat &&
  String.eqb (drop (len s - len suffix) s) suffix.

(** [strings.Index]: position of the first occurrence of [substr]. *)
Fixpoint Index (s substr : string) : option nat :=
  if HasPrefix s substr then Some O
  else match s with
       | EmptyString => None
       | String _ s' => option_map S (Index s' substr)
       end.

(** [strings.Contains] *)
Definition Contains (s substr : string) : bool :=
  match Index s substr with Some _ => true | None => false end.

(** [strings.SplitN(s, sep, 2)] for a non-empty separator: the text
    before and after the first occurrence, or [s] alone. *)
Definition SplitN2 (s sep : string) : list string :=
  match Index s sep with
  | None => [s]
  | Some i => [take i s; drop (i + len sep) s]
  end.

(** [strings.Split(s, sep)] for a non-empty separator.  Every round
    consumes at least one byte, so [len(s)] rounds are enough. *)
Fixpoint Split_rounds (rounds : nat) (s sep : string) : list string :=
  match rounds with
  | O => [s]
  | S r =>
      match Index s sep with
      | None => [s]
      | Some i => take i s :: Split_rounds r (drop (i + len sep) s) sep
      end
  end.

Definition Split (s sep : string) : list string :=
  Split_rounds (len s) s sep.

(** [strings.Join] *)
Definition Join (elems : list string) (sep : string) : string :=
  String.concat sep elems.

End Strings.

(** ** Package [fmt]: the verbs the code uses *)

Module Fmt.
(** [%d] of a non-negative integer *)
Definition d (n : nat) : string := NilEmpty.string_of_uint (Nat.to_uint n).
(** [%d] of an [int] *)
Definition dZ (z : Z) : string := NilZero.string_of_int (Z.to_int z).
End Fmt.

(** ** Package [encoding/base64]: [URLEncoding.DecodeString] *)

Module Base64.

(** The URL-safe alphabet of RFC 4648 ([encodeURL]). *)
Definition encodeURL : string :=
  "ABCDEFGHIJKLMNOPQRSTUVWXYZabcdefghijklmnopqrstuvwxyz0123456789-_".

Definition StdPadding : ascii := "="%char.

(** [decodeMap[c]]: the position of [c] in the alphabet, [None] standing
    for the table's [0xff]. *)
Fixpoint find_index (c : ascii) (alphabet : string) : option N :=
  match alphabet with
  | EmptyString => None
  | String a rest =>
      if Ascii.eqb a c then Some 0%N
      else option_map N.succ (find_index c rest)
  end.

Definition decodeMap (c : ascii) : option N := find_index c encodeURL.

Definition is_newline (c : ascii) : bool :=
  Ascii.eqb c "010"%char || Ascii.eqb c "013"%char.

(** [byte(x)]: the low eight bits. *)
Definition byte (x : N) : ascii := ascii_of_N (N.land x 255).

(** The three bytes of a quantum of four 6-bit values:
    [val := d0<<18 | d1<<12 | d2<<6 | d3], then
    [byte(val>>16)], [byte(val>>8)], [byte(val>>0)]. *)
Definition quantum_val (d0 d1 d2 d3 : N) : N :=
  N.lor (N.lor (N.lor (N.shiftl d0 18) (N.shiftl d1 12)) (N.shiftl d2 6)) d3.

Definition quantum_bytes (dbuf : list N) (dlen : nat) : string :=
  let v := quantum_val (nth 0 dbuf 0%N) (nth 1 dbuf 0%N)
                       (nth 2 dbuf 0%N) (nth 3 dbuf 0%N) in
  Strings.take (dlen - 1)
    (String (byte (N.shiftr v 16))
       (String (byte (N.shiftr v 8)) (String (byte v) EmptyString))).

(** [CorruptInputError]: the offset of the offending input byte. *)
Definition CorruptInputError := nat.

Definition CorruptInputError_Error (e : CorruptInputError) : string :=
  "illegal base64 data at input byte " +:+ Fmt.d e.

(** Skipping over [\r] and [\n]; returns the rest and its offset. *)
Fixpoint skip_newlines (src : string) (si : nat) : string * nat :=
  match src with
  | String c rest =>
      if is_newline c then skip_newlines rest (S si) else (src, si)
  | EmptyString => (src, si)
  end.

(** After the padding of a final quantum: only newlines may follow,
    anything else is trailing garbage. *)
Definition after_padding (src : string) (si : nat) (out : string)
  : CorruptInputError + string :=
  match skip_newlines src si with
  | (EmptyString, _) => inr out
  | (String _ _, si') => inl si'
  end.

(** [Decode] for a padded encoding, one input byte at a time: [src] is
    the input from offset [si] on and [dbuf] holds the values of the
    current quantum read so far ([j = length dbuf]).  Go's 8- and
    4-byte fast paths decode whole quanta of alphabet characters and
    fall back to this loop ([decodeQuantum]) on anything else, so they
    do not change the result. *)
Fixpoint decode_from (src : string) (si : nat) (dbuf : list N)
  : CorruptInputError + string :=
  match src with
  | EmptyString =>
      match dbuf with
      | [] => inr EmptyString
      | _ => inl (si - length dbuf)%nat
      end
  | String c rest =>
      match decodeMap c with
      | Some out =>
          let dbuf' := dbuf ++ [out] in
          if (length dbuf' =? 4)%nat then
            match decode_from rest (S si) [] with
            | inl e => inl e
            | inr tail => inr (quantum_bytes dbuf' 4 +:+ tail)
            end
          else decode_from rest (S si) dbuf'
      | None =>
          if is_newline c then decode_from rest (S si) dbuf
          else if negb (Ascii.eqb c StdPadding) then inl si
          else
            match length dbuf with
            | 0 | 1 => inl si
            | 2 =>
                match skip_newlines rest (S si) with
                | (EmptyString, si') => inl si'
                | (String c2 rest2, si') =>
                    if negb (Ascii.eqb c2 StdPadding) then inl (si' - 1)%nat
                    else after_padding rest2 (S si') (quantum_bytes dbuf 2)
                end
            | _ => after_padding rest (S si) (quantum_bytes dbuf 3)
            end
      end
  end.

(** [base64.URLEncoding.DecodeString(s)]; the bytes decoded before an
    error are dropped, as every caller drops them. *)
Definition DecodeString (s : string) : CorruptInputError + string :=
  decode_from s 0 [].

(** [encode[v]]: the character of a 6-bit value. *)
Definition encodeAt (v : N) : ascii :=
  default "A"%char (String.get (N.to_nat v) encodeURL).

(** [Encoding.EncodeToString]: [padding] is true for [URLEncoding] and
    false for [RawURLEncoding].  Whole groups of three bytes give four
    characters of [val := b0<<16 | b1<<8 | b2]; one or two remaining
    bytes give two or three characters and, when padding, [=] up to
    four. *)
Definition group_val (b0 b1 b2 : ascii) : N :=
  N.lor (N.lor (N.shiftl (N_of_ascii b0) 16) (N.shiftl (N_of_ascii b1) 8))
        (N_of_ascii b2).

Definition sextet (val : N) (shift : N) : ascii :=
  encodeAt (N.land (N.shiftr val shift) 63).

Fixpoint EncodeToString (padding : bool) (src : string) : string :=
  match src with
  | String b0 (String b1 (String b2 rest)) =>
      let val := group_val b0 b1 b2 in
      String (sextet val 18) (String (sextet val 12)
        (String (sextet val 6) (String (sextet val 0)
           (EncodeToString padding rest))))
  | String b0 (String b1 EmptyString) =>
      let val := group_val b0 b1 "000"%char in
      String (sextet val 18) (String (sextet val 12) (String (sextet val 6)
        (if padding then String StdPadding EmptyString else EmptyString)))
  | String b0 EmptyString =>
      let val := group_val b0 "000"%char "000"%char in
      String (sextet val 18) (String (sextet val 12)
        (if padding
         then String StdPadding (String StdPadding EmptyString)
         else EmptyString))
  | EmptyString => EmptyString
  end.

End Base64.

(** ** Data model ([decoder.go], lines 21-42) *)

(** An [error] is represented by its message, [err.Error()]. *)
Definition error := string.

Record DecodeResult := mkDecodeResult {
  Status : bool;
  DecodedURL : string;
  Message : string
}.

Record DecodingParams := mkDecodingParams {
  ParamsStatus : bool;
  Signature : string;
  Timestamp : string;
  Base64Str : string;
  ParamsMessage : string
}.

Record BatchDecodeResult := mkBatchDecodeResult {
  BatchStatus : bool;
  URLs : list string;
  Error : string
}.

Global Instance DecodeResult_eq_dec : EqDecision DecodeResult.
Proof. solve_decision. Defined.

(** The zero value of [DecodeResult], as [make([]DecodeResult, n)] fills
    a fresh slice. *)
Definition zeroResult : DecodeResult := mkDecodeResult false "" "".

(** [DecodeResult{Status: true, DecodedURL: u}] *)
Definition resolved (u : string) : DecodeResult := mkDecodeResult true u "".
(** [DecodeResult{Status: false, Message: m}] *)
Definition failed (m : string) : DecodeResult := mkDecodeResult false "" m.

(** ** The world outside the package *)

(** The fields of [url.URL] the code reads. *)
Record URL := mkURL { Host : string; Path : string }.

Record Request := mkRequest {
  Method : string;
  Target : string;
  Header : list (string * string);
  Payload : option string
}.

(** [req.Header.Set(key, value)] *)
Definition Header_Set (req : Request) (key value : string) : Request :=
  mkRequest (Method req) (Target req)
            ((key, value) :: filter (λ kv, kv.1 ≠ key) (Header req))
            (Payload req).

(** A response: its status code, and the bytes and the error that
    [io.ReadAll(resp.Body)] returns. *)
Record Response := mkResponse {
  StatusCode : Z;
  Body : string;
  ReadErr : option error
}.

Definition io_ReadAll (resp : Response) : string * option error :=
  (Body resp, ReadErr resp).

(** A decoded JSON value, as [json.Unmarshal] stores it in an
    [interface{}]. *)
#[local] Set Warnings "-register-all".
Inductive JSON :=
| JNull
| JBool (b : bool)
| JNumber (digits : string)
| JString (s : string)
| JArray (elems : list JSON)
| JObject (fields : list (string * JSON)).

(** Library calls whose result the package only inspects: [url.Parse],
    [url.Values.Encode], [http.NewRequest], [http.Client.Do] (with
    the client's transport and the remote server behind it),
    [json.Marshal] and [json.Unmarshal] into a [[]interface{}]. *)
Record Env := mkEnv {
  url_Parse : string → error + URL;
  url_Values_Encode : list (string * string) → string;
  http_NewRequest : string → string → option string → error + Request;
  client_Do : Request → error + Response;
  json_Marshal : JSON → error + string;
  json_Unmarshal : string → error + list JSON
}.

(** ** The binary token record ([decoder.go], lines 216-238; the same
    statements stand in [DecoderV1], [DecoderV2] and [DecoderV4]) *)

(** The quote character and the byte strings of the record. *)
Definition dq : string := String "034"%char EmptyString.

(** [string([]byte{0x08, 0x13, 0x22})] *)
Definition prefix : string :=
  String "008"%char (String "019"%char (String "034"%char EmptyString)).

(** [string([]byte{0xD2, 0x01, 0x00})] *)
Definition suffix : string :=
  String "210"%char (String "001"%char (String "000"%char EmptyString)).

(** [// Remove prefix] *)
Definition removePrefix (decodedStr : string) : option string :=
  if Strings.HasPrefix decodedStr prefix
  then Strings.slice decodedStr (Strings.len prefix) (Strings.len decodedStr)
  else Some decodedStr.

(** [// Remove suffix] *)
Definition removeSuffix (decodedStr : string) : option string :=
  if Strings.HasSuffix decodedStr suffix
  then Strings.slice decodedStr 0 (Strings.len decodedStr - Strings.len suffix)
  else Some decodedStr.

(** [// Extract URL based on length byte] *)
Definition extractByLength (decodedStr : string) : option string :=
  if (0 <? Strings.len decodedStr)%nat then
    c ← Strings.index decodedStr 0;
    let length := nat_of_ascii c in
    if (128 <=? length)%nat && (length + 1 <? Strings.len decodedStr)%nat
    then Strings.slice decodedStr 2 (length + 1)
    else if (length + 1 <? Strings.len decodedStr)%nat
    then Strings.slice decodedStr 1 (length + 1)
    else Some decodedStr
  else Some decodedStr.

(** The three steps in sequence, applied to the decoded bytes. *)
Definition decodeRecord (decodedBytes : string) : option string :=
  decodedStr ← removePrefix decodedBytes;
  decodedStr ← removeSuffix decodedStr;
  extractByLength decodedStr.

(** The binary token decoder: [base64.URLEncoding.DecodeString] of the
    token with ["=="] appended, then the record steps.  [None] is a
    panic, [Some (inl e)] the base64 error. *)
Definition decodeToken (base64Str : string)
  : option (Base64.CorruptInputError + string) :=
  match Base64.DecodeString (base64Str +:+ "==") with
  | inl err => Some (inl err)
  | inr decodedBytes => inr <$> decodeRecord decodedBytes
  end.

(** The path test of [DecoderV2], [DecoderV3] and [DecoderV4]:
    [len(path) > 1 && (path[len(path)-2] == "articles" ||
     path[len(path)-2] == "read")]; the index is only evaluated when the
    length test passed. *)
Definition pathType_ok (path : list string) : option bool :=
  if (1 <? length path)%nat then
    pathType ← path !! (length path - 2)%nat;
    Some (String.eqb pathType "articles" || String.eqb pathType "read")
  else Some false.

(** ** The single-reference RPC call ([decoder.go], lines 89-144) *)

Definition rpcURL : string :=
  "https://news.google.com/_/DotsSplashUi/data/batchexecute?rpcids=Fbv4je".

(** The request object up to the token, shared by the single and the
    batched envelope. *)
Definition garturlreq : string :=
  "[\" +:+ dq +:+ "garturlreq\" +:+ dq +:+ ",[[\" +:+ dq +:+ "en-US\" +:+ dq +:+
  ",\" +:+ dq +:+ "US\" +:+ dq +:+ ",[\" +:+ dq +:+ "FINANCE_TOP_INDICES\" +:+ dq +:+
  ",\" +:+ dq +:+ "WEB_TEST_1_0_0\" +:+ dq +:+ "],null,null,1,1,\" +:+ dq +:+
  "US:en\" +:+ dq +:+
  ",null,180,null,null,null,null,null,0,null,null,[1608992183,723341000]],\" +:+
  dq +:+ "en-US\" +:+ dq +:+ ",\" +:+ dq +:+ "US\" +:+ dq +:+
  ",1,[2,3,4,8],1,0,\" +:+ dq +:+ "655000234\" +:+ dq +:+ ",0,0,null,0],\" +:+ dq.

(** The marker before a resolved URL and the terminator after it. *)
Definition header : string := "[\" +:+ dq +:+ "garturlres\" +:+ dq +:+ ",\" +:+ dq.
Definition footer : string := "\" +:+ dq +:+ ",".

(** The POST both RPC calls send; [inl] is the error of
    [http.NewRequest] or of [client.Do]. *)
Definition postRPC (env : Env) (s : string) : error + Response :=
  let reqBody := [("f.req", s)] in
  match http_NewRequest env "POST" rpcURL
          (Some (url_Values_Encode env reqBody)) with
  | inl err => inl err
  | inr req =>
      let req := Header_Set req "Content-Type"
                   "application/x-www-form-urlencoded;charset=utf-8" in
      let req := Header_Set req "Referer" "https://news.google.com/" in
      client_Do env req
  end.

Definition statusError (code : Z) : error :=
  "failed to fetch data from Google, status: " +:+ Fmt.dZ code.

Definition fetchDecodedBatchExecute (env : Env) (id : string)
  : option (error + string) :=
  let s := "[[[" +:+ dq +:+ "Fbv4je" +:+ dq +:+ "," +:+ dq +:+ garturlreq +:+ id +:+
           "\" +:+ dq +:+ "]" +:+ dq +:+ ",null," +:+ dq +:+ "generic" +:+ dq +:+ "]]]" in
  match postRPC env s with
  | inl err => Some (inl err)
  | inr resp =>
      if negb (StatusCode resp =? 200)%Z
      then Some (inl (statusError (StatusCode resp)))
      else
        match io_ReadAll resp with
        | (_, Some err) => Some (inl err)
        | (text, None) =>
            if negb (Strings.Contains text header)
            then Some (inl "header not found in response")
            else
              let parts := Strings.SplitN2 text header in
              if (length parts <? 2)%nat
              then Some (inl "failed to parse response")
              else
                start ← parts !! 1%nat;
                if negb (Strings.Contains start footer)
                then Some (inl "footer not found in response")
                else
                  let urlParts := Strings.SplitN2 start footer in
                  inr <$> urlParts !! 0%nat
        end
  end.

(** ** [DecoderV1] and [DecoderV2] ([decoder.go], lines 44-87 and
    146-199) *)

(** The path test of [DecoderV1]:
    [len(path) > 1 && path[len(path)-2] == "articles"]. *)
Definition articles_ok (path : list string) : option bool :=
  if (1 <? length path)%nat then
    pathType ← path !! (length path - 2)%nat;
    Some (String.eqb pathType "articles")
  else Some false.

Definition DecoderV1 (env : Env) (sourceURL : string) : option string :=
  match url_Parse env sourceURL with
  | inl _ => Some sourceURL
  | inr parsedURL =>
      let path := Strings.Split (Path parsedURL) "/" in
      ok ← (if String.eqb (Host parsedURL) "news.google.com"
            then articles_ok path else Some false);
      if ok : bool then
        base64Str ← path !! (length path - 1)%nat;
        r ← decodeToken base64Str;
        match r with
        | inl _ => Some sourceURL
        | inr decodedStr => Some decodedStr
        end
      else Some sourceURL
  end.

Definition DecoderV2 (env : Env) (sourceURL : string) : option string :=
  match url_Parse env sourceURL with
  | inl _ => Some sourceURL
  | inr parsedURL =>
      let path := Strings.Split (Path parsedURL) "/" in
      ok ← (if String.eqb (Host parsedURL) "news.google.com"
            then pathType_ok path else Some false);
      if ok : bool then
        base64Str ← path !! (length path - 1)%nat;
        r ← decodeToken base64Str;
        match r with
        | inl _ => Some sourceURL
        | inr decodedStr =>
            if Strings.HasPrefix decodedStr "AU_yqL" then
              r ← fetchDecodedBatchExecute env base64Str;
              match r with
              | inl _ => Some sourceURL
              | inr decoded => Some decoded
              end
            else Some decodedStr
        end
      else Some sourceURL
  end.

(** ** [DecoderV3] ([decoder.go], lines 201-254) *)

Definition DecoderV3 (env : Env) (sourceURL : string) : option DecodeResult :=
  match url_Parse env sourceURL with
  | inl err => Some (failed ("failed to parse URL: " +:+ err))
  | inr parsedURL =>
      let path := Strings.Split (Path parsedURL) "/" in
      ok ← (if String.eqb (Host parsedURL) "news.google.com"
            then pathType_ok path else Some false);
      if ok : bool then
        base64Str ← path !! (length path - 1)%nat;
        r ← decodeToken base64Str;
        match r with
        | inl err =>
            Some (failed ("failed to decode base64: " +:+
                          Base64.CorruptInputError_Error err))
        | inr decodedStr =>
            if Strings.HasPrefix decodedStr "AU_yqL" then
              r ← fetchDecodedBatchExecute env base64Str;
              match r with
              | inl err => Some (failed ("batch execute failed: " +:+ err))
              | inr decoded => Some (resolved decoded)
              end
            else Some (resolved decodedStr)
        end
      else Some (failed "invalid Google News URL")
  end.

(** ** The batched RPC call ([decoder.go], lines 256-318) *)

(** A [for i, x := range xs] loop over a state, started at index [i];
    [None] when an iteration panics. *)
Fixpoint rangeLoop {St A : Type} (body : St → nat → A → option St)
    (i : nat) (xs : list A) (st : St) : option St :=
  match xs with
  | [] => Some st
  | x :: xs' => st' ← body st i x; rangeLoop body (S i) xs' st'
  end.

(** The envelope of the token at position [i]. *)
Definition envelope (i : nat) (id : string) : string :=
  "[" +:+ dq +:+ "Fbv4je" +:+ dq +:+ "," +:+ dq +:+ garturlreq +:+ id +:+
  "\" +:+ dq +:+ "]" +:+ dq +:+ ",null," +:+ dq +:+ Fmt.d (i + 1) +:+ dq +:+ "]".

(** One round of the scanning loop (lines 303-315) on the current
    [text]: [Some None] leaves the loop, [Some (Some (u, text'))] appends
    [u] and goes on with [text']. *)
Definition scanRound (text : string) : option (option (string * string)) :=
  if Strings.Contains text header then
    let parts := Strings.SplitN2 text header in
    if (length parts <? 2)%nat then Some None
    else
      start ← parts !! 1%nat;
      if negb (Strings.Contains start footer) then Some None
      else
        let urlParts := Strings.SplitN2 start footer in
        u ← urlParts !! 0%nat;
        text' ← urlParts !! 1%nat;
        Some (Some (u, text'))
  else Some None.

Definition inspect {A : Type} (a : A) : {b : A | a = b} := exist _ a eq_refl.

(** The loop itself, [urls] being the slice collected so far. *)
Equations? scanURLs (text : string) (urls : list string)
  : option (list string) by wf (String.length text) lt :=
  scanURLs text urls with inspect (scanRound text) := {
    | exist _ None _ := None;
    | exist _ (Some None) _ := Some urls;
    | exist _ (Some (Some (u, text'))) Hround :=
        scanURLs text' (urls ++ [u]) }.
Proof.
  assert (Hdrop : ∀ n s, String.length (Strings.drop n s)
                         = (String.length s - n)%nat).
  { induction n as [|n IH]; intros [|c s]; simpl; auto. }
  clear scanURLs. revert Hround.
  unfold scanRound, Strings.Contains, Strings.SplitN2.
  destruct text as [|c text]; [discriminate|].
  destruct (Strings.Index (String c text) header) as [i|]; [|discriminate].
  cbn -[Strings.drop Strings.Index header footer String.length].
  destruct (Strings.Index _ footer) as [k|]; [|discriminate].
  cbn -[Strings.drop Strings.Index header footer String.length].
  intros [= _ <-]. rewrite !Hdrop. cbn. lia.
Defined.

Definition fetchDecodedBatchExecuteMultiple (env : Env) (ids : list string)
  : option (BatchDecodeResult * option error) :=
  let envelopes := imap envelope ids in
  let s := "[[" +:+ Strings.Join envelopes "," +:+ "]]" in
  match postRPC env s with
  | inl err => Some (mkBatchDecodeResult false [] err, Some err)
  | inr resp =>
      if negb (StatusCode resp =? 200)%Z then
        let errMsg := statusError (StatusCode resp) in
        Some (mkBatchDecodeResult false [] errMsg, Some errMsg)
      else
        match io_ReadAll resp with
        | (_, Some err) => Some (mkBatchDecodeResult false [] err, Some err)
        | (text, None) =>
            urls ← scanURLs text [];
            Some (mkBatchDecodeResult true urls "", None)
        end
  end.

(** ** [DecoderV4] ([decoder.go], lines 320-400) *)

(** [results[i] = r]; Go panics when [i] is out of range. *)
Definition store (results : list DecodeResult) (i : nat) (r : DecodeResult)
  : option (list DecodeResult) :=
  if (i <? length results)%nat then Some (<[i := r]> results) else None.

(** The state the first loop threads through its iterations. *)
Record BatchState := mkBatchState {
  results : list DecodeResult;
  batchIDs : list string;
  idToIndex : gmap string nat
}.

(** [idToIndex[id]]: a missing key reads as zero. *)
Definition indexOf (m : gmap string nat) (id : string) : nat :=
  default 0%nat (m !! id).

(** The rejection test of [DecoderV4] and [newDecoderV1WithClient]:
    [len(path) <= 1 || (path[len(path)-2] != "articles" &&
     path[len(path)-2] != "read")]. *)
Definition pathType_bad (path : list string) : option bool :=
  if (length path <=? 1)%nat then Some true
  else
    pathType ← path !! (length path - 2)%nat;
    Some (negb (String.eqb pathType "articles") &&
          negb (String.eqb pathType "read")).

(** The body of the first loop (lines 329-379). *)
Definition classify (env : Env) (st : BatchState) (i : nat)
    (sourceURL : string) : option BatchState :=
  let put r :=
    rs ← store (results st) i r;
    Some (mkBatchState rs (batchIDs st) (idToIndex st)) in
  match url_Parse env sourceURL with
  | inl err => put (failed ("failed to parse URL: " +:+ err))
  | inr parsedURL =>
      let path := Strings.Split (Path parsedURL) "/" in
      bad ← (if negb (String.eqb (Host parsedURL) "news.google.com")
             then Some true else pathType_bad path);
      if bad : bool then put (failed "invalid Google News URL")
      else
        base64Str ← path !! (length path - 1)%nat;
        r ← decodeToken base64Str;
        match r with
        | inl err =>
            put (failed ("failed to decode base64: " +:+
                         Base64.CorruptInputError_Error err))
        | inr decodedStr =>
            if Strings.HasPrefix decodedStr "AU_yqL" then
              Some (mkBatchState (results st)
                      (batchIDs st ++ [base64Str])
                      (<[base64Str := i]> (idToIndex st)))
            else put (resolved decodedStr)
        end
  end.

(** The state after the first loop. *)
Definition classifyAll (env : Env) (sourceURLs : list string)
  : option BatchState :=
  rangeLoop (classify env) 0 sourceURLs
    (mkBatchState (replicate (length sourceURLs) zeroResult) [] ∅).

(** The loop of lines 385-388: the batch failed with [err]. *)
Definition failPending (st : BatchState) (err : error)
  : option (list DecodeResult) :=
  rangeLoop
    (λ rs _ id,
       store rs (indexOf (idToIndex st) id)
         (failed ("batch execute failed: " +:+ err)))
    0 (batchIDs st) (results st).

(** The loop of lines 390-395: the URLs of the batch, by position. *)
Definition fillPending (st : BatchState) (urls : list string)
  : option (list DecodeResult) :=
  rangeLoop
    (λ rs j decodedURL,
       if (j <? length (batchIDs st))%nat then
         id ← batchIDs st !! j;
         store rs (indexOf (idToIndex st) id) (resolved decodedURL)
       else Some rs)
    0 urls (results st).

Definition DecoderV4 (env : Env) (sourceURLs : list string)
  : option (list DecodeResult) :=
  st ← classifyAll env sourceURLs;
  if (0 <? length (batchIDs st))%nat then
    '(batchResult, err) ← fetchDecodedBatchExecuteMultiple env (batchIDs st);
    match err with
    | Some err => failPending st err
    | None =>
        if BatchStatus batchResult
        then fillPending st (URLs batchResult)
        else Some (results st)
    end
  else Some (results st).

(** ** Token extraction ([google_decoder.go], lines 102-159) *)

(** [splitString]: one pass over the bytes of [s], cutting at every byte
    equal to [sep[0]]. *)
Definition splitString (s sep : string) : option (list string) :=
  '(result, start) ←
    rangeLoop
      (λ '(result, start) _ i,
         c ← Strings.index s i;
         c0 ← Strings.index sep 0;
         if Ascii.eqb c c0 then
           piece ← Strings.slice s start i;
           Some (result ++ [piece], S i)
         else Some (result, start))
      0 (seq 0 (Strings.len s)) ([], 0%nat);
  piece ← Strings.slice s start (Strings.len s);
  Some (result ++ [piece]).

(** [splitPath]: the segments of [splitString(path, "/")] that are not
    empty. *)
Definition splitPath (path : string) : option (list string) :=
  segs ← splitString path "/";
  Some (filter (λ p, p ≠ "") segs).

Definition GetBase64Str (env : Env) (sourceURL : string)
  : option DecodeResult :=
  match url_Parse env sourceURL with
  | inl _ => Some (failed "failed to parse URL")
  | inr parsedURL =>
      path ← splitPath (Path parsedURL);
      if negb (String.eqb (Host parsedURL) "news.google.com")
         || (length path <=? 1)%nat
      then Some (failed "invalid Google News URL format")
      else
        pathType ← path !! (length path - 2)%nat;
        if negb (String.eqb pathType "articles") &&
           negb (String.eqb pathType "read")
        then Some (failed "invalid Google News URL format")
        else resolved <$> path !! (length path - 1)%nat
  end.

(** ** The signature path ([decoder.go], lines 402-608) *)

(** The longest prefix of [s] without a quote, and the rest. *)
Fixpoint spanUnquoted (s : string) : string * string :=
  match s with
  | EmptyString => (EmptyString, EmptyString)
  | String c s' =>
      if Ascii.eqb c "034"%char then (EmptyString, s)
      else let '(v, rest) := spanUnquoted s' in (String c v, rest)
  end.

(** A match at the start of [s] of the pattern that reads [name], an
    equals sign, a quote, the group of one or more characters other
    than a quote, and a quote: the text of the group. *)
Definition matchAttrAt (name s : string) : option string :=
  let lit := name +:+ "=" +:+ dq in
  if Strings.HasPrefix s lit then
    let '(v, rest) := spanUnquoted (Strings.drop (Strings.len lit) s) in
    if negb (String.eqb v "") && Strings.HasPrefix rest dq
    then Some v else None
  else None.

(** [FindStringSubmatch] of that pattern: the group of the leftmost
    match. *)
Fixpoint findAttr (name s : string) : option string :=
  match matchAttrAt name s with
  | Some v => Some v
  | None =>
      match s with
      | EmptyString => None
      | String _ s' => findAttr name s'
      end
  end.

Definition extractDataAttributes (htmlContent : string)
  : error + (string * string) :=
  match findAttr "data-n-a-sg" htmlContent with
  | None => inl "signature not found in HTML"
  | Some signature =>
      match findAttr "data-n-a-ts" htmlContent with
      | None => inl "timestamp not found in HTML"
      | Some timestamp => inr (signature, timestamp)
      end
  end.

Definition userAgent : string :=
  "Mozilla/5.0 (Windows NT 10.0; Win64; x64) AppleWebKit/537.36 (KHTML, like Gecko) Chrome/129.0.0.0 Safari/537.36".

Definition paramsFailed (m : string) : DecodingParams :=
  mkDecodingParams false "" "" "" m.

Definition getDecodingParams (env : Env) (base64Str : string)
  : DecodingParams :=
  let articleURL := "https://news.google.com/articles/" +:+ base64Str in
  match http_NewRequest env "GET" articleURL None with
  | inl err => paramsFailed ("failed to create request: " +:+ err)
  | inr req =>
      let req := Header_Set req "User-Agent" userAgent in
      let first :=
        match client_Do env req with
        | inr resp =>
            if (StatusCode resp =? 200)%Z then
              let '(body, _) := io_ReadAll resp in
              match extractDataAttributes body with
              | inr (sig, ts) => Some (mkDecodingParams true sig ts base64Str "")
              | inl _ => None
              end
            else None
        | inl _ => None
        end in
      match first with
      | Some params => params
      | None =>
          (* Fallback to RSS URL *)
          let rssURL := "https://news.google.com/rss/articles/" +:+ base64Str in
          match http_NewRequest env "GET" rssURL None with
          | inl err => paramsFailed ("failed to create RSS request: " +:+ err)
          | inr req =>
              let req := Header_Set req "User-Agent" userAgent in
              match client_Do env req with
              | inl err => paramsFailed ("request error: " +:+ err)
              | inr resp =>
                  if negb (StatusCode resp =? 200)%Z then
                    paramsFailed ("RSS request failed with status: " +:+
                                  Fmt.dZ (StatusCode resp))
                  else
                    match io_ReadAll resp with
                    | (_, Some err) =>
                        paramsFailed ("failed to read response: " +:+ err)
                    | (body, None) =>
                        match extractDataAttributes body with
                        | inl err =>
                            paramsFailed
                              ("failed to extract attributes: " +:+ err)
                        | inr (sig, ts) =>
                            mkDecodingParams true sig ts base64Str ""
                        end
                    end
              end
          end
      end
  end.

Definition nl2 : string := String "010"%char (String "010"%char EmptyString).

Definition decodeURLWithParams (env : Env)
    (signature timestamp base64Str : string) : option DecodeResult :=
  let apiURL := "https://news.google.com/_/DotsSplashUi/data/batchexecute" in
  let payload :=
    JArray [JString "Fbv4je";
            JString ("[" +:+ dq +:+ "garturlreq" +:+ dq +:+ ",[[" +:+ dq +:+ "X" +:+
              dq +:+ "," +:+ dq +:+ "X" +:+ dq +:+ ",[" +:+ dq +:+ "X" +:+ dq +:+ "," +:+
              dq +:+ "X" +:+ dq +:+ "],null,null,1,1," +:+ dq +:+ "US:en" +:+ dq +:+
              ",null,1,null,null,null,null,null,0,1]," +:+ dq +:+ "X" +:+ dq +:+
              "," +:+ dq +:+ "X" +:+ dq +:+
              ",1,[1,1,1],1,1,null,0,0,null,0]," +:+ dq +:+ base64Str +:+ dq +:+
              "," +:+ timestamp +:+ "," +:+ dq +:+ signature +:+ dq +:+ "]")] in
  match json_Marshal env (JArray [JArray [payload]]) with
  | inl err => Some (failed ("failed to marshal payload: " +:+ err))
  | inr payloadJSON =>
  let formData := [("f.req", payloadJSON)] in
  match http_NewRequest env "POST" apiURL
          (Some (url_Values_Encode env formData)) with
  | inl err => Some (failed ("failed to create request: " +:+ err))
  | inr req =>
  let req := Header_Set req "Content-Type"
               "application/x-www-form-urlencoded;charset=UTF-8" in
  let req := Header_Set req "User-Agent" userAgent in
  match client_Do env req with
  | inl err => Some (failed ("request error: " +:+ err))
  | inr resp =>
  match io_ReadAll resp with
  | (_, Some err) => Some (failed ("failed to read response: " +:+ err))
  | (body, None) =>
  let parts := Strings.SplitN2 body nl2 in
  if (length parts <? 2)%nat then Some (failed "invalid response format")
  else
  part1 ← parts !! 1%nat;
  match json_Unmarshal env part1 with
  | inl err => Some (failed ("failed to parse response JSON: " +:+ err))
  | inr parsed =>
  if (length parsed <? 1)%nat then Some (failed "empty response")
  else
  first ← parsed !! 0%nat;
  match first with
  | JArray outerArr =>
      if (length outerArr <? 3)%nat
      then Some (failed "unexpected response structure")
      else
        third ← outerArr !! 2%nat;
        match third with
        | JString innerJSON =>
            match json_Unmarshal env innerJSON with
            | inl err =>
                Some (failed ("failed to parse inner JSON: " +:+ err))
            | inr innerData =>
                if (length innerData <? 2)%nat
                then Some (failed "decoded URL not found in response")
                else
                  second ← innerData !! 1%nat;
                  match second with
                  | JString decodedURL => Some (resolved decodedURL)
                  | _ => Some (failed "decoded URL is not a string")
                  end
            end
        | _ => Some (failed "failed to extract inner JSON")
        end
  | _ => Some (failed "unexpected response structure")
  end end end end end end.

(** The extraction step of [newDecoderV1WithClient] (lines 575-591):
    the failure it returns, or the token. *)
Definition extractBase64Str (env : Env) (sourceURL : string)
  : option (DecodeResult + string) :=
  match url_Parse env sourceURL with
  | inl err => Some (inl (failed ("failed to parse URL: " +:+ err)))
  | inr parsedURL =>
      let path := Strings.Split (Path parsedURL) "/" in
      if negb (String.eqb (Host parsedURL) "news.google.com")
         || (length path <=? 1)%nat
      then Some (inl (failed "invalid Google News URL format"))
      else
        pathType ← path !! (length path - 2)%nat;
        if negb (String.eqb pathType "articles") &&
           negb (String.eqb pathType "read")
        then Some (inl (failed "invalid Google News URL format"))
        else inr <$> path !! (length path - 1)%nat
  end.

(** [newDecoderV1WithClient]; the [time.Sleep] of the interval before
    the return does not change the result and is left out. *)
Definition newDecoderV1WithClient (env : Env) (sourceURL : string)
  : option DecodeResult :=
  r ← extractBase64Str env sourceURL;
  match r with
  | inl failure => Some failure
  | inr base64Str =>
      let params := getDecodingParams env base64Str in
      if negb (ParamsStatus params) then Some (failed (ParamsMessage params))
      else decodeURLWithParams env (Signature params) (Timestamp params)
                               (Base64Str params)
  end.

(** [GoogleDecoder.Decode] ([google_decoder.go], lines 132-135) *)
Definition Decode (env : Env) (sourceURL : string) : option DecodeResult :=
  newDecoderV1WithClient env sourceURL.

(** ** The concurrent fan-out ([google_decoder.go], lines 161-263) *)

(** A [GoogleDecoder] is its HTTP client, which [Env] holds. *)
Record ConcurrentDecoder := mkConcurrentDecoder {
  decoder : Env;
  concurrency : Z
}.

Definition NewConcurrentDecoder (decoder : Env) (concurrency : Z)
  : ConcurrentDecoder :=
  let concurrency := if (concurrency <=? 0)%Z then 10%Z else concurrency in
  mkConcurrentDecoder decoder concurrency.

Record indexedResult := mkIndexedResult {
  index : nat;
  result : DecodeResult
}.

(** Where the goroutine of one input stands: blocked before it holds a
    permit, holding one (and decoding), returned after decoding, or
    returned on the cancellation branch of the [select]. *)
Inductive Task := Waiting | Running | Finished | Cancelled.

Global Instance Task_eq_dec : EqDecision Task.
Proof. solve_decision. Defined.

(** The shared state of one call: the goroutines, the number of permits
    held in [sem], the buffer of [resultChan], the [results] slice of
    the collecting loop, and whether [ctx.Done()] is closed. *)
Record FanOut := mkFanOut {
  tasks : list Task;
  permits : nat;
  resultChan : list indexedResult;
  collected : list DecodeResult;
  ctxDone : bool
}.

Inductive Event :=
| EvCancel
| EvAcquire (idx : nat)
| EvCancelled (idx : nat)
| EvFinish (idx : nat)
| EvCollect.

(** The two entry points differ in the initial content of [results] and
    in the cancellation branch. *)
Inductive Variant := PlainFanOut | WithContext.

Definition initialState (v : Variant) (sourceURLs : list string) : FanOut :=
  mkFanOut (replicate (length sourceURLs) Waiting) 0 []
    (replicate (length sourceURLs)
       match v with
       | PlainFanOut => zeroResult
       | WithContext => failed "not processed"
       end)
    false.

(** One atomic action of the program or of its environment.
    - [EvCancel]: the caller's context is cancelled.
    - [EvAcquire]: [sem <- struct{}{}] proceeds, which needs room in the
      channel.  In the [select] of [DecodeURLsWithContext] this case can
      be chosen whenever it can proceed, also after the cancellation:
      Go picks among the ready cases at random.
    - [EvCancelled]: the case [<-ctx.Done()] of the [select].
    - [EvFinish]: [Decode] returns, the result is sent, and the deferred
      functions release the permit.
    - [EvCollect]: the collecting loop receives one result and stores
      it. *)
Inductive step (cd : ConcurrentDecoder) (v : Variant)
    (sourceURLs : list string) : FanOut → Event → FanOut → Prop :=
| step_cancel st :
    v = WithContext →
    step cd v sourceURLs st EvCancel
      (mkFanOut (tasks st) (permits st) (resultChan st) (collected st) true)
| step_acquire st idx :
    tasks st !! idx = Some Waiting →
    (Z.of_nat (permits st) < concurrency cd)%Z →
    step cd v sourceURLs st (EvAcquire idx)
      (mkFanOut (<[idx := Running]> (tasks st)) (S (permits st))
                (resultChan st) (collected st) (ctxDone st))
| step_cancelled st idx :
    v = WithContext →
    tasks st !! idx = Some Waiting →
    ctxDone st = true →
    step cd v sourceURLs st (EvCancelled idx)
      (mkFanOut (<[idx := Cancelled]> (tasks st)) (permits st)
                (resultChan st ++
                   [mkIndexedResult idx (failed "context cancelled")])
                (collected st) (ctxDone st))
| step_finish st idx url r :
    tasks st !! idx = Some Running →
    sourceURLs !! idx = Some url →
    Decode (decoder cd) url = Some r →
    step cd v sourceURLs st (EvFinish idx)
      (mkFanOut (<[idx := Finished]> (tasks st)) (pred (permits st))
                (resultChan st ++ [mkIndexedResult idx r])
                (collected st) (ctxDone st))
| step_collect st ir rest rs :
    resultChan st = ir :: rest →
    store (collected st) (index ir) (result ir) = Some rs →
    step cd v sourceURLs st EvCollect
      (mkFanOut (tasks st) (permits st) rest rs (ctxDone st)).

(** A run: the events in order. *)
Inductive run (cd : ConcurrentDecoder) (v : Variant)
    (sourceURLs : list string) : FanOut → list Event → FanOut → Prop :=
| run_nil st : run cd v sourceURLs st [] st
| run_snoc st1 evs st2 ev st3 :
    run cd v sourceURLs st1 evs st2 →
    step cd v sourceURLs st2 ev st3 →
    run cd v sourceURLs st1 (evs ++ [ev]) st3.

(** The call returns when every goroutine has returned ([wg.Wait()],
    then [close(resultChan)]) and the collecting loop has drained the
    channel. *)
Definition returned (st : FanOut) : Prop :=
  Forall (λ t, t = Finished ∨ t = Cancelled) (tasks st) ∧ resultChan st = [].

(** [DecodeURLs] and [DecodeURLsWithContext] return [rs] along the
    events [evs]. *)
Definition returns (cd : ConcurrentDecoder) (v : Variant)
    (sourceURLs : list string) (evs : list Event) (rs : list DecodeResult)
  : Prop :=
  ∃ st, run cd v sourceURLs (initialState v sourceURLs) evs st ∧
        returned st ∧ collected st = rs.

(** What [results] holds at first, and the result of the cancellation
    branch. *)
Definition initialResult (v : Variant) : DecodeResult :=
  match v with
  | PlainFanOut => zeroResult
  | WithContext => failed "not processed"
  end.

Definition cancelledResult : DecodeResult := failed "context cancelled".

(** The results for index [i] that wait in the channel. *)
Definition entries (i : nat) (chan : list indexedResult)
  : list indexedResult :=
  filter (λ ir, index ir = i) chan.

(** A result for index [i] is on its way: it waits in the channel and
    the slot is untouched, or it has been stored in the slot. *)
Definition delivers (v : Variant) (st : FanOut) (i : nat) (r : DecodeResult)
  : Prop :=
  (entries i (resultChan st) = [mkIndexedResult i r] ∧
   collected st !! i = Some (initialResult v))
  ∨ (entries i (resultChan st) = [] ∧ collected st !! i = Some r).

(** What holds of index [i] after the events [evs]. *)
Definition slotInv (cd : ConcurrentDecoder) (v : Variant)
    (sourceURLs : list string) (evs : list Event) (st : FanOut) (i : nat)
  : Prop :=
  match tasks st !! i with
  | Some Waiting =>
      entries i (resultChan st) = [] ∧
      collected st !! i = Some (initialResult v) ∧
      (EvAcquire i ∉ evs) ∧ (EvCancelled i ∉ evs)
  | Some Running =>
      entries i (resultChan st) = [] ∧
      collected st !! i = Some (initialResult v) ∧
      (EvAcquire i ∈ evs) ∧ (EvCancelled i ∉ evs)
  | Some Finished =>
      (EvAcquire i ∈ evs) ∧ (EvCancelled i ∉ evs) ∧
      ∃ u r, sourceURLs !! i = Some u ∧ Decode (decoder cd) u = Some r ∧
             delivers v st i r
  | Some Cancelled =>
      v = WithContext ∧
      (∃ before after,
         evs = before ++ EvCancelled i :: after ∧ EvCancel ∈ before) ∧
      (EvAcquire i ∉ evs) ∧
      delivers v st i cancelledResult
  | None => entries i (resultChan st) = []
  end.

Definition fanOutInv (cd : ConcurrentDecoder) (v : Variant)
    (sourceURLs : list string) (evs : list Event) (st : FanOut) : Prop :=
  length (tasks st) = length sourceURLs ∧
  length (collected st) = length sourceURLs ∧
  (ctxDone st = true → EvCancel ∈ evs) ∧
  ∀ i, slotInv cd v sourceURLs evs st i.

(** The events of the schedule that lets the goroutines of the first
    [count] indices run one after the other, each result being collected
    before the next goroutine takes its permit. *)
Fixpoint sequential (count : nat) : list Event :=
  match count with
  | O => []
  | S k => ((sequential k ++ [EvAcquire k]) ++ [EvFinish k]) ++ [EvCollect]
  end.

(** The state between two goroutines of that schedule: the first [k]
    have finished, the others wait, no permit is held and the channel is
    empty. *)
Definition betweenTasks (n k : nat) (st : FanOut) : Prop :=
  length (tasks st) = n ∧ length (collected st) = n ∧
  permits st = 0%nat ∧ resultChan st = [] ∧
  (∀ i, (i < k)%nat → tasks st !! i = Some Finished) ∧
  (∀ i, (k ≤ i < n)%nat → tasks st !! i = Some Waiting).

(** ** Reference definitions the statements compare the code with *)

(** The pieces of [s] between the occurrences of the byte [sep], empty
    pieces included: what splitting a path on a slash means. *)
Fixpoint fields (sep : ascii) (s : string) : list string :=
  match s with
  | EmptyString => [EmptyString]
  | String c s' =>
      if Ascii.eqb c sep then EmptyString :: fields sep s'
      else match fields sep s' with
           | f :: fs => String c f :: fs
           | [] => [String c EmptyString]
           end
  end.

(** The segments of a path: its pieces between slashes that are not
    empty. *)
Definition segments (path : string) : list string :=
  filter (λ p, p ≠ "") (fields "/"%char path).

(** [p] glued in front of the first piece. *)
Definition onHead (p : string) (pieces : list string) : list string :=
  match pieces with
  | f :: fs => (p +:+ f) :: fs
  | [] => [p]
  end.

(** The token test on the pieces of a path: at least two pieces, the
    second-to-last of them [articles] or [read]; the token is the last
    one. *)
Definition tokenOf (pieces : list string) (tok : string) : Prop :=
  (2 ≤ length pieces)%nat ∧
  (pieces !! (length pieces - 2)%nat = Some "articles" ∨
   pieces !! (length pieces - 2)%nat = Some "read") ∧
  pieces !! (length pieces - 1)%nat = Some tok.

(** The URL parses, its host is the news host, and the pieces [split]
    makes of its path pass the token test with token [tok]. *)
Definition extractsFrom (split : string → list string) (env : Env)
    (sourceURL tok : string) : Prop :=
  ∃ parsedURL,
    url_Parse env sourceURL = inr parsedURL ∧
    Host parsedURL = "news.google.com" ∧
    tokenOf (split (Path parsedURL)) tok.

(** What the first loop of [DecoderV4] finds out about one URL without
    the network (lines 330-378): its final result, or the token that
    waits for the batched call. *)
Definition individual (env : Env) (sourceURL : string)
  : option (DecodeResult + string) :=
  match url_Parse env sourceURL with
  | inl err => Some (inl (failed ("failed to parse URL: " +:+ err)))
  | inr parsedURL =>
      let path := Strings.Split (Path parsedURL) "/" in
      bad ← (if negb (String.eqb (Host parsedURL) "news.google.com")
             then Some true else pathType_bad path);
      if bad : bool then Some (inl (failed "invalid Google News URL"))
      else
        base64Str ← path !! (length path - 1)%nat;
        r ← decodeToken base64Str;
        match r with
        | inl err =>
            Some (inl (failed ("failed to decode base64: " +:+
                               Base64.CorruptInputError_Error err)))
        | inr decodedStr =>
            if Strings.HasPrefix decodedStr "AU_yqL"
            then Some (inr base64Str)
            else Some (inl (resolved decodedStr))
        end
  end.

(** The tokens of the URLs that wait for the batched call, in input
    order. *)
Definition pendingTokens (env : Env) (sourceURLs : list string)
  : list string :=
  omap (λ u, match individual env u with
             | Some (inr tok) => Some tok
             | _ => None
             end) sourceURLs.

(** A result that says what it is: a URL, or a failure with a
    message. *)
Definition informative (r : DecodeResult) : Prop :=
  (∃ u, r = resolved u) ∨ (∃ m, r = failed m ∧ m ≠ "").

(** [idx] is the last position of [sourceURLs] whose URL waits for the
    batched call with the token [tok]. *)
Definition lastPending (env : Env) (sourceURLs : list string)
    (tok : string) (idx : nat) : Prop :=
  (∃ u, sourceURLs !! idx = Some u ∧ individual env u = Some (inr tok)) ∧
  ∀ j u, (idx < j)%nat → sourceURLs !! j = Some u →
         individual env u ≠ Some (inr tok).

(** The state of the first loop of [DecoderV4] after the URLs [seen], on
    a slice of [n] results: every URL seen has its final result in its
    slot, or waits with the zero value there and its token in
    [batchIDs]; [idToIndex] sends a token to the last slot that waits
    for it; the other slots are untouched. *)
Definition classified (env : Env) (n : nat) (seen : list string)
    (st : BatchState) : Prop :=
  length (results st) = n ∧
  (∀ i u, seen !! i = Some u →
     ∃ v, individual env u = Some v ∧
          results st !! i
          = Some (match v with inl r => r | inr _ => zeroResult end)) ∧
  (∀ i, (length seen ≤ i < n)%nat → results st !! i = Some zeroResult) ∧
  batchIDs st = pendingTokens env seen ∧
  (∀ tok idx, idToIndex st !! tok = Some idx ↔ lastPending env seen tok idx).

(** The request text of the batched call for the tokens [ids]. *)
Definition batchRequest (ids : list string) : string :=
  "[[" +:+ Strings.Join (imap envelope ids) "," +:+ "]]".

(** The ways the batched call fails, each with the error it returns:
    the request cannot be built or sent, the status is not 200, or the
    body cannot be read. *)
Definition batchFails (env : Env) (ids : list string) (err : error) : Prop :=
  postRPC env (batchRequest ids) = inl err ∨
  ∃ resp, postRPC env (batchRequest ids) = inr resp ∧
          ((StatusCode resp ≠ 200%Z ∧ err = statusError (StatusCode resp)) ∨
           (StatusCode resp = 200%Z ∧ ReadErr resp = Some err)).

(** The number of characters of a token other than [\r] and [\n]. *)
Fixpoint significant (s : string) : nat :=
  match s with
  | EmptyString => 0
  | String c s' =>
      if Base64.is_newline c then significant s' else S (significant s')
  end.

(** The record a real token holds, read backwards from the decoder: the
    prefix, one length byte, the payload, whatever follows the payload
    ([trailer]), and the suffix. *)
Definition tokenRecord (payload trailer : string) : string :=
  prefix +:+ String (ascii_of_nat (Strings.len payload)) payload +:+
  trailer +:+ suffix.

(** The synthetic token of a payload: the record without a trailer,
    base64url-encoded with or without padding. *)
Definition syntheticToken (padding : bool) (payload : string) : string :=
  Base64.EncodeToString padding (tokenRecord payload "").

(** The URLs a response body holds, read off its text: before each one
    stands the first marker of the remaining text, after it the first
    terminator that follows that marker; the scan stops at the first
    place where no marker, or no terminator after it, is left. *)
Inductive ScansTo : string → list string → Prop :=
| scan_no_marker text :
    Strings.Index text header = None →
    ScansTo text []
| scan_no_terminator text i :
    Strings.Index text header = Some i →
    Strings.Index (Strings.drop (i + Strings.len header) text) footer = None →
    ScansTo text []
| scan_url text i k urls :
    Strings.Index text header = Some i →
    Strings.Index (Strings.drop (i + Strings.len header) text) footer = Some k →
    ScansTo (Strings.drop (k + Strings.len footer)
               (Strings.drop (i + Strings.len header) text)) urls →
    ScansTo text
      (Strings.take k (Strings.drop (i + Strings.len header) text) :: urls).

(** ** An environment for the examples *)

Module Sample.

(** A reader for the URLs of the examples: a scheme of letters, a plain
    host name, a path, a query and a fragment, or a path alone.  On
    these it gives the [Host] and the unescaped [Path] of [url.Parse]. *)
Definition isCTL (c : ascii) : bool :=
  (nat_of_ascii c <? 32)%nat || (nat_of_ascii c =? 127)%nat.

Fixpoint containsCTL (s : string) : bool :=
  match s with
  | EmptyString => false
  | String c s' => isCTL c || containsCTL s'
  end.

Definition unhex (c : ascii) : option nat :=
  let n := nat_of_ascii c in
  if (48 <=? n)%nat && (n <=? 57)%nat then Some (n - 48)%nat
  else if (97 <=? n)%nat && (n <=? 102)%nat then Some (n - 87)%nat
  else if (65 <=? n)%nat && (n <=? 70)%nat then Some (n - 55)%nat
  else None.

Fixpoint unescape (s : string) : option string :=
  match s with
  | EmptyString => Some EmptyString
  | String c rest =>
      if Ascii.eqb c "%"%char then
        match rest with
        | String a (String b rest') =>
            hi ← unhex a;
            lo ← unhex b;
            String (ascii_of_nat (16 * hi + lo)) <$> unescape rest'
        | _ => None
        end
      else String c <$> unescape rest
  end.

Fixpoint isLetters (s : string) : bool :=
  match s with
  | EmptyString => true
  | String c s' =>
      let n := nat_of_ascii c in
      (((65 <=? n)%nat && (n <=? 90)%nat) ||
       ((97 <=? n)%nat && (n <=? 122)%nat)) && isLetters s'
  end.

Definition cutAt (s sep : string) : string * string :=
  match Strings.Index s sep with
  | Some i => (Strings.take i s, Strings.drop i s)
  | None => (s, EmptyString)
  end.

Definition Parse (rawURL : string) : error + URL :=
  let u := (cutAt rawURL "#").1 in
  if containsCTL u then inl "net/url: invalid control character in URL"
  else
    let rest := (cutAt u "?").1 in
    let '(host, rawPath) :=
      match Strings.Index rest "://" with
      | Some i =>
          if (0 <? i)%nat && isLetters (Strings.take i rest)
          then cutAt (Strings.drop (i + 3) rest) "/"
          else (EmptyString, rest)
      | None => (EmptyString, rest)
      end in
    match unescape rawPath with
    | Some path => inr (mkURL host path)
    | None => inl "invalid URL escape"
    end.

(** The environment: requests are built as given and [reply] answers
    them; the form encoding keeps the value as it is; no JSON codec. *)
Definition env (reply : Request → error + Response) : Env :=
  mkEnv Parse
        (λ form, Strings.Join (map (λ kv, kv.1 +:+ "=" +:+ kv.2) form) "&")
        (λ method target body, inr (mkRequest method target [] body))
        reply
        (λ _, inl "json: unsupported value")
        (λ _, inl "unexpected end of JSON input").

(** No network. *)
Definition offline : Env := env (λ _, inl "dial tcp: no route to host").

(** A server that answers every request with status 200 and [body]. *)
Definition serving (body : string) : Env :=
  env (λ _, inr (mkResponse 200 body None)).

End Sample.

(** ** Construction of a decoder and the convenience functions
    ([google_decoder.go], lines 14-100 and 265-316) *)

(** The user part of a proxy URL; [Password()] gives the password, if
    one is set. *)
Record Userinfo := mkUserinfo {
  Username : string;
  UserPassword : option string
}.

(** A parsed proxy URL, with the fields [createTransportWithProxy]
    reads. *)
Record ProxyURL := mkProxyURL {
  Scheme : string;
  User : option Userinfo;
  ProxyHost : string
}.

(** [proxy.Auth] *)
Record Auth := mkAuth {
  AuthUser : string;
  AuthPassword : string
}.

(** A SOCKS5 dialer: the address and the credentials it was made
    with. *)
Record Dialer := mkDialer {
  DialAddress : string;
  DialAuth : option Auth
}.

(** [http.Transport], with the two fields the code sets. *)
Record Transport := mkTransport {
  Proxy : option ProxyURL;
  DialContext : option Dialer
}.

(** [http.Client], with the two fields the code sets; the timeout is in
    seconds. *)
Record Client := mkClient {
  ClientTransport : option Transport;
  Timeout : Z
}.

(** The libraries behind the construction: [url.Parse] of a proxy URL,
    [proxy.SOCKS5], what a client answers to a request, and the
    libraries of [Env] that do not depend on the client. *)
Record World := mkWorld {
  parseProxyURL : string → error + ProxyURL;
  proxy_SOCKS5 : string → string → option Auth → error + Dialer;
  clientDo : Client → Request → error + Response;
  lib : Env
}.

(** The environment of a decoder that holds the client [c]. *)
Definition envOf (w : World) (c : Client) : Env :=
  mkEnv (url_Parse (lib w)) (url_Values_Encode (lib w))
        (http_NewRequest (lib w)) (clientDo w c)
        (json_Marshal (lib w)) (json_Unmarshal (lib w)).

Record GoogleDecoder := mkGoogleDecoder {
  client : option Client;
  proxy : string
}.

Definition DecoderOption := GoogleDecoder → GoogleDecoder.

Definition WithProxy (proxyURL : string) : DecoderOption :=
  λ d, mkGoogleDecoder (client d) proxyURL.

Definition WithHTTPClient (c : Client) : DecoderOption :=
  λ d, mkGoogleDecoder (Some c) (proxy d).

Definition createTransportWithProxy (w : World) (proxyURL : string)
  : error + Transport :=
  match parseProxyURL w proxyURL with
  | inl err => inl err
  | inr parsedURL =>
      if String.eqb (Scheme parsedURL) "socks5" then
        let auth :=
          match User parsedURL with
          | Some user =>
              Some (mkAuth (Username user) (default "" (UserPassword user)))
          | None => None
          end in
        match proxy_SOCKS5 w "tcp" (ProxyHost parsedURL) auth with
        | inl err => inl err
        | inr dialer => inr (mkTransport None (Some dialer))
        end
      else inr (mkTransport (Some parsedURL) None)
  end.

Definition NewGoogleDecoder (w : World) (opts : list DecoderOption)
  : error + GoogleDecoder :=
  let d := foldl (λ d opt, opt d) (mkGoogleDecoder None "") opts in
  let c := default (mkClient None 30) (client d) in
  if negb (String.eqb (proxy d) "") then
    match createTransportWithProxy w (proxy d) with
    | inl err => inl err
    | inr transport =>
        inr (mkGoogleDecoder (Some (mkClient (Some transport) (Timeout c)))
                             (proxy d))
    end
  else inr (mkGoogleDecoder (Some c) (proxy d)).

(** [GoogleDecoder.Decode] on a constructed decoder; a decoder without
    client would panic. *)
Definition GoogleDecoder_Decode (w : World) (d : GoogleDecoder)
    (sourceURL : string) : option DecodeResult :=
  c ← client d; Decode (envOf w c) sourceURL.

(** The options of the convenience functions:
    [if proxyURL != nil && *proxyURL != ""]. *)
Definition proxyOpts (proxyURL : option string) : list DecoderOption :=
  match proxyURL with
  | Some p => if negb (String.eqb p "") then [WithProxy p] else []
  | None => []
  end.

Definition GNewsDecoder (w : World) (sourceURL : string)
    (proxyURL : option string) : option DecodeResult :=
  match NewGoogleDecoder w (proxyOpts proxyURL) with
  | inl err => Some (failed err)
  | inr d => GoogleDecoder_Decode w d sourceURL
  end.

(** [GNewsDecoderConcurrent] returns [rs] along the events [evs]: at
    once when the decoder cannot be made, and as [DecodeURLs] does
    otherwise. *)
Definition GNewsDecoderConcurrent_returns (w : World)
    (sourceURLs : list string) (concurrency : Z) (proxyURL : option string)
    (evs : list Event) (rs : list DecodeResult) : Prop :=
  match NewGoogleDecoder w (proxyOpts proxyURL) with
  | inl err =>
      evs = [] ∧ rs = replicate (length sourceURLs) (failed err)
  | inr d =>
      ∃ c, client d = Some c ∧
           returns (NewConcurrentDecoder (envOf w c) concurrency)
                   PlainFanOut sourceURLs evs rs
  end.

(** ** The text output of the command ([cmd/gnewsdecoder/main.go],
    lines 107-126) *)

Inductive Stream := Stdout | Stderr.

Definition newline : string := String "010"%char EmptyString.

(** What one iteration of the loop of [outputText] writes for the
    result at index [i] of [n] results. *)
Definition outputLine (n i : nat) (result : DecodeResult) : Stream * string :=
  if Status result then
    if (1 <? n)%nat
    then (Stdout, "[" +:+ Fmt.d (i + 1) +:+ "] " +:+ DecodedURL result +:+ newline)
    else (Stdout, DecodedURL result +:+ newline)
  else
    if (1 <? n)%nat
    then (Stderr, "[" +:+ Fmt.d (i + 1) +:+ "] Error: " +:+ Message result +:+ newline)
    else (Stderr, "Error: " +:+ Message result +:+ newline).

(** [outputText]: what is written, in order, and the exit code. *)
Fixpoint outputText_loop (n i : nat) (results : list DecodeResult)
    (written : list (Stream * string)) (exitCode : Z)
  : list (Stream * string) * Z :=
  match results with
  | [] => (written, exitCode)
  | result :: rest =>
      outputText_loop n (S i) rest (written ++ [outputLine n i result])
        (if Status result then exitCode else 1%Z)
  end.

Definition outputText (urls : list string) (results : list DecodeResult)
  : list (Stream * string) * Z :=
  outputText_loop (length results) 0 results [] 0.

(** ** More reference definitions *)

(** The request text of the single-reference call for the token [id]. *)
Definition singleRequest (id : string) : string :=
  "[[[" +:+ dq +:+ "Fbv4je" +:+ dq +:+ "," +:+ dq +:+ garturlreq +:+ id +:+
  "\" +:+ dq +:+ "]" +:+ dq +:+ ",null," +:+ dq +:+ "generic" +:+ dq +:+ "]]]".

(** The record of a payload of 128 to 16383 bytes, whose length takes
    two bytes: the low seven bits under the continuation bit, then the
    bits above them. *)
Definition longRecord (payload trailer : string) : string :=
  prefix +:+
  String (ascii_of_nat (Strings.len payload mod 128 + 128))
    (String (ascii_of_nat (Strings.len payload / 128)) payload) +:+
  trailer +:+ suffix.

(** [s] holds the byte [c]. *)
Fixpoint hasByte (c : ascii) (s : string) : bool :=
  match s with
  | EmptyString => false
  | String a s' => Ascii.eqb a c || hasByte c s'
  end.

(** The markup holds the attribute [name] with the value [v]: the name,
    an equals sign, and the non-empty value between quotes. *)
Definition attrOccurs (name v html : string) : Prop :=
  v ≠ "" ∧ hasByte "034"%char v = false ∧
  ∃ pre post, html = pre +:+ (name +:+ "=" +:+ dq) +:+ v +:+ dq +:+ post.

(** The environment whose every response carries the status [code],
    with the body and the read error [env] gives it. *)
Definition withStatus (code : Z) (env : Env) : Env :=
  mkEnv (url_Parse env) (url_Values_Encode env) (http_NewRequest env)
        (λ req, match client_Do env req with
                | inl err => inl err
                | inr resp => inr (mkResponse code (Body resp) (ReadErr resp))
                end)
        (json_Marshal env) (json_Unmarshal env).

(** A response of the environment to the request [getDecodingParams]
    sends for the article page or for the RSS page of a token: status
    200, and a body that holds the two attributes with the values
    [sig] and [ts]. *)
Definition answersWith (env : Env) (target sig ts : string) : Prop :=
  ∃ req resp,
    http_NewRequest env "GET" target None = inr req ∧
    client_Do env (Header_Set req "User-Agent" userAgent) = inr resp ∧
    StatusCode resp = 200%Z ∧
    attrOccurs "data-n-a-sg" sig (Body resp) ∧
    attrOccurs "data-n-a-ts" ts (Body resp).

(** Two environments with the same [url.Parse]. *)
Definition sameParser (env1 env2 : Env) : Prop :=
  ∀ u, url_Parse env1 u = url_Parse env2 u.

(** The goroutines that hold a permit. *)
Definition running (ts : list Task) : nat :=
  length (filter (λ t, t = Running) ts).

(** What is left to do in a state: three events for a goroutine that
    waits, two for one that decodes, one for a result in the channel. *)
Definition workLeft (st : FanOut) : nat :=
  3 * length (filter (λ t, t = Waiting) (tasks st))
  + 2 * running (tasks st) + length (resultChan st).

(** The events of the program among [evs], those other than the
    cancellation of the caller. *)
Definition isCancel (ev : Event) : bool :=
  match ev with EvCancel => true | _ => false end.

Definition programEvents (evs : list Event) : list Event :=
  List.filter (λ ev, negb (isCancel ev)) evs.

(** * Properties *)

(** ** Strings *)

#[local] Arguments String.append !_ _ / : simpl nomatch.

Section StringFacts.
Implicit Types (s t : string) (n : nat).

Lemma len_app s t : Strings.len (s +:+ t) = (Strings.len s + Strings.len t)%nat.
Proof. induction s as [|c s IH]; simpl; [done|]. by rewrite IH. Qed.

Lemma str_app_nil_r s : s +:+ "" = s.
Proof. induction s as [|c s IH]; simpl; [done|]. by rewrite IH. Qed.

Lemma str_app_assoc s t u : (s +:+ t) +:+ u = s +:+ t +:+ u.
Proof. induction s as [|c s IH]; simpl; [done|]. by rewrite IH. Qed.

Lemma drop_len n s : Strings.len (Strings.drop n s) = (Strings.len s - n)%nat.
Proof. revert s; induction n as [|n IH]; intros [|c s]; simpl; auto. Qed.

Lemma take_len n s :
  Strings.len (Strings.take n s) = Nat.min n (Strings.len s).
Proof. revert s; induction n as [|n IH]; intros [|c s]; simpl; auto. Qed.

Lemma take_all n s : (Strings.len s ≤ n)%nat → Strings.take n s = s.
Proof.
  revert s; induction n as [|n IH]; intros [|c s]; simpl; try done; try lia.
  intros ?. f_equal. apply IH. lia.
Qed.

Lemma drop_all n s : (Strings.len s ≤ n)%nat → Strings.drop n s = "".
Proof.
  revert s; induction n as [|n IH]; intros [|c s]; simpl; try done; try lia.
  intros ?. apply IH. lia.
Qed.

Lemma take_app s t : Strings.take (Strings.len s) (s +:+ t) = s.
Proof. induction s as [|c s IH]; simpl; [by destruct t|]. by rewrite IH. Qed.

Lemma drop_app s t : Strings.drop (Strings.len s) (s +:+ t) = t.
Proof. induction s as [|c s IH]; simpl; done. Qed.

Lemma take_drop n s : Strings.take n s +:+ Strings.drop n s = s.
Proof.
  revert s; induction n as [|n IH]; intros [|c s]; simpl; try done.
  by rewrite IH.
Qed.

Lemma slice_in_range s lo hi :
  (lo ≤ hi)%nat → (hi ≤ Strings.len s)%nat →
  Strings.slice s lo hi = Some (Strings.take (hi - lo) (Strings.drop lo s)).
Proof.
  intros Hlo Hhi. unfold Strings.slice.
  destruct (Nat.leb_spec lo hi); [|lia].
  destruct (Nat.leb_spec hi (Strings.len s)); [done|lia].
Qed.

Lemma slice_is_Some s lo hi :
  is_Some (Strings.slice s lo hi) ↔ (lo ≤ hi ≤ Strings.len s)%nat.
Proof.
  unfold Strings.slice.
  destruct (Nat.leb_spec lo hi), (Nat.leb_spec hi (Strings.len s));
    simpl; split; intros Hs; try (by eexists); try lia;
    by destruct Hs as [? [=]].
Qed.

Lemma HasPrefix_app s t : Strings.HasPrefix (s +:+ t) s = true.
Proof.
  unfold Strings.HasPrefix. rewrite take_app, String.eqb_refl, len_app.
  destruct (Nat.leb_spec (Strings.len s) (Strings.len s + Strings.len t));
    [done|lia].
Qed.

Lemma HasSuffix_app s t : Strings.HasSuffix (s +:+ t) t = true.
Proof.
  unfold Strings.HasSuffix. rewrite len_app.
  replace (Strings.len s + Strings.len t - Strings.len t)%nat
    with (Strings.len s) by lia.
  rewrite drop_app, String.eqb_refl.
  destruct (Nat.leb_spec (Strings.len t) (Strings.len s + Strings.len t));
    [done|lia].
Qed.

Lemma index_0 c s : Strings.index (String c s) 0 = Some c.
Proof. done. Qed.

End StringFacts.

(** ** The record steps never panic *)

Lemma removePrefix_total (s : string) : is_Some (removePrefix s).
Proof.
  unfold removePrefix, Strings.HasPrefix.
  destruct (Nat.leb_spec (Strings.len prefix) (Strings.len s)); cbn [andb];
    [|by eexists].
  destruct (String.eqb _ _); [|by eexists].
  apply slice_is_Some. lia.
Qed.

Lemma removeSuffix_total (s : string) : is_Some (removeSuffix s).
Proof.
  unfold removeSuffix, Strings.HasSuffix.
  destruct (Nat.leb_spec (Strings.len suffix) (Strings.len s)); cbn [andb];
    [|by eexists].
  destruct (String.eqb _ _); [|by eexists].
  apply slice_is_Some. lia.
Qed.

Lemma extractByLength_total (s : string) : is_Some (extractByLength s).
Proof.
  unfold extractByLength. destruct s as [|c s]; [by eexists|].
  change (0 <? Strings.len (String c s))%nat with true.
  rewrite index_0. cbn [mbind option_bind].
  set (L := nat_of_ascii c).
  destruct (Nat.leb_spec 128 L), (Nat.ltb_spec (L + 1) (Strings.len (String c s)));
    cbn [andb]; try (by eexists); apply slice_is_Some; lia.
Qed.

Lemma decodeRecord_total (s : string) : is_Some (decodeRecord s).
Proof.
  unfold decodeRecord.
  destruct (removePrefix_total s) as [s1 ->]. cbn.
  destruct (removeSuffix_total s1) as [s2 ->]. cbn.
  apply extractByLength_total.
Qed.

Lemma decodeToken_total (tok : string) : is_Some (decodeToken tok).
Proof.
  unfold decodeToken. destruct (Base64.DecodeString _); [by eexists|].
  destruct (decodeRecord_total s) as [r ->]. by eexists.
Qed.

(** C5. A stripped record shorter than [L+1] bytes, [L] being its first
    byte, is what the binary token decoder returns, unchanged; and the
    slicing by the length byte is defined on every byte sequence: no
    slice bound is out of range, nothing panics. *)
Theorem short_record_unchanged :
  (∀ tok decodedBytes s1 stripped,
     Base64.DecodeString (tok +:+ "==") = inr decodedBytes →
     removePrefix decodedBytes = Some s1 →
     removeSuffix s1 = Some stripped →
     (∀ c, Strings.index stripped 0 = Some c →
           (Strings.len stripped < nat_of_ascii c + 1)%nat) →
     decodeToken tok = Some (inr stripped)) ∧
  (∀ s, is_Some (extractByLength s)) ∧
  (∀ decodedBytes, is_Some (decodeRecord decodedBytes)).
Proof.
  split; [|split; [apply extractByLength_total | apply decodeRecord_total]].
  intros tok decodedBytes s1 stripped Hb64 Hpre Hsuf Hshort.
  unfold decodeToken, decodeRecord. rewrite Hb64, Hpre. cbn. rewrite Hsuf. cbn.
  unfold extractByLength. destruct stripped as [|c s]; [done|].
  change (0 <? Strings.len (String c s))%nat with true.
  rewrite index_0. cbn [mbind option_bind].
  specialize (Hshort c eq_refl).
  destruct (Nat.ltb_spec (nat_of_ascii c + 1) (Strings.len (String c s)));
    [lia|].
  by rewrite andb_false_r.
Qed.

Lemma short_record_unchanged_witness :
  decodeToken "AQ" = Some (inr (String "001"%char "")).
Proof.
  apply (proj1 short_record_unchanged "AQ" (String "001"%char "")
           (String "001"%char "") (String "001"%char ""));
    try reflexivity.
  intros c [= <-]. vm_compute. lia.
Defined.

(** ** Base64: which inputs decode *)

Lemma newline_not_in_alphabet (c : ascii) :
  Base64.is_newline c = true → Base64.decodeMap c = None.
Proof.
  unfold Base64.is_newline. intros [H|H]%orb_true_iff;
    apply Ascii.eqb_eq in H; by subst c.
Qed.

Lemma significant_app (s t : string) :
  significant (s +:+ t) = (significant s + significant t)%nat.
Proof.
  induction s as [|c s IH]; simpl; [done|].
  destruct (Base64.is_newline c); lia.
Qed.

Lemma significant_no_newline (s : string) :
  (∀ i c, String.get i s = Some c → Base64.is_newline c = false) →
  significant s = Strings.len s.
Proof.
  induction s as [|c s IH]; simpl; [done|]. intros Hnl.
  rewrite (Hnl 0%nat c eq_refl). f_equal. apply IH.
  intros i c' Hget. by apply (Hnl (S i)).
Qed.

Lemma skip_newlines_significant (src : string) (si : nat) :
  significant (Base64.skip_newlines src si).1 = significant src.
Proof.
  revert si; induction src as [|c src IH]; intros si; simpl; [done|].
  destruct (Base64.is_newline c) eqn:Hc; simpl; [apply IH|by rewrite Hc].
Qed.

Lemma skip_newlines_head (src : string) (si : nat) c rest si' :
  Base64.skip_newlines src si = (String c rest, si') →
  Base64.is_newline c = false.
Proof.
  revert si; induction src as [|c0 src IH]; intros si; simpl; [done|].
  destruct (Base64.is_newline c0) eqn:Hc; [apply IH|].
  by intros [= <- _ _].
Qed.

Lemma after_padding_ok (src : string) (si : nat) (out r : string) :
  Base64.after_padding src si out = inr r → significant src = 0%nat ∧ r = out.
Proof.
  unfold Base64.after_padding.
  pose proof (skip_newlines_significant src si) as Hsig.
  destruct (Base64.skip_newlines src si) as [[|c rest] si']; [|done].
  intros [= <-]. by rewrite <- Hsig.
Qed.

(** A successful decode has read whole groups of four significant
    characters. *)
Lemma decode_from_ok (src : string) :
  ∀ si dbuf out,
    (length dbuf < 4)%nat →
    Base64.decode_from src si dbuf = inr out →
    ((length dbuf + significant src) mod 4 = 0)%nat.
Proof.
  induction src as [|c src IH]; intros si dbuf out Hlen;
    cbn [Base64.decode_from significant].
  - destruct dbuf; [done|discriminate].
  - destruct (Base64.decodeMap c) as [v|] eqn:Hmap.
    + assert (Base64.is_newline c = false) as ->.
      { destruct (Base64.is_newline c) eqn:Hc; [|done].
        by rewrite (newline_not_in_alphabet c Hc) in Hmap. }
      rewrite length_app. cbn [length].
      destruct (Nat.eqb_spec (length dbuf + 1) 4) as [H4|H4].
      * destruct (Base64.decode_from src (S si) []) as [|tail] eqn:Hrec;
          [done|].
        intros _. specialize (IH (S si) [] tail ltac:(cbn; lia) Hrec).
        cbn [length] in IH. lia.
      * intros Hrec. apply IH in Hrec; rewrite length_app in *;
          cbn [length] in *; lia.
    + destruct (Base64.is_newline c) eqn:Hc; [by apply IH|].
      destruct (Ascii.eqb c Base64.StdPadding); cbn [negb]; [|done].
      destruct dbuf as [|d0 [|d1 [|d2 [|d3 dbuf]]]]; cbn [length] in *;
        try done; try lia.
      * pose proof (skip_newlines_significant src (S si)) as Hsig.
        destruct (Base64.skip_newlines src (S si)) as [[|c2 rest2] si'] eqn:Hskip;
          [done|].
        pose proof (skip_newlines_head _ _ _ _ _ Hskip) as Hc2.
        destruct (Ascii.eqb c2 Base64.StdPadding); cbn [negb]; [|done].
        intros [Hz _]%after_padding_ok.
        cbn [fst significant] in Hsig. rewrite Hc2, Hz in Hsig.
        by rewrite <- Hsig.
      * intros [Hz _]%after_padding_ok. by rewrite Hz.
Qed.

Lemma DecodeString_ok (s out : string) :
  Base64.DecodeString s = inr out → (significant s mod 4 = 0)%nat.
Proof.
  intros H. by apply (decode_from_ok s 0 [] out) in H; [|simpl; lia].
Qed.

Lemma decodeToken_needs_two_mod_four (tok : string) :
  (significant tok mod 4 ≠ 2)%nat → ∃ e, decodeToken tok = Some (inl e).
Proof.
  intros Hmod. unfold decodeToken.
  destruct (Base64.DecodeString (tok +:+ "==")) as [e|out] eqn:Hdec;
    [by exists e|].
  apply DecodeString_ok in Hdec. rewrite significant_app in Hdec.
  change (significant "==") with 2%nat in Hdec. lia.
Qed.

(** ** Base64: decoding an encoded record *)

Section Base64RoundTrip.
Local Open Scope N_scope.

Lemma lor_disjoint_add (a b k : N) :
  a mod 2 ^ k = 0 → b < 2 ^ k → N.lor a b = a + b.
Proof.
  intros Ha Hb. rewrite <- N.lxor_lor; [symmetry; apply N.add_nocarry_lxor|];
    apply N.bits_inj; intros n; rewrite N.land_spec, N.bits_0;
    (destruct (N.lt_ge_cases n k) as [Hn|Hn];
     [ rewrite <- (N.mod_pow2_bits_low a k n Hn), Ha, N.bits_0; done
     | destruct (N.eq_dec b 0) as [->|Hb0];
       [ by rewrite N.bits_0, andb_false_r
       | rewrite (N.bits_above_log2 b n), andb_false_r; [done|];
         apply N.lt_le_trans with k; [apply N.log2_lt_pow2; lia | done] ] ]).
Qed.

Lemma land_63 (x : N) : N.land x 63 = x mod 64.
Proof. change 63 with (N.ones 6). by rewrite N.land_ones. Qed.

Lemma land_255 (x : N) : N.land x 255 = x mod 256.
Proof. change 255 with (N.ones 8). by rewrite N.land_ones. Qed.

Lemma N_of_ascii_bound (c : ascii) : N_of_ascii c < 256.
Proof. apply N_ascii_bounded. Qed.

Lemma group_val_arith (b0 b1 b2 : ascii) :
  Base64.group_val b0 b1 b2
  = N_of_ascii b0 * 65536 + N_of_ascii b1 * 256 + N_of_ascii b2.
Proof.
  unfold Base64.group_val. rewrite !N.shiftl_mul_pow2.
  pose proof (N_of_ascii_bound b0). pose proof (N_of_ascii_bound b1).
  pose proof (N_of_ascii_bound b2).
  change (2 ^ 16) with 65536. change (2 ^ 8) with 256.
  rewrite (lor_disjoint_add (N_of_ascii b0 * 65536) _ 16);
    [|change (2 ^ 16) with 65536; lia..].
  rewrite (lor_disjoint_add _ (N_of_ascii b2) 8);
    [done|change (2 ^ 8) with 256; lia..].
Qed.

Lemma quantum_val_arith (d0 d1 d2 d3 : N) :
  d0 < 64 → d1 < 64 → d2 < 64 → d3 < 64 →
  Base64.quantum_val d0 d1 d2 d3 = d0 * 262144 + d1 * 4096 + d2 * 64 + d3.
Proof.
  intros. unfold Base64.quantum_val. rewrite !N.shiftl_mul_pow2.
  change (2 ^ 18) with 262144. change (2 ^ 12) with 4096.
  change (2 ^ 6) with 64.
  rewrite (lor_disjoint_add (d0 * 262144) _ 18);
    [|change (2 ^ 18) with 262144; lia..].
  rewrite (lor_disjoint_add _ (d2 * 64) 12);
    [|change (2 ^ 12) with 4096; lia..].
  rewrite (lor_disjoint_add _ d3 6); [done|change (2 ^ 6) with 64; lia..].
Qed.

(** Every 6-bit value is read back from its character, which is
    neither a newline nor the padding. *)
Lemma decodeMap_encodeAt (v : N) :
  v < 64 → Base64.decodeMap (Base64.encodeAt v) = Some v.
Proof.
  intros Hv.
  assert (Hall : forallb (λ n, bool_decide
            (Base64.decodeMap (Base64.encodeAt (N.of_nat n))
             = Some (N.of_nat n))) (seq 0 64) = true) by by vm_compute.
  rewrite forallb_forall in Hall.
  assert (Hin : In (N.to_nat v) (seq 0 64)) by (apply in_seq; lia).
  apply Hall in Hin. rewrite N2Nat.id in Hin.
  by apply bool_decide_eq_true_1 in Hin.
Qed.

Lemma decodeMap_sextet (val shift : N) :
  Base64.decodeMap (Base64.sextet val shift)
  = Some (N.land (N.shiftr val shift) 63).
Proof.
  apply decodeMap_encodeAt. rewrite land_63. by apply N.mod_lt.
Qed.

Lemma byte_of_ascii (c : ascii) (x : N) :
  x mod 256 = N_of_ascii c → Base64.byte x = c.
Proof.
  intros Hx. unfold Base64.byte. rewrite land_255, Hx.
  apply ascii_N_embedding.
Qed.

(** The four values of a group give its three bytes back. *)
Lemma quantum_bytes_group (b0 b1 b2 : ascii) :
  let val := Base64.group_val b0 b1 b2 in
  Base64.quantum_bytes
    [N.land (N.shiftr val 18) 63; N.land (N.shiftr val 12) 63;
     N.land (N.shiftr val 6) 63; N.land (N.shiftr val 0) 63] 4
  = String b0 (String b1 (String b2 EmptyString)).
Proof.
  intros val. unfold Base64.quantum_bytes. cbn [nth Strings.take Nat.sub].
  pose proof (N_of_ascii_bound b0). pose proof (N_of_ascii_bound b1).
  pose proof (N_of_ascii_bound b2).
  assert (Hval : val = N_of_ascii b0 * 65536 + N_of_ascii b1 * 256
                       + N_of_ascii b2) by apply group_val_arith.
  rewrite !land_63, !N.shiftr_div_pow2.
  change (2 ^ 18) with 262144. change (2 ^ 12) with 4096.
  change (2 ^ 6) with 64. change (2 ^ 0) with 1.
  change (2 ^ 16) with 65536. change (2 ^ 8) with 256.
  rewrite quantum_val_arith by (apply N.mod_lt; lia).
  clearbody val.
  f_equal; [|f_equal; [|f_equal]]; apply byte_of_ascii; lia.
Qed.

(** The two values of a last single byte give it back. *)
Lemma quantum_bytes_last (b0 : ascii) :
  let val := Base64.group_val b0 "000"%char "000"%char in
  Base64.quantum_bytes
    [N.land (N.shiftr val 18) 63; N.land (N.shiftr val 12) 63] 2
  = String b0 EmptyString.
Proof.
  intros val. unfold Base64.quantum_bytes. cbn [nth Strings.take Nat.sub].
  pose proof (N_of_ascii_bound b0).
  assert (Hval : val = N_of_ascii b0 * 65536 + 0 * 256 + 0)
    by apply group_val_arith.
  rewrite !land_63, !N.shiftr_div_pow2.
  change (2 ^ 18) with 262144. change (2 ^ 12) with 4096.
  change (2 ^ 16) with 65536.
  rewrite quantum_val_arith by (try apply N.mod_lt; lia).
  clearbody val.
  f_equal. apply byte_of_ascii. lia.
Qed.

End Base64RoundTrip.

Lemma decode_from_value (c : ascii) (v : N) (rest : string) (si : nat)
    (dbuf : list N) :
  Base64.decodeMap c = Some v →
  Base64.decode_from (String c rest) si dbuf
  = if (length (dbuf ++ [v]) =? 4)%nat
    then match Base64.decode_from rest (S si) [] with
         | inl e => inl e
         | inr tail => inr (Base64.quantum_bytes (dbuf ++ [v]) 4 +:+ tail)
         end
    else Base64.decode_from rest (S si) (dbuf ++ [v]).
Proof. intros H. cbn [Base64.decode_from]. by rewrite H. Qed.

Lemma decode_from_final_padding (si : nat) (d0 d1 : N) :
  Base64.decode_from "==" si [d0; d1] = inr (Base64.quantum_bytes [d0; d1] 2).
Proof. reflexivity. Qed.

(** Decoding the unpadded encoding of [3k+1] bytes, with the two padding
    characters the decoders append, gives the bytes back. *)
Lemma decode_encode_raw (n : nat) :
  ∀ bs si,
    (Strings.len bs ≤ n)%nat → (Strings.len bs mod 3 = 1)%nat →
    Base64.decode_from (Base64.EncodeToString false bs +:+ "==") si [] = inr bs.
Proof.
  induction n as [|n IH]; intros bs si Hn Hmod.
  - destruct bs; simpl in *; [done|lia].
  - destruct bs as [|b0 [|b1 [|b2 rest]]]; cbn [String.length] in *.
    + done.
    + cbn [Base64.EncodeToString String.append].
      rewrite !(decode_from_value _ _ _ _ _ (decodeMap_sextet _ _)).
      cbn [app length Nat.eqb].
      rewrite decode_from_final_padding. f_equal. apply quantum_bytes_last.
    + done.
    + cbn [Base64.EncodeToString String.append].
      rewrite !(decode_from_value _ _ _ _ _ (decodeMap_sextet _ _)).
      cbn [app length Nat.eqb].
      rewrite IH by lia. by rewrite quantum_bytes_group.
Qed.

Lemma DecodeString_EncodeToString_raw (bs : string) :
  (Strings.len bs mod 3 = 1)%nat →
  Base64.DecodeString (Base64.EncodeToString false bs +:+ "==") = inr bs.
Proof. intros. by apply (decode_encode_raw (Strings.len bs)). Qed.

(** ** The record steps on a well-formed record *)

Lemma decodeRecord_tokenRecord (payload trailer : string) :
  (Strings.len payload < 128)%nat → trailer ≠ "" →
  decodeRecord (tokenRecord payload trailer) = Some payload.
Proof.
  intros Hlen Htrailer. unfold decodeRecord, tokenRecord.
  set (body := String (ascii_of_nat (Strings.len payload)) payload +:+ trailer).
  assert (Hbody : String (ascii_of_nat (Strings.len payload)) payload
                  +:+ trailer +:+ suffix = body +:+ suffix)
    by (unfold body; by rewrite str_app_assoc).
  rewrite Hbody.
  assert (removePrefix (prefix +:+ body +:+ suffix) = Some (body +:+ suffix))
    as ->.
  { unfold removePrefix. rewrite HasPrefix_app, slice_in_range.
    - rewrite drop_app, take_all; [done|]. rewrite !len_app. lia.
    - rewrite len_app. lia.
    - done. }
  cbn [mbind option_bind].
  assert (removeSuffix (body +:+ suffix) = Some body) as ->.
  { unfold removeSuffix. rewrite HasSuffix_app, slice_in_range.
    - cbn [Strings.drop]. rewrite len_app.
      replace (Strings.len body + Strings.len suffix
               - Strings.len suffix - 0)%nat with (Strings.len body) by lia.
      by rewrite take_app.
    - lia.
    - rewrite len_app. lia. }
  cbn [mbind option_bind].
  unfold extractByLength, body. cbn [String.append String.length].
  change (0 <? S _)%nat with true. rewrite index_0. cbn [mbind option_bind].
  rewrite nat_ascii_embedding by lia.
  destruct (Nat.leb_spec 128 (Strings.len payload)); [lia|]. cbn [andb].
  rewrite len_app.
  assert (0 < Strings.len trailer)%nat by (destruct trailer; simpl; [done|lia]).
  destruct (Nat.ltb_spec (Strings.len payload + 1)
              (S (Strings.len payload + Strings.len trailer))); [|lia].
  rewrite slice_in_range by (cbn [String.length]; rewrite ?len_app; lia).
  cbn [Strings.drop].
  replace (Strings.len payload + 1 - 1)%nat with (Strings.len payload) by lia.
  by rewrite take_app.
Qed.

Lemma len_tokenRecord (payload trailer : string) :
  Strings.len (tokenRecord payload trailer)
  = (Strings.len payload + Strings.len trailer + 7)%nat.
Proof.
  unfold tokenRecord. rewrite len_app. cbn [String.append String.length].
  rewrite !len_app. cbn. lia.
Qed.

(** The record without a trailer: the slice by the length byte is not
    taken. *)
Lemma decodeRecord_exact_fit (payload : string) :
  (Strings.len payload < 128)%nat →
  decodeRecord (tokenRecord payload "")
  = Some (String (ascii_of_nat (Strings.len payload)) payload).
Proof.
  intros Hlen. unfold decodeRecord, tokenRecord.
  set (body := String (ascii_of_nat (Strings.len payload)) payload).
  change ("" +:+ suffix) with suffix.
  assert (removePrefix (prefix +:+ body +:+ suffix) = Some (body +:+ suffix))
    as ->.
  { unfold removePrefix. rewrite HasPrefix_app, slice_in_range.
    - rewrite drop_app, take_all; [done|]. rewrite !len_app. lia.
    - rewrite len_app. lia.
    - done. }
  cbn [mbind option_bind].
  assert (removeSuffix (body +:+ suffix) = Some body) as ->.
  { unfold removeSuffix. rewrite HasSuffix_app, slice_in_range.
    - cbn [Strings.drop]. rewrite len_app.
      replace (Strings.len body + Strings.len suffix
               - Strings.len suffix - 0)%nat with (Strings.len body) by lia.
      by rewrite take_app.
    - lia.
    - rewrite len_app. lia. }
  cbn [mbind option_bind].
  unfold extractByLength, body. cbn [String.length].
  change (0 <? S _)%nat with true. rewrite index_0. cbn [mbind option_bind].
  rewrite nat_ascii_embedding by lia.
  destruct (Nat.leb_spec 128 (Strings.len payload)); [lia|]. cbn [andb].
  destruct (Nat.ltb_spec (Strings.len payload + 1) (S (Strings.len payload)));
    [lia|done].
Qed.

(** ** The binary token decoder on constructed tokens *)

(** A record as real tokens have it decodes to its payload: the prefix,
    one length byte below 0x80 equal to the payload length, the payload,
    a non-empty trailer and the suffix, of [3k+1] bytes in all,
    base64url-encoded without padding.  The slice by the length byte is
    taken here, the record being longer than [L+1] bytes. *)
Lemma record_round_trip (payload trailer : string) :
  (Strings.len payload < 128)%nat →
  trailer ≠ "" →
  ((Strings.len payload + Strings.len trailer + 7) mod 3 = 1)%nat →
  decodeToken (Base64.EncodeToString false (tokenRecord payload trailer))
  = Some (inr payload).
Proof.
  intros Hlen Htrailer Hmod. unfold decodeToken.
  rewrite DecodeString_EncodeToString_raw by by rewrite len_tokenRecord.
  by rewrite decodeRecord_tokenRecord.
Qed.

(** C2. The code misses the round trip.  The record of the claim has
    no trailer, so that the stripped record has exactly [L+1] bytes, [L]
    being the length byte; the guard of the slice asks for more than
    [L+1] bytes, the slice is not taken, and the decoder returns the
    length byte followed by the payload.  This holds for every payload
    below 128 bytes whose token decodes at all, which are those of a
    length divisible by three. *)
Theorem exact_fit_record_keeps_length_byte (payload : string) :
  (Strings.len payload < 128)%nat →
  (Strings.len payload mod 3 = 0)%nat →
  decodeToken (syntheticToken false payload)
  = Some (inr (String (ascii_of_nat (Strings.len payload)) payload))
  ∧ String (ascii_of_nat (Strings.len payload)) payload ≠ payload.
Proof.
  intros Hlen Hmod. split.
  - unfold decodeToken, syntheticToken.
    rewrite DecodeString_EncodeToString_raw
      by (rewrite len_tokenRecord; cbn [String.length]; lia).
    by rewrite decodeRecord_exact_fit.
  - intros Heq. apply (f_equal String.length) in Heq. simpl in Heq. lia.
Qed.

Lemma exact_fit_record_keeps_length_byte_witness :
  decodeToken (syntheticToken false "abc")
  = Some (inr (String "003"%char "abc")).
Proof.
  apply (exact_fit_record_keeps_length_byte "abc");
    [vm_compute; lia|reflexivity].
Defined.

(** The payload [abc]: its token decodes to the length byte followed by
    the payload when encoded without padding, and does not decode at
    all when encoded with padding; [DecoderV3] reports the former as the
    decoded URL. *)
Lemma synthetic_token_not_round_trip :
  decodeToken (syntheticToken false "abc") = Some (inr (String "003"%char "abc"))
  ∧ decodeToken (syntheticToken true "abc") = Some (inl 16%nat)
  ∧ DecoderV3 Sample.offline
      ("https://news.google.com/articles/" +:+ syntheticToken false "abc")
    = Some (resolved (String "003"%char "abc"))
  ∧ String "003"%char "abc" ≠ "abc".
Proof. repeat split; try by vm_compute. Qed.

(** C10 (amended). With ["=="] appended before the padded decoding, a
    token decodes only if the number of its characters other than CR and
    LF, which the decoder skips, is congruent to 2 modulo 4; for a token
    without CR and LF that number is its length.  [DecoderV3] then
    reports the base64 error, and [DecoderV1] returns the source URL. *)
Theorem decode_needs_two_mod_four :
  (∀ tok, (significant tok mod 4 ≠ 2)%nat →
          ∃ e, decodeToken tok = Some (inl e)) ∧
  (∀ tok, (∀ i c, String.get i tok = Some c → Base64.is_newline c = false) →
          (Strings.len tok mod 4 ≠ 2)%nat →
          ∃ e, decodeToken tok = Some (inl e)) ∧
  (∀ env sourceURL parsedURL tok,
     url_Parse env sourceURL = inr parsedURL →
     Host parsedURL = "news.google.com" →
     pathType_ok (Strings.Split (Path parsedURL) "/") = Some true →
     last (Strings.Split (Path parsedURL) "/") = Some tok →
     (significant tok mod 4 ≠ 2)%nat →
     ∃ e, DecoderV3 env sourceURL
          = Some (failed ("failed to decode base64: " +:+
                          Base64.CorruptInputError_Error e))) ∧
  (∀ env sourceURL parsedURL tok,
     url_Parse env sourceURL = inr parsedURL →
     Host parsedURL = "news.google.com" →
     articles_ok (Strings.Split (Path parsedURL) "/") = Some true →
     last (Strings.Split (Path parsedURL) "/") = Some tok →
     (significant tok mod 4 ≠ 2)%nat →
     DecoderV1 env sourceURL = Some sourceURL).
Proof.
  split; [exact decodeToken_needs_two_mod_four|split; [|split]].
  - intros tok Hnl Hmod. apply decodeToken_needs_two_mod_four.
    by rewrite significant_no_newline.
  - intros env sourceURL parsedURL tok Hparse Hhost Hok Hlast Hmod.
    destruct (decodeToken_needs_two_mod_four tok Hmod) as [e He].
    exists e. unfold DecoderV3. rewrite Hparse, Hhost, String.eqb_refl, Hok.
    cbn [mbind option_bind]. rewrite last_lookup in Hlast.
    replace (length (Strings.Split (Path parsedURL) "/") - 1)%nat
      with (pred (length (Strings.Split (Path parsedURL) "/"))) by lia.
    rewrite Hlast. cbn [mbind option_bind]. by rewrite He.
  - intros env sourceURL parsedURL tok Hparse Hhost Hok Hlast Hmod.
    destruct (decodeToken_needs_two_mod_four tok Hmod) as [e He].
    unfold DecoderV1. rewrite Hparse, Hhost, String.eqb_refl, Hok.
    cbn [mbind option_bind]. rewrite last_lookup in Hlast.
    replace (length (Strings.Split (Path parsedURL) "/") - 1)%nat
      with (pred (length (Strings.Split (Path parsedURL) "/"))) by lia.
    rewrite Hlast. cbn [mbind option_bind]. by rewrite He.
Qed.

Lemma decode_needs_two_mod_four_witness :
  ∃ e, decodeToken "AAAA" = Some (inl e).
Proof.
  apply (proj1 decode_needs_two_mod_four "AAAA"). vm_compute. lia.
Defined.

(** C10, as stated, fails: the three-character token made of [AA] and a
    line feed, which a URL carries as [AA%0A], has a length not
    congruent to 2 modulo 4 and decodes. *)
Lemma newline_token_decodes :
  let tok := String "A"%char (String "A"%char (String "010"%char "")) in
  (Strings.len tok mod 4)%nat ≠ 2%nat
  ∧ Base64.DecodeString (tok +:+ "==") = inr (String "000"%char "")
  ∧ decodeToken tok = Some (inr (String "000"%char ""))
  ∧ DecoderV3 Sample.offline "https://news.google.com/articles/AA%0A"
    = Some (resolved (String "000"%char "")).
Proof. repeat split; try by vm_compute. Qed.

(** ** [strings.Index] finds the first occurrence *)

Lemma HasPrefix_split (s sub : string) :
  Strings.HasPrefix s sub = true → s = sub +:+ Strings.drop (Strings.len sub) s.
Proof.
  unfold Strings.HasPrefix. intros [_ Heq%String.eqb_eq]%andb_true_iff.
  rewrite <- Heq at 1. by rewrite take_drop.
Qed.

Lemma Index_split (s sub : string) (i : nat) :
  Strings.Index s sub = Some i →
  s = Strings.take i s +:+ sub +:+ Strings.drop (i + Strings.len sub) s.
Proof.
  revert i. induction s as [|c s IH]; intros i; cbn [Strings.Index].
  - destruct (Strings.HasPrefix "" sub) eqn:Hp; [|done].
    intros [= <-]. by apply HasPrefix_split in Hp.
  - destruct (Strings.HasPrefix (String c s) sub) eqn:Hp.
    + intros [= <-]. by apply HasPrefix_split in Hp.
    + destruct (Strings.Index s sub) as [k|]; [|done].
      intros [= <-]. cbn [Strings.take Strings.drop Nat.add String.append].
      f_equal. by apply IH.
Qed.

Lemma Index_first (s sub : string) (i : nat) :
  Strings.Index s sub = Some i →
  ∀ k, (k < i)%nat → Strings.HasPrefix (Strings.drop k s) sub = false.
Proof.
  revert i. induction s as [|c s IH]; intros i; cbn [Strings.Index].
  - destruct (Strings.HasPrefix "" sub); [|done]. intros [= <-] k. lia.
  - destruct (Strings.HasPrefix (String c s) sub) eqn:Hp.
    + intros [= <-] k. lia.
    + destruct (Strings.Index s sub) as [j|]; [|done].
      intros [= <-] [|k] Hk; [done|]. cbn [Strings.drop]. apply (IH j); [done|lia].
Qed.

Lemma take_len_le (n : nat) (s : string) :
  (n ≤ Strings.len s)%nat → Strings.len (Strings.take n s) = n.
Proof. intros. rewrite take_len. lia. Qed.

Lemma Index_in_range (s sub : string) (i : nat) :
  Strings.Index s sub = Some i → (i + Strings.len sub ≤ Strings.len s)%nat.
Proof.
  revert i. induction s as [|c s IH]; intros i; cbn [Strings.Index];
    unfold Strings.HasPrefix at 1.
  - destruct (Nat.leb_spec (Strings.len sub) (Strings.len "")); [|done].
    destruct (String.eqb _ _); [|done]. cbn [andb]. intros [= <-]. lia.
  - destruct (Nat.leb_spec (Strings.len sub) (Strings.len (String c s)));
      cbn [andb].
    + destruct (String.eqb _ _); [intros [= <-]; lia|].
      destruct (Strings.Index s sub) as [k|]; [|done].
      intros [= <-]. specialize (IH k eq_refl). simpl. lia.
    + destruct (Strings.Index s sub) as [k|]; [|done].
      intros [= <-]. specialize (IH k eq_refl). simpl. lia.
Qed.

(** ** The scanning loop of the batched call *)

Lemma scanRound_spec (text : string) :
  scanRound text =
  match Strings.Index text header with
  | None => Some None
  | Some i =>
      let start := Strings.drop (i + Strings.len header) text in
      match Strings.Index start footer with
      | None => Some None
      | Some k =>
          Some (Some (Strings.take k start,
                      Strings.drop (k + Strings.len footer) start))
      end
  end.
Proof.
  unfold scanRound, Strings.Contains, Strings.SplitN2.
  destruct (Strings.Index text header) as [i|]; [|done].
  cbn [length Nat.ltb Nat.leb lookup list_lookup mbind option_bind].
  by destruct (Strings.Index _ footer) as [k|].
Qed.

Lemma scanRound_total (text : string) : is_Some (scanRound text).
Proof.
  rewrite scanRound_spec.
  destruct (Strings.Index text header); [|by eexists].
  cbn zeta. destruct (Strings.Index _ footer); by eexists.
Qed.

Ltac same_index :=
  repeat match goal with
         | H1 : Strings.Index ?t ?h = _, H2 : Strings.Index ?t ?h = _ |- _ =>
             rewrite H1 in H2; inversion H2; subst; clear H2
         end.

Lemma ScansTo_functional (text : string) (urls1 urls2 : list string) :
  ScansTo text urls1 → ScansTo text urls2 → urls1 = urls2.
Proof.
  intros H1. revert urls2.
  induction H1 as [text Hi|text i Hi Hk|text i k urls Hi Hk _ IH];
    intros urls2 H2; inversion H2; subst; same_index; try done.
  f_equal. by apply IH.
Qed.

(** The loop never panics, and what it appends to the slice is what the
    text scans to. *)
Lemma scanURLs_ScansTo (text : string) (acc : list string) :
  ∃ urls, scanURLs text acc = Some (acc ++ urls) ∧ ScansTo text urls.
Proof.
  funelim (scanURLs text acc);
    match goal with
    | Hr : scanRound ?t = _ |- _ =>
        pose proof Hr as Hspec; rewrite scanRound_spec in Hspec
    end.
  - match goal with IH : ∃ _, _ ∧ ScansTo _ _ |- _ =>
      destruct IH as (rest & Hrec & Hscan) end.
    exists (u :: rest). split.
    + rewrite Hrec. by rewrite <- app_assoc.
    + destruct (Strings.Index text header) as [i|] eqn:Hi; [|done].
      cbn zeta in Hspec.
      destruct (Strings.Index _ footer) as [k|] eqn:Hk; [|done].
      injection Hspec as <- <-. by eapply scan_url.
  - exists []. rewrite app_nil_r. split; [done|].
    destruct (Strings.Index text header) as [i|] eqn:Hi;
      [|by apply scan_no_marker].
    cbn zeta in Hspec.
    destruct (Strings.Index _ footer) as [k|] eqn:Hk; [done|].
    by eapply scan_no_terminator.
  - destruct (Strings.Index text header) as [i|]; [|done].
    cbn zeta in Hspec. by destruct (Strings.Index _ footer).
Qed.

Lemma ScansTo_cons_inv (text u : string) (rest : list string) :
  ScansTo text (u :: rest) →
  ∃ pre text',
    text = pre +:+ header +:+ u +:+ footer +:+ text' ∧
    Strings.Index text header = Some (Strings.len pre) ∧
    Strings.Index (u +:+ footer +:+ text') footer = Some (Strings.len u) ∧
    ScansTo text' rest.
Proof.
  inversion 1 as [| |text0 i k urls Hi Hk Hrest]; subst.
  change (Strings.drop (i + 18) text)
    with (Strings.drop (i + Strings.len header) text) in *.
  set (start := Strings.drop (i + Strings.len header) text) in *.
  exists (Strings.take i text),
         (Strings.drop (k + Strings.len footer) start).
  pose proof (Index_in_range _ _ _ Hi). pose proof (Index_in_range _ _ _ Hk).
  rewrite <- (Index_split start footer k Hk).
  rewrite !take_len_le by lia.
  split; [by apply Index_split|]. by repeat split.
Qed.

(** C8. On a response that was read, the batched call returns the URLs
    its body scans to: each one stands between the first marker of the
    remaining text and the first terminator after that marker, the scan
    goes on in the text behind that terminator until no marker (or no
    terminator behind a marker) is left, and the URLs keep their order
    of appearance.  The body scans to exactly one list. *)
Theorem batched_parser_scans (env : Env) (ids : list string)
    (resp : Response) :
  postRPC env ("[[" +:+ Strings.Join (imap envelope ids) "," +:+ "]]")
    = inr resp →
  StatusCode resp = 200%Z →
  ReadErr resp = None →
  ∃ urls,
    fetchDecodedBatchExecuteMultiple env ids
      = Some (mkBatchDecodeResult true urls "", None)
    ∧ ScansTo (Body resp) urls
    ∧ (∀ urls', ScansTo (Body resp) urls' → urls' = urls)
    ∧ (∀ u rest, urls = u :: rest →
         ∃ pre text',
           Body resp = pre +:+ header +:+ u +:+ footer +:+ text' ∧
           Strings.Index (Body resp) header = Some (Strings.len pre) ∧
           Strings.Index (u +:+ footer +:+ text') footer
             = Some (Strings.len u) ∧
           ScansTo text' rest).
Proof.
  intros Hpost Hcode Hread.
  destruct (scanURLs_ScansTo (Body resp) []) as (urls & Hloop & Hscan).
  exists urls. split; [|split; [done|split]].
  - unfold fetchDecodedBatchExecuteMultiple, io_ReadAll.
    rewrite Hpost, Hcode, Hread. cbn [negb Z.eqb Pos.eqb].
    rewrite Hloop. done.
  - intros urls' Hscan'. by eapply ScansTo_functional.
  - intros u rest ->. by apply ScansTo_cons_inv.
Qed.

Lemma batched_parser_scans_witness :
  ∃ urls,
    fetchDecodedBatchExecuteMultiple
      (Sample.serving ("x" +:+ header +:+ "http://a" +:+ footer +:+ "y" +:+
                       header +:+ "http://b" +:+ footer +:+ header)) ["id"]
      = Some (mkBatchDecodeResult true urls "", None)
    ∧ ScansTo ("x" +:+ header +:+ "http://a" +:+ footer +:+ "y" +:+
               header +:+ "http://b" +:+ footer +:+ header) urls.
Proof.
  destruct (batched_parser_scans
              (Sample.serving ("x" +:+ header +:+ "http://a" +:+ footer +:+
                               "y" +:+ header +:+ "http://b" +:+ footer +:+
                               header))
              ["id"]
              (mkResponse 200
                 ("x" +:+ header +:+ "http://a" +:+ footer +:+ "y" +:+
                  header +:+ "http://b" +:+ footer +:+ header) None))
    as (urls & Hfetch & Hscan & _); [reflexivity..|].
  exists urls. split; [exact Hfetch|exact Hscan].
Defined.

(** ** Splitting a path *)

Lemma fields_nonempty (sep : ascii) (s : string) : fields sep s ≠ [].
Proof.
  destruct s as [|c s]; simpl; [done|].
  destruct (Ascii.eqb c sep); [done|]. by destruct (fields sep s).
Qed.

Lemma fields_cons (sep c : ascii) (s : string) :
  fields sep (String c s)
  = if Ascii.eqb c sep then "" :: fields sep s
    else onHead (String c "") (fields sep s).
Proof.
  simpl. destruct (Ascii.eqb c sep); [done|].
  pose proof (fields_nonempty sep s). by destruct (fields sep s).
Qed.

Lemma onHead_onHead (p q : string) (pieces : list string) :
  pieces ≠ [] → onHead p (onHead q pieces) = onHead (p +:+ q) pieces.
Proof. destruct pieces; [done|]. intros _. simpl. by rewrite str_app_assoc. Qed.

Lemma get_app_here (p : string) (c : ascii) (t : string) :
  String.get (Strings.len p) (p +:+ String c t) = Some c.
Proof. induction p as [|a p IH]; simpl; done. Qed.

Lemma get_drop (k n : nat) (s : string) :
  String.get n (Strings.drop k s) = String.get (k + n) s.
Proof.
  revert s; induction k as [|k IH]; intros [|c s]; simpl; done.
Qed.

Lemma take_succ (n : nat) (s : string) (c : ascii) :
  String.get n s = Some c →
  Strings.take (S n) s = Strings.take n s +:+ String c "".
Proof.
  revert s; induction n as [|n IH]; intros [|a s]; simpl; try done.
  - by intros [= ->].
  - intros H. by rewrite <- IH.
Qed.

Section SplitString.
Variables (s sep : string) (c0 : ascii).
Hypothesis Hsep : Strings.index sep 0 = Some c0.

(** The loop body and the statements after the loop, as in
    [splitString]. *)
Let body : list string * nat → nat → nat → option (list string * nat) :=
  λ '(result, start) _ i,
    c ← Strings.index s i;
    c0 ← Strings.index sep 0;
    if Ascii.eqb c c0 then
      piece ← Strings.slice s start i;
      Some (result ++ [piece], S i)
    else Some (result, start).

Let finish : list string * nat → option (list string) :=
  λ '(result, start),
    piece ← Strings.slice s start (Strings.len s);
    Some (result ++ [piece]).

(** Invariant: with [s = p +:+ t] and the loop at offset [len p], what
    is still to come is the pieces of [t], the first of them glued to
    [s[start:len p]]. *)
Lemma splitString_loop (t : string) :
  ∀ p result start j,
    s = p +:+ t → (start ≤ Strings.len p)%nat →
    rangeLoop body j (seq (Strings.len p) (Strings.len t)) (result, start)
      ≫= finish
    = Some (result ++
            onHead (Strings.take (Strings.len p - start) (Strings.drop start s))
                   (fields c0 t)).
Proof using Hsep.
  induction t as [|c t IH]; intros p result start j Hs Hstart.
  - cbn [String.length seq rangeLoop mbind option_bind fields onHead].
    unfold finish. rewrite str_app_nil_r in Hs. subst p.
    rewrite slice_in_range by lia. by rewrite str_app_nil_r.
  - cbn [String.length seq rangeLoop].
    assert (Hget : Strings.index s (Strings.len p) = Some c).
    { subst s. apply get_app_here. }
    assert (Hs' : s = (p +:+ String c "") +:+ t).
    { by rewrite str_app_assoc. }
    assert (Hlen' : Strings.len (p +:+ String c "") = S (Strings.len p)).
    { rewrite len_app. simpl. lia. }
    assert (Hlens : (Strings.len p < Strings.len s)%nat).
    { rewrite Hs, len_app. simpl. lia. }
    assert (Hbody : body (result, start) j (Strings.len p)
                    = if Ascii.eqb c c0
                      then piece ← Strings.slice s start (Strings.len p);
                           Some (result ++ [piece], S (Strings.len p))
                      else Some (result, start)).
    { unfold body. by rewrite Hget, Hsep. }
    rewrite Hbody. clear Hbody.
    rewrite fields_cons. destruct (Ascii.eqb c c0).
    + rewrite slice_in_range by lia. cbn [mbind option_bind].
      specialize (IH (p +:+ String c "") (result ++ [Strings.take
        (Strings.len p - start) (Strings.drop start s)]) (S (Strings.len p))
        (S j) Hs' ltac:(lia)).
      rewrite Hlen' in IH. rewrite IH.
      replace (S (Strings.len p) - S (Strings.len p))%nat with 0%nat by lia.
      cbn [Strings.take]. pose proof (fields_nonempty c0 t).
      destruct (fields c0 t) as [|f fs]; [done|].
      cbn [onHead String.append]. rewrite <- app_assoc.
      by rewrite str_app_nil_r.
    + cbn [mbind option_bind].
      specialize (IH (p +:+ String c "") result start (S j) Hs' ltac:(lia)).
      rewrite Hlen' in IH. rewrite IH.
      rewrite onHead_onHead by apply fields_nonempty.
      do 3 f_equal.
      replace (S (Strings.len p) - start)%nat
        with (S (Strings.len p - start)) by lia.
      apply take_succ. rewrite get_drop.
      by replace (start + (Strings.len p - start))%nat
        with (Strings.len p) by lia.
Qed.

Lemma splitString_is_fields : splitString s sep = Some (fields c0 s).
Proof using Hsep.
  pose proof (splitString_loop s "" [] 0%nat 0%nat eq_refl ltac:(simpl; lia))
    as Hloop.
  cbn [String.length Nat.sub Strings.take Strings.drop app] in Hloop.
  unfold splitString.
  pose proof (fields_nonempty c0 s).
  destruct (fields c0 s) as [|f fs] eqn:Hf; [done|].
  cbn [onHead String.append] in Hloop. rewrite <- Hloop.
  unfold body, finish. done.
Qed.

End SplitString.

Lemma splitPath_is_segments (path : string) :
  splitPath path = Some (segments path).
Proof.
  unfold splitPath, segments.
  by rewrite (splitString_is_fields path "/" "/"%char eq_refl).
Qed.

Lemma Index_slash_cons (a : ascii) (s : string) :
  Strings.Index (String a s) "/"
  = if Ascii.eqb a "/"%char then Some 0%nat
    else option_map S (Strings.Index s "/").
Proof.
  cbn [Strings.Index]. unfold Strings.HasPrefix at 1.
  cbn [String.length Nat.leb Strings.take andb String.eqb].
  destruct (Ascii.eqb a "/"); [|done]. by destruct s.
Qed.

Lemma fields_Index (s : string) :
  match Strings.Index s "/" with
  | None => fields "/"%char s = [s]
  | Some i =>
      fields "/"%char s
      = Strings.take i s :: fields "/"%char (Strings.drop (i + 1) s)
  end.
Proof.
  induction s as [|a s IH]; [done|].
  rewrite Index_slash_cons, fields_cons.
  destruct (Ascii.eqb a "/"); [done|].
  destruct (Strings.Index s "/") as [i|]; cbn [option_map]; by rewrite IH.
Qed.

Lemma Split_rounds_is_fields (rounds : nat) :
  ∀ s, (Strings.len s ≤ rounds)%nat →
       Strings.Split_rounds rounds s "/" = fields "/"%char s.
Proof.
  induction rounds as [|r IH]; intros s Hlen.
  - destruct s; [done|simpl in Hlen; lia].
  - cbn [Strings.Split_rounds]. pose proof (fields_Index s) as Hf.
    destruct (Strings.Index s "/") as [i|]; [|done].
    rewrite Hf. f_equal. apply IH. rewrite drop_len. simpl. lia.
Qed.

Lemma Split_is_fields (s : string) :
  Strings.Split s "/" = fields "/"%char s.
Proof. by apply Split_rounds_is_fields. Qed.

(** ** Token extraction *)

Lemma tokenOf_inv (pieces : list string) (tok pathType : string) :
  pieces !! (length pieces - 2)%nat = Some pathType →
  tokenOf pieces tok →
  (pathType = "articles" ∨ pathType = "read") ∧
  pieces !! (length pieces - 1)%nat = Some tok.
Proof. intros Hpt (_ & [H|H] & Hlast); rewrite Hpt in H; naive_solver. Qed.

(** What the statements after the split decide, for the pieces [path]
    and the host test [hostOk], in the form they have in
    [extractBase64Str]. *)
Lemma path_test (A : Type) (path : list string) (hostOk : bool) (bad : A) :
  let code :=
    if negb hostOk || (length path <=? 1)%nat then Some (inl bad)
    else
      pathType ← path !! (length path - 2)%nat;
      if negb (String.eqb pathType "articles") &&
         negb (String.eqb pathType "read")
      then Some (inl bad)
      else inr <$> path !! (length path - 1)%nat in
  (∀ tok, code = Some (inr tok) ↔ hostOk = true ∧ tokenOf path tok) ∧
  (code = Some (inl bad) ∨ ∃ tok, code = Some (inr tok)).
Proof.
  intros code. subst code. destruct hostOk; cbn [negb orb].
  2: { split; [|by left]. intros tok. split; [done|]. by intros [? _]. }
  destruct (Nat.leb_spec (length path) 1) as [Hshort|Hlong].
  { split; [|by left]. intros tok. split; [done|].
    intros [_ (Hlen & _)]. lia. }
  destruct (lookup_lt_is_Some_2 path (length path - 2)) as [pathType Hpt];
    [lia|].
  destruct (lookup_lt_is_Some_2 path (length path - 1)) as [tok0 Htok];
    [lia|].
  rewrite Hpt. cbn [mbind option_bind].
  destruct (String.eqb_spec pathType "articles") as [Ha|Ha];
    [|destruct (String.eqb_spec pathType "read") as [Hr|Hr]];
    cbn [negb andb]; rewrite ?Htok; cbn [fmap option_fmap option_map].
  - split; [|right; by eexists]. intros tok. split.
    + intros [= <-]. split; [done|]. subst. repeat split; [lia|by left|done].
    + intros [_ Htok']. apply (tokenOf_inv _ _ _ Hpt) in Htok' as [_ H].
      congruence.
  - split; [|right; by eexists]. intros tok. split.
    + intros [= <-]. split; [done|]. subst. repeat split; [lia|by right|done].
    + intros [_ Htok']. apply (tokenOf_inv _ _ _ Hpt) in Htok' as [_ H].
      congruence.
  - split; [|by left]. intros tok. split; [done|].
    intros [_ Htok']. apply (tokenOf_inv _ _ _ Hpt) in Htok' as [[?|?] _];
      done.
Qed.

Lemma extractBase64Str_spec (env : Env) (sourceURL : string) :
  (∀ tok, extractBase64Str env sourceURL = Some (inr tok)
          ↔ extractsFrom (fields "/"%char) env sourceURL tok) ∧
  ((∃ m, extractBase64Str env sourceURL = Some (inl (failed m)) ∧ m ≠ "") ∨
   ∃ tok, extractBase64Str env sourceURL = Some (inr tok)).
Proof.
  unfold extractBase64Str, extractsFrom.
  destruct (url_Parse env sourceURL) as [err|parsedURL].
  { split; [|left; by eexists]. intros tok. split; [done|].
    by intros (? & [=] & _). }
  rewrite Split_is_fields.
  pose proof (path_test DecodeResult (fields "/"%char (Path parsedURL))
                (String.eqb (Host parsedURL) "news.google.com")
                (failed "invalid Google News URL format")) as [Hiff Hcases].
  cbv zeta in Hiff, Hcases. split.
  - intros tok. rewrite Hiff. rewrite String.eqb_eq. split.
    + intros [? ?]. by exists parsedURL.
    + by intros (? & [= <-] & ? & ?).
  - destruct Hcases as [->|[tok ->]]; [left|right]; by eexists.
Qed.

Lemma GetBase64Str_spec (env : Env) (sourceURL : string) :
  (∀ tok, GetBase64Str env sourceURL = Some (resolved tok)
          ↔ extractsFrom segments env sourceURL tok) ∧
  ((∃ m, GetBase64Str env sourceURL = Some (failed m) ∧ m ≠ "") ∨
   ∃ tok, GetBase64Str env sourceURL = Some (resolved tok) ∧ tok ≠ "").
Proof.
  unfold GetBase64Str, extractsFrom.
  destruct (url_Parse env sourceURL) as [err|parsedURL].
  { split; [|left; by eexists]. intros tok. split; [done|].
    by intros (? & [=] & _). }
  rewrite splitPath_is_segments. cbn [mbind option_bind].
  set (path := segments (Path parsedURL)).
  pose proof (path_test DecodeResult path
                (String.eqb (Host parsedURL) "news.google.com")
                (failed "invalid Google News URL format")) as [Hiff Hcases].
  cbv zeta in Hiff, Hcases.
  set (code := if _ : bool then _ else _) in Hiff, Hcases.
  assert (Hcode :
    (if negb (String.eqb (Host parsedURL) "news.google.com")
        || (length path <=? 1)%nat
     then Some (failed "invalid Google News URL format")
     else
       pathType ← path !! (length path - 2)%nat;
       if negb (String.eqb pathType "articles") &&
          negb (String.eqb pathType "read")
       then Some (failed "invalid Google News URL format")
       else resolved <$> path !! (length path - 1)%nat)
    = (λ r, match r with inl b => b | inr tok => resolved tok end) <$> code).
  { subst code. destruct (_ || _); [done|].
    destruct (path !! (length path - 2)%nat) as [pathType|]; [|done].
    cbn [mbind option_bind]. destruct (_ && _); [done|].
    by destruct (path !! (length path - 1)%nat). }
  rewrite Hcode. split.
  - intros tok. transitivity (code = Some (inr tok)).
    + destruct Hcases as [->|[tok' ->]]; cbn; split; try done.
      * by intros [= ->].
      * by intros [= ->].
    + rewrite Hiff, String.eqb_eq. split.
      * intros [? ?]. by exists parsedURL.
      * by intros (? & [= <-] & ? & ?).
  - destruct Hcases as [->|[tok Htok]]; [left; by eexists|right].
    exists tok. rewrite Htok. split; [done|].
    apply Hiff in Htok as [_ (_ & _ & Hlast)].
    apply list_elem_of_lookup_2 in Hlast. unfold path, segments in Hlast.
    by apply list_elem_of_filter in Hlast as [? _].
Qed.

(** C4 (amended). [GetBase64Str] succeeds with the last segment as the
    token exactly when the URL parses, its host is [news.google.com]
    and the non-empty segments of its path are at least two with
    [articles] or [read] before the last; on every other input it
    fails.  The extraction step of [newDecoderV1WithClient] makes the
    same test on the pieces of the path between slashes with the empty
    pieces kept, and its token is the last piece; when it fails,
    [newDecoderV1WithClient] returns that failure. *)
Theorem token_extraction (env : Env) (sourceURL : string) :
  (∀ tok, GetBase64Str env sourceURL = Some (resolved tok)
          ↔ extractsFrom segments env sourceURL tok) ∧
  ((∃ m, GetBase64Str env sourceURL = Some (failed m)) ∨
   (∃ tok, GetBase64Str env sourceURL = Some (resolved tok))) ∧
  (∀ tok, extractBase64Str env sourceURL = Some (inr tok)
          ↔ extractsFrom (fields "/"%char) env sourceURL tok) ∧
  ((∃ m, extractBase64Str env sourceURL = Some (inl (failed m)) ∧
         newDecoderV1WithClient env sourceURL = Some (failed m)) ∨
   (∃ tok, extractBase64Str env sourceURL = Some (inr tok))).
Proof.
  destruct (GetBase64Str_spec env sourceURL) as [Hget Hgetcases].
  destruct (extractBase64Str_spec env sourceURL) as [Hext Hextcases].
  repeat split; try apply Hget; try apply Hext.
  - destruct Hgetcases as [(m & ? & _)|(tok & ? & _)]; [left|right];
      by eexists.
  - destruct Hextcases as [(m & Hm & _)|(tok & ?)]; [left|right];
      [|by eexists].
    exists m. split; [done|]. unfold newDecoderV1WithClient. by rewrite Hm.
Qed.

(** C4, as stated, fails for the pipelines.  With a slash after the
    token the stated test passes and [GetBase64Str] returns the token,
    but the extraction step of [newDecoderV1WithClient] rejects the URL;
    with nothing after [articles/] the stated test fails, but that
    extraction step succeeds, with the empty token. *)
Lemma pipeline_extraction_keeps_empty_pieces :
  extractsFrom segments Sample.offline
    "https://news.google.com/articles/CBMi/" "CBMi"
  ∧ GetBase64Str Sample.offline "https://news.google.com/articles/CBMi/"
    = Some (resolved "CBMi")
  ∧ newDecoderV1WithClient Sample.offline
      "https://news.google.com/articles/CBMi/"
    = Some (failed "invalid Google News URL format")
  ∧ ¬ (∃ tok, extractsFrom segments Sample.offline
                "https://news.google.com/articles/" tok)
  ∧ extractBase64Str Sample.offline "https://news.google.com/articles/"
    = Some (inr "").
Proof.
  repeat split; try by vm_compute.
  - exists (mkURL "news.google.com" "/articles/CBMi/").
    repeat split; try by vm_compute. by left.
  - intros (tok & parsedURL & Hparse & _ & Hlen & _).
    vm_compute in Hparse. injection Hparse as <-.
    vm_compute in Hlen. lia.
Qed.

(** ** The decoders never panic *)

Lemma pathType_bad_ok (path : list string) :
  pathType_bad path = negb <$> pathType_ok path.
Proof.
  unfold pathType_bad, pathType_ok.
  destruct (Nat.leb_spec (length path) 1), (Nat.ltb_spec 1 (length path));
    try lia; [done|].
  destruct (path !! (length path - 2)%nat); [|done].
  cbn. by rewrite negb_orb.
Qed.

Lemma pathType_ok_inv (path : list string) (b : bool) :
  pathType_ok path = Some b →
  b = true → is_Some (path !! (length path - 1)%nat).
Proof.
  unfold pathType_ok. destruct (Nat.ltb_spec 1 (length path)).
  - intros _ _. apply lookup_lt_is_Some_2. lia.
  - by intros [= <-].
Qed.

Lemma pathType_ok_total (path : list string) : is_Some (pathType_ok path).
Proof.
  unfold pathType_ok. destruct (Nat.ltb_spec 1 (length path)); [|by eexists].
  destruct (lookup_lt_is_Some_2 path (length path - 2)) as [? ->]; [lia|].
  by eexists.
Qed.

Lemma SplitN2_first (s sep : string) : is_Some (Strings.SplitN2 s sep !! 0%nat).
Proof. unfold Strings.SplitN2. destruct (Strings.Index s sep); by eexists. Qed.

Lemma fetchDecodedBatchExecute_total (env : Env) (id : string) :
  is_Some (fetchDecodedBatchExecute env id).
Proof.
  unfold fetchDecodedBatchExecute.
  destruct (postRPC env _) as [err|resp]; [by eexists|].
  destruct (negb _); [by eexists|].
  destruct (io_ReadAll resp) as [text [err|]]; [by eexists|].
  destruct (negb _); [by eexists|].
  destruct (Nat.ltb_spec (length (Strings.SplitN2 text header)) 2);
    [by eexists|].
  destruct (lookup_lt_is_Some_2 (Strings.SplitN2 text header) 1)
    as [start ->]; [lia|].
  cbn [mbind option_bind]. destruct (negb _); [by eexists|].
  destruct (SplitN2_first start footer) as [u ->]. by eexists.
Qed.

(** The first loop's view of a URL is defined, and [DecoderV3] returns
    it, or the answer of the single-reference call for the token. *)
Lemma individual_total (env : Env) (sourceURL : string) :
  is_Some (individual env sourceURL).
Proof.
  unfold individual. destruct (url_Parse env sourceURL) as [err|parsedURL];
    [by eexists|].
  set (path := Strings.Split (Path parsedURL) "/").
  rewrite pathType_bad_ok.
  destruct (pathType_ok_total path) as [ok Hok]. rewrite Hok.
  destruct (negb (String.eqb _ _)); cbn; [by eexists|].
  destruct ok; cbn; [|by eexists].
  destruct (pathType_ok_inv path true Hok eq_refl) as [tok ->]. cbn.
  destruct (decodeToken_total tok) as [[e|decodedStr] ->]; cbn;
    [by eexists|].
  destruct (Strings.HasPrefix _ _); by eexists.
Qed.

Lemma DecoderV3_individual (env : Env) (sourceURL : string) :
  DecoderV3 env sourceURL =
  match individual env sourceURL with
  | None => None
  | Some (inl r) => Some r
  | Some (inr base64Str) =>
      r ← fetchDecodedBatchExecute env base64Str;
      match r with
      | inl err => Some (failed ("batch execute failed: " +:+ err))
      | inr decoded => Some (resolved decoded)
      end
  end.
Proof.
  unfold DecoderV3, individual.
  destruct (url_Parse env sourceURL) as [err|parsedURL]; [done|].
  set (path := Strings.Split (Path parsedURL) "/").
  rewrite pathType_bad_ok.
  destruct (pathType_ok_total path) as [ok Hok]. rewrite Hok.
  destruct (String.eqb _ _); cbn; [|done].
  destruct ok; cbn; [|done].
  destruct (path !! (length path - 1)%nat) as [tok|]; cbn; [|done].
  destruct (decodeToken tok) as [[e|decodedStr]|]; cbn; try done.
  by destruct (Strings.HasPrefix _ _).
Qed.

Ltac is_failed := right; eexists; split; [reflexivity|done].
Ltac is_resolved := left; eexists; reflexivity.



Ltac returns_informative :=
  eexists; split; [reflexivity | first [is_failed | is_resolved]].

Ltac guarded_lookup l i x :=
  let H := fresh in
  destruct (lookup_lt_is_Some_2 l i) as [x H]; [lia|];
  rewrite H; clear H; cbn [mbind option_bind].

Lemma decodeURLWithParams_total (env : Env) (signature timestamp tok : string) :
  ∃ r, decodeURLWithParams env signature timestamp tok = Some r ∧
       informative r.
Proof.
  unfold decodeURLWithParams.
  destruct (json_Marshal env _) as [err|payloadJSON]; [returns_informative|].
  destruct (http_NewRequest env _ _ _) as [err|req]; [returns_informative|].
  destruct (client_Do env _) as [err|resp]; [returns_informative|].
  destruct (io_ReadAll resp) as [body [err|]]; [returns_informative|].
  destruct (Nat.ltb_spec (length (Strings.SplitN2 body nl2)) 2);
    [returns_informative|].
  guarded_lookup (Strings.SplitN2 body nl2) 1%nat part1.
  destruct (json_Unmarshal env part1) as [err|parsed]; [returns_informative|].
  destruct (Nat.ltb_spec (length parsed) 1); [returns_informative|].
  guarded_lookup parsed 0%nat outer.
  destruct outer as [| | | |outerArr|]; try returns_informative.
  destruct (Nat.ltb_spec (length outerArr) 3); [returns_informative|].
  guarded_lookup outerArr 2%nat third.
  destruct third as [| | |innerJSON| |]; try returns_informative.
  destruct (json_Unmarshal env innerJSON) as [err|innerData];
    [returns_informative|].
  destruct (Nat.ltb_spec (length innerData) 2); [returns_informative|].
  guarded_lookup innerData 1%nat second.
  destruct second; returns_informative.
Qed.

Lemma getDecodingParams_message (env : Env) (tok : string) :
  ParamsStatus (getDecodingParams env tok) = false →
  ParamsMessage (getDecodingParams env tok) ≠ "".
Proof.
  unfold getDecodingParams.
  destruct (http_NewRequest env "GET" _ None) as [err|req]; [by cbn|].
  destruct (match client_Do env _ with inl _ => None | inr _ => _ end)
    as [params|] eqn:Hfirst.
  { destruct (client_Do env _) as [|resp]; [done|].
    destruct (StatusCode resp =? 200)%Z; [|done].
    destruct (io_ReadAll resp) as [body ?].
    destruct (extractDataAttributes body) as [|[sig ts]]; [done|].
    by injection Hfirst as <-. }
  clear Hfirst.
  destruct (http_NewRequest env "GET" _ None) as [err|req']; [by cbn|].
  destruct (client_Do env _) as [err|resp]; [by cbn|].
  destruct (negb _); [by cbn|].
  destruct (io_ReadAll resp) as [body [err|]]; [by cbn|].
  by destruct (extractDataAttributes body) as [|[sig ts]]; cbn.
Qed.

Lemma newDecoderV1WithClient_total (env : Env) (sourceURL : string) :
  ∃ r, newDecoderV1WithClient env sourceURL = Some r ∧ informative r.
Proof.
  unfold newDecoderV1WithClient.
  destruct (extractBase64Str_spec env sourceURL)
    as [_ [(m & -> & Hm)|(tok & ->)]]; cbn [mbind option_bind].
  { eexists. split; [done|]. right. by exists m. }
  pose proof (getDecodingParams_message env tok) as Hmsg.
  destruct (ParamsStatus (getDecodingParams env tok)); cbn [negb].
  - apply decodeURLWithParams_total.
  - eexists. split; [done|]. right. eexists. split; [done|]. by apply Hmsg.
Qed.


(** ** Loops that store into [results] *)

Lemma rangeLoop_ext {St A : Type} (body1 body2 : St → nat → A → option St)
    (xs : list A) :
  ∀ i st,
    (∀ st j x, xs !! j = Some x → body1 st (i + j)%nat x = body2 st (i + j)%nat x) →
    rangeLoop body1 i xs st = rangeLoop body2 i xs st.
Proof.
  induction xs as [|x xs IH]; intros i st Hext; [done|].
  cbn [rangeLoop]. pose proof (Hext st 0%nat x eq_refl) as H0.
  rewrite Nat.add_0_r in H0. rewrite H0.
  destruct (body2 st i x) as [st'|]; [|done]. cbn [mbind option_bind].
  apply IH. intros st'' j y Hy.
  replace (S i + j)%nat with (i + S j)%nat by lia. by apply Hext.
Qed.

Lemma store_in_range (rs : list DecodeResult) (i : nat) (r : DecodeResult) :
  (i < length rs)%nat → store rs i r = Some (<[i := r]> rs).
Proof. intros. unfold store. by destruct (Nat.ltb_spec i (length rs)); [|lia]. Qed.

(** A loop whose iteration [j] on [x] stores [r] at [idx] when
    [target j x = Some (idx, r)]: it ends, and every slot holds its last
    store, or what it held before when nothing was stored there. *)
Lemma storeLoop {A : Type} (target : nat → A → option (nat * DecodeResult))
    (xs : list A) :
  ∀ j0 rs0,
    (∀ j x idx r, xs !! j = Some x → target (j0 + j)%nat x = Some (idx, r) →
                  (idx < length rs0)%nat) →
    ∃ rs,
      rangeLoop (λ rs j x, match target j x with
                           | Some (idx, r) => store rs idx r
                           | None => Some rs
                           end) j0 xs rs0 = Some rs
      ∧ length rs = length rs0
      ∧ ∀ i,
          (rs !! i = rs0 !! i ∧
           ∀ j x r, xs !! j = Some x → target (j0 + j)%nat x ≠ Some (i, r))
          ∨ (∃ j x r,
               xs !! j = Some x ∧ target (j0 + j)%nat x = Some (i, r) ∧
               rs !! i = Some r ∧
               ∀ j' x' r', (j < j')%nat → xs !! j' = Some x' →
                           target (j0 + j')%nat x' ≠ Some (i, r')).
Proof.
  induction xs as [|x xs IH]; intros j0 rs0 Hrange.
  - exists rs0. repeat split. intros i. left. split; [done|]. by intros [].
  - cbn [rangeLoop].
    assert (∃ rs1, match target j0 x with
                   | Some (idx, r) => store rs0 idx r
                   | None => Some rs0
                   end = Some rs1
                   ∧ length rs1 = length rs0
                   ∧ ∀ i, match target j0 x with
                          | Some (idx, r) =>
                              if decide (i = idx) then rs1 !! i = Some r
                              else rs1 !! i = rs0 !! i
                          | None => rs1 !! i = rs0 !! i
                          end) as (rs1 & -> & Hlen1 & Hrs1).
    { destruct (target j0 x) as [[idx r]|] eqn:Ht.
      - assert (idx < length rs0)%nat.
        { apply (Hrange 0%nat x idx r eq_refl). by rewrite Nat.add_0_r. }
        exists (<[idx := r]> rs0). rewrite store_in_range by done.
        repeat split; [by rewrite length_insert|]. intros i.
        destruct (decide (i = idx)) as [->|Hne].
        + by apply list_lookup_insert_eq.
        + by apply list_lookup_insert_ne.
      - by exists rs0. }
    cbn [mbind option_bind].
    destruct (IH (S j0) rs1) as (rs & Hloop & Hlen & Hslots).
    { intros j y idx r Hy Ht. rewrite Hlen1.
      apply (Hrange (S j) y idx r Hy).
      by replace (j0 + S j)%nat with (S j0 + j)%nat by lia. }
    exists rs. split; [done|]. split; [lia|]. intros i.
    destruct (Hslots i) as [[Heq Hnone]|(j & y & r & Hy & Ht & Hr & Hlast)].
    + specialize (Hrs1 i).
      destruct (target j0 x) as [[idx r]|] eqn:Ht0.
      * destruct (decide (i = idx)) as [->|Hne].
        -- right. exists 0%nat, x, r. rewrite Nat.add_0_r.
           repeat split; [done|congruence|].
           intros [|j'] x' r' Hlt Hx'; [lia|].
           replace (j0 + S j')%nat with (S j0 + j')%nat by lia.
           by apply Hnone.
        -- left. split; [congruence|]. intros [|j'] x' r' Hx'.
           ++ rewrite Nat.add_0_r. injection Hx' as <-. congruence.
           ++ replace (j0 + S j')%nat with (S j0 + j')%nat by lia.
              by apply Hnone.
      * left. split; [congruence|]. intros [|j'] x' r' Hx'.
        -- rewrite Nat.add_0_r. injection Hx' as <-. congruence.
        -- replace (j0 + S j')%nat with (S j0 + j')%nat by lia.
           by apply Hnone.
    + right. exists (S j), y, r.
      replace (j0 + S j)%nat with (S j0 + j)%nat by lia.
      repeat split; [done..|].
      intros [|j'] x' r' Hlt Hx'; [lia|].
      replace (j0 + S j')%nat with (S j0 + j')%nat by lia.
      apply Hlast; [lia|done].
Qed.

(** ** The first loop of [DecoderV4] *)

Lemma classify_spec (env : Env) (st : BatchState) (i : nat) (u : string) :
  classify env st i u =
  match individual env u with
  | None => None
  | Some (inl r) =>
      rs ← store (results st) i r;
      Some (mkBatchState rs (batchIDs st) (idToIndex st))
  | Some (inr tok) =>
      Some (mkBatchState (results st) (batchIDs st ++ [tok])
                         (<[tok := i]> (idToIndex st)))
  end.
Proof.
  unfold classify, individual.
  destruct (url_Parse env u) as [err|parsedURL]; [done|].
  destruct (if negb _ then Some true else _) as [[|]|]; cbn; try done.
  destruct (_ !! _) as [tok|]; cbn; [|done].
  destruct (decodeToken tok) as [[e|decodedStr]|]; cbn; try done.
  by destruct (Strings.HasPrefix _ _).
Qed.

Lemma pendingTokens_snoc (env : Env) (seen : list string) (u : string) :
  pendingTokens env (seen ++ [u])
  = pendingTokens env seen ++
    match individual env u with Some (inr tok) => [tok] | _ => [] end.
Proof.
  unfold pendingTokens. rewrite omap_app. f_equal. cbn.
  by destruct (individual env u) as [[|]|].
Qed.

Lemma lastPending_snoc_other (env : Env) (seen : list string)
    (u tok : string) (idx : nat) :
  individual env u ≠ Some (inr tok) →
  lastPending env (seen ++ [u]) tok idx ↔ lastPending env seen tok idx.
Proof.
  intros Hne. unfold lastPending. split.
  - intros [(u' & Hu' & Hind) Hlast]. split.
    + exists u'. split; [|done].
      apply lookup_app_Some in Hu' as [?|[_ Hu']]; [done|].
      apply list_lookup_singleton_Some in Hu' as [_ <-]. done.
    + intros j u'' Hlt Hj. apply (Hlast j u'' Hlt).
      by apply lookup_app_l_Some.
  - intros [(u' & Hu' & Hind) Hlast]. split.
    + exists u'. split; [|done]. by apply lookup_app_l_Some.
    + intros j u'' Hlt Hj.
      apply lookup_app_Some in Hj as [?|[_ Hj]]; [by eapply Hlast|].
      apply list_lookup_singleton_Some in Hj as [_ <-]. done.
Qed.

Lemma lastPending_snoc_same (env : Env) (seen : list string)
    (u tok : string) (idx : nat) :
  individual env u = Some (inr tok) →
  lastPending env (seen ++ [u]) tok idx ↔ idx = length seen.
Proof.
  intros Hind. unfold lastPending. split.
  - intros [(u' & Hu' & _) Hlast].
    destruct (decide (idx = length seen)) as [|Hne]; [done|].
    apply lookup_app_Some in Hu' as [Hu'|[? Hu']].
    + apply lookup_lt_Some in Hu'.
      exfalso. apply (Hlast (length seen) u); [lia| |done].
      by rewrite lookup_app_r, Nat.sub_diag.
    + apply list_lookup_singleton_Some in Hu' as [? _]. lia.
  - intros ->. split.
    + exists u. split; [|done]. by rewrite lookup_app_r, Nat.sub_diag.
    + intros j u' Hlt Hj. apply lookup_lt_Some in Hj.
      rewrite length_app in Hj. simpl in Hj. lia.
Qed.

Lemma classified_init (env : Env) (n : nat) :
  classified env n [] (mkBatchState (replicate n zeroResult) [] ∅).
Proof.
  unfold classified. cbn [results batchIDs idToIndex length].
  split; [by rewrite length_replicate|]. split; [by intros i u [=]|].
  split; [intros i Hi; apply lookup_replicate_2; lia|]. split; [done|].
  intros tok idx. rewrite lookup_empty. split; [done|].
  by intros [(u & [=] & _) _].
Qed.

Lemma classified_step (env : Env) (n : nat) (seen : list string)
    (st : BatchState) (u : string) :
  classified env n seen st → (length seen < n)%nat →
  ∃ st', classify env st (length seen) u = Some st' ∧
         classified env n (seen ++ [u]) st'.
Proof.
  intros (Hlen & Hseen & Hrest & Hbatch & Hmap) Hlt.
  rewrite classify_spec.
  destruct (individual_total env u) as [[r|tok] Hind]; rewrite Hind.
  - rewrite store_in_range by lia. cbn [mbind option_bind].
    eexists. split; [done|]. unfold classified.
    cbn [results batchIDs idToIndex].
    split; [by rewrite length_insert|]. split; [|split; [|split]].
    + intros i u' Hu'. apply lookup_app_Some in Hu' as [Hu'|[? Hu']].
      * destruct (Hseen i u' Hu') as (v & Hv & Hslot). exists v.
        split; [done|]. apply lookup_lt_Some in Hu'.
        rewrite list_lookup_insert_ne by lia. done.
      * apply list_lookup_singleton_Some in Hu' as [? <-].
        assert (i = length seen) as -> by lia.
        exists (inl r). split; [done|].
        by rewrite list_lookup_insert_eq by lia.
    + intros i Hi. rewrite length_app in Hi. simpl in Hi.
      rewrite list_lookup_insert_ne by lia. apply Hrest. lia.
    + by rewrite pendingTokens_snoc, Hind, app_nil_r.
    + intros tok idx. rewrite lastPending_snoc_other by congruence.
      apply Hmap.
  - eexists. split; [done|]. unfold classified.
    cbn [results batchIDs idToIndex].
    split; [done|]. split; [|split; [|split]].
    + intros i u' Hu'. apply lookup_app_Some in Hu' as [Hu'|[? Hu']].
      * by apply Hseen.
      * apply list_lookup_singleton_Some in Hu' as [? <-].
        assert (i = length seen) as -> by lia.
        exists (inr tok). split; [done|]. apply Hrest. lia.
    + intros i Hi. rewrite length_app in Hi. simpl in Hi. apply Hrest. lia.
    + by rewrite pendingTokens_snoc, Hind, Hbatch.
    + intros tok' idx. destruct (decide (tok' = tok)) as [->|Hne].
      * rewrite lookup_insert_eq, lastPending_snoc_same by done.
        split; [by intros [= <-]|by intros ->].
      * rewrite lookup_insert_ne by done.
        rewrite lastPending_snoc_other by congruence. apply Hmap.
Qed.

Lemma classify_loop (env : Env) (n : nat) (todo : list string) :
  ∀ seen st,
    classified env n seen st → (length seen + length todo = n)%nat →
    ∃ st', rangeLoop (classify env) (length seen) todo st = Some st' ∧
           classified env n (seen ++ todo) st'.
Proof.
  induction todo as [|u todo IH]; intros seen st Hcl Hn.
  - exists st. by rewrite app_nil_r.
  - cbn [rangeLoop]. simpl in Hn.
    destruct (classified_step env n seen st u Hcl) as (st1 & -> & Hcl1);
      [lia|].
    cbn [mbind option_bind].
    destruct (IH (seen ++ [u]) st1 Hcl1) as (st' & Hloop & Hcl').
    { rewrite length_app. simpl. lia. }
    rewrite length_app in Hloop. simpl in Hloop.
    replace (length seen + 1)%nat with (S (length seen)) in Hloop by lia.
    exists st'. split; [done|]. by rewrite <- app_assoc in Hcl'.
Qed.

Lemma classifyAll_classified (env : Env) (sourceURLs : list string) :
  ∃ st, classifyAll env sourceURLs = Some st ∧
        classified env (length sourceURLs) sourceURLs st.
Proof.
  unfold classifyAll.
  apply (classify_loop env (length sourceURLs) sourceURLs []); [|done].
  apply classified_init.
Qed.

(** ** The second phase of [DecoderV4] *)

Lemma exists_lastPending (env : Env) (tok : string) (l : list string) :
  (∃ i u, l !! i = Some u ∧ individual env u = Some (inr tok)) →
  ∃ idx, lastPending env l tok idx.
Proof.
  induction l as [|x l IH] using rev_ind; [by intros (i & u & [=] & _)|].
  intros (i & u & Hu & Hind).
  destruct (decide (individual env x = Some (inr tok))) as [Hx|Hx].
  - exists (length l). by apply lastPending_snoc_same.
  - destruct IH as [idx Hidx].
    + apply lookup_app_Some in Hu as [Hu|[_ Hu]]; [by exists i, u|].
      apply list_lookup_singleton_Some in Hu as [_ <-]. done.
    + exists idx. by apply lastPending_snoc_other.
Qed.

Lemma pendingTokens_elem (env : Env) (l : list string) (tok : string) :
  tok ∈ pendingTokens env l ↔
  ∃ i u, l !! i = Some u ∧ individual env u = Some (inr tok).
Proof.
  unfold pendingTokens. rewrite list_elem_of_omap. split.
  - intros (u & Hu & Hind). apply list_elem_of_lookup in Hu as [i Hi].
    exists i, u. split; [done|].
    destruct (individual env u) as [[|]|]; congruence.
  - intros (i & u & Hu & Hind). exists u. split.
    + by eapply list_elem_of_lookup_2.
    + by rewrite Hind.
Qed.

Section SecondPhase.
Context (env : Env) (sourceURLs : list string) (st : BatchState).
Hypothesis Hcl : classified env (length sourceURLs) sourceURLs st.

(** Where the slot of a token of the batch is. *)
Lemma pending_slot (j : nat) (id : string) :
  batchIDs st !! j = Some id →
  lastPending env sourceURLs id (indexOf (idToIndex st) id) ∧
  (indexOf (idToIndex st) id < length (results st))%nat.
Proof using Hcl.
  destruct Hcl as (Hlen & _ & _ & Hbatch & Hmap). intros Hj.
  assert (id ∈ pendingTokens env sourceURLs) as Hin.
  { rewrite <- Hbatch. by eapply list_elem_of_lookup_2. }
  apply pendingTokens_elem, exists_lastPending in Hin as [idx Hidx].
  pose proof Hidx as Hm. apply Hmap in Hm. unfold indexOf. rewrite Hm.
  split; [done|]. destruct Hidx as [(u & Hu & _) _].
  apply lookup_lt_Some in Hu. simpl. lia.
Qed.

Lemma lastPending_in_batch (tok : string) (idx : nat) :
  lastPending env sourceURLs tok idx →
  indexOf (idToIndex st) tok = idx ∧ ∃ j, batchIDs st !! j = Some tok.
Proof using Hcl.
  destruct Hcl as (_ & _ & _ & Hbatch & Hmap). intros Hlast.
  pose proof Hlast as Hm. apply Hmap in Hm. unfold indexOf. rewrite Hm.
  split; [done|]. apply list_elem_of_lookup. rewrite Hbatch.
  apply pendingTokens_elem. destruct Hlast as [(u & ? & ?) _].
  by exists idx, u.
Qed.

(** What a loop leaves in the slots when each of its stores goes to the
    slot of a token of the batch: the final results stay, a waiting slot
    that is the last of its token holds the last value stored for that
    token, any other waiting slot keeps the zero value. *)
Lemma batch_stores {A : Type}
    (target : nat → A → option (nat * DecodeResult)) (xs : list A) :
  (∀ j x idx r, xs !! j = Some x → target j x = Some (idx, r) →
     ∃ id, batchIDs st !! j = Some id ∧ idx = indexOf (idToIndex st) id) →
  ∃ rs,
    rangeLoop (λ rs j x, match target j x with
                         | Some (idx, r) => store rs idx r
                         | None => Some rs
                         end) 0 xs (results st) = Some rs
    ∧ length rs = length sourceURLs
    ∧ ∀ i u, sourceURLs !! i = Some u →
        match individual env u with
        | Some (inl r) => rs !! i = Some r
        | Some (inr tok) =>
            (rs !! i = Some zeroResult ∧
             ∀ j x r, xs !! j = Some x → target j x ≠ Some (i, r))
            ∨ (∃ j x r,
                 xs !! j = Some x ∧ target j x = Some (i, r) ∧
                 batchIDs st !! j = Some tok ∧
                 lastPending env sourceURLs tok i ∧
                 rs !! i = Some r ∧
                 ∀ j' x' r', (j < j')%nat → xs !! j' = Some x' →
                             target j' x' ≠ Some (i, r'))
        | None => False
        end.
Proof using Hcl.
  intros Htarget.
  destruct (storeLoop target xs 0 (results st)) as (rs & Hloop & Hlen & Hslots).
  { intros j x idx r Hx Ht. destruct (Htarget j x idx r Hx Ht) as (id & Hid & ->).
    by apply (pending_slot j id). }
  exists rs. split; [done|].
  destruct Hcl as (Hlenst & Hseen & _ & _ & _).
  split; [lia|]. intros i u Hu.
  destruct (Hseen i u Hu) as (v & Hv & Hslot). rewrite Hv.
  destruct (Hslots i) as [[Heq Hnone]|(j & x & r & Hx & Ht & Hr & Hlast)].
  - destruct v as [r|tok]; [congruence|]. left. split; [congruence|].
    intros j x r Hx. by apply (Hnone j x r).
  - destruct (Htarget j x i r Hx Ht) as (id & Hid & Hi).
    destruct (pending_slot j id Hid) as [Hlp _]. rewrite <- Hi in Hlp.
    destruct Hlp as [(u' & Hu' & Hind') Hafter].
    assert (u' = u) as -> by congruence.
    assert (v = inr id) as -> by congruence.
    right. exists j, x, r. repeat split; try done.
    by exists u.
Qed.

Lemma failPending_spec (err : error) :
  ∃ rs,
    failPending st err = Some rs
    ∧ length rs = length sourceURLs
    ∧ ∀ i u, sourceURLs !! i = Some u →
        match individual env u with
        | Some (inl r) => rs !! i = Some r
        | Some (inr tok) =>
            (lastPending env sourceURLs tok i →
             rs !! i = Some (failed ("batch execute failed: " +:+ err))) ∧
            (¬ lastPending env sourceURLs tok i →
             rs !! i = Some zeroResult) ∧
            (rs !! i = Some zeroResult ∨
             rs !! i = Some (failed ("batch execute failed: " +:+ err)))
        | None => False
        end.
Proof using Hcl.
  destruct (batch_stores
              (λ _ id, Some (indexOf (idToIndex st) id,
                             failed ("batch execute failed: " +:+ err)))
              (batchIDs st)) as (rs & Hloop & Hlen & Hslots).
  { intros j id idx r Hid [= <- <-]. by exists id. }
  exists rs. split; [exact Hloop|]. split; [done|].
  intros i u Hu. specialize (Hslots i u Hu).
  destruct (individual env u) as [[r|tok]|]; [done| |done].
  destruct Hslots as [[Hzero Hnone]|(j & id & r & Hid & [= Hidx <-] & _ & Hlp & Hr & _)].
  - split; [|split; [done|by left]]. intros Hlp.
    destruct (lastPending_in_batch tok i Hlp) as [Hidx [j Hj]].
    exfalso. eapply (Hnone j tok); [done|]. by rewrite Hidx.
  - split; [done|]. split; [by intros []|by right].
Qed.

Lemma fillPending_spec (urls : list string) :
  ∃ rs,
    fillPending st urls = Some rs
    ∧ length rs = length sourceURLs
    ∧ ∀ i u, sourceURLs !! i = Some u →
        match individual env u with
        | Some (inl r) => rs !! i = Some r
        | Some (inr tok) =>
            (rs !! i = Some zeroResult ∧
             (lastPending env sourceURLs tok i →
              ∀ j d, batchIDs st !! j = Some tok → urls !! j = Some d → False))
            ∨ (∃ j d,
                 batchIDs st !! j = Some tok ∧ urls !! j = Some d ∧
                 lastPending env sourceURLs tok i ∧
                 rs !! i = Some (resolved d) ∧
                 ∀ j' d', (j < j')%nat → batchIDs st !! j' = Some tok →
                          urls !! j' = Some d' → False)
        | None => False
        end.
Proof using Hcl.
  set (target := λ (j : nat) (d : string),
         if (j <? length (batchIDs st))%nat then
           match batchIDs st !! j with
           | Some id => Some (indexOf (idToIndex st) id, resolved d)
           | None => None
           end
         else None).
  destruct (batch_stores target urls) as (rs & Hloop & Hlen & Hslots).
  { intros j d idx r Hd. unfold target.
    destruct (_ <? _)%nat; [|done].
    destruct (batchIDs st !! j) as [id|]; [|done].
    intros [= <- <-]. by exists id. }
  assert (Htarget : ∀ j d tok,
            batchIDs st !! j = Some tok →
            target j d = Some (indexOf (idToIndex st) tok, resolved d)).
  { intros j d tok Hj. unfold target. rewrite Hj.
    apply lookup_lt_Some in Hj.
    by destruct (Nat.ltb_spec j (length (batchIDs st))); [|lia]. }
  exists rs. split.
  - unfold fillPending. rewrite <- Hloop. apply rangeLoop_ext.
    intros rs' j d _. cbn [Nat.add]. unfold target.
    destruct (Nat.ltb_spec j (length (batchIDs st))) as [Hj|]; [|done].
    by destruct (lookup_lt_is_Some_2 (batchIDs st) j Hj) as [id ->].
  - split; [done|]. intros i u Hu. specialize (Hslots i u Hu).
    destruct (individual env u) as [[r|tok]|]; [done| |done].
    destruct Hslots as [[Hzero Hnone]|(j & d & r & Hd & Ht & Hj & Hlp & Hr & Hafter)].
    + left. split; [done|]. intros Hlp j d Hj Hd.
      destruct (lastPending_in_batch tok i Hlp) as [Hidx _].
      apply (Hnone j d (resolved d) Hd). by rewrite (Htarget j d tok Hj), Hidx.
    + right. rewrite (Htarget j d tok Hj) in Ht. injection Ht as Hidx <-.
      exists j, d. do 4 (split; [done|]).
      intros j' d' Hlt Hj' Hd'. apply (Hafter j' d' (resolved d') Hlt Hd').
      by rewrite (Htarget j' d' tok Hj'), Hidx.
Qed.

End SecondPhase.

Lemma fetchDecodedBatchExecuteMultiple_total (env : Env) (ids : list string) :
  (∃ res err, fetchDecodedBatchExecuteMultiple env ids = Some (res, Some err))
  ∨ (∃ urls, fetchDecodedBatchExecuteMultiple env ids
             = Some (mkBatchDecodeResult true urls "", None)).
Proof.
  unfold fetchDecodedBatchExecuteMultiple.
  destruct (postRPC env _) as [err|resp]; [left; by eexists _, _|].
  destruct (negb _); [left; by eexists _, _|].
  destruct (io_ReadAll resp) as [text [err|]]; [left; by eexists _, _|].
  destruct (scanURLs_ScansTo text []) as (urls & -> & _).
  right. by exists urls.
Qed.

(** ** [DecoderV4] as a whole *)

Lemma DecoderV4_unfold (env : Env) (sourceURLs : list string) :
  ∃ st,
    classified env (length sourceURLs) sourceURLs st ∧
    batchIDs st = pendingTokens env sourceURLs ∧
    DecoderV4 env sourceURLs =
    if (0 <? length (pendingTokens env sourceURLs))%nat then
      match fetchDecodedBatchExecuteMultiple env
              (pendingTokens env sourceURLs) with
      | Some (_, Some err) => failPending st err
      | Some (batchResult, None) =>
          if BatchStatus batchResult
          then fillPending st (URLs batchResult)
          else Some (results st)
      | None => None
      end
    else Some (results st).
Proof.
  destruct (classifyAll_classified env sourceURLs) as (st & Hst & Hcl).
  exists st. split; [done|].
  pose proof Hcl as (_ & _ & _ & Hbatch & _). split; [done|].
  unfold DecoderV4. rewrite Hst. cbn [mbind option_bind]. rewrite Hbatch.
  destruct (_ <? _)%nat; [|done].
  by destruct (fetchDecodedBatchExecuteMultiple env _) as [[res [err|]]|].
Qed.

(** Without a waiting URL every slot holds a final result. *)
Lemma no_pending_results (env : Env) (sourceURLs : list string)
    (st : BatchState) :
  classified env (length sourceURLs) sourceURLs st →
  pendingTokens env sourceURLs = [] →
  ∀ i u, sourceURLs !! i = Some u →
    ∃ r, individual env u = Some (inl r) ∧ results st !! i = Some r.
Proof.
  intros (_ & Hseen & _) Hnone i u Hu.
  destruct (Hseen i u Hu) as ([r|tok] & Hv & Hslot); [by exists r|].
  assert (tok ∈ pendingTokens env sourceURLs) as Hin
    by (apply pendingTokens_elem; by exists i, u).
  rewrite Hnone in Hin. by apply elem_of_nil in Hin.
Qed.

Lemma length_zero_nil {A : Type} (l : list A) :
  (0 <? length l)%nat = false → l = [].
Proof. destruct l; [done|]. simpl. discriminate. Qed.

Lemma DecoderV4_failure (env : Env) (sourceURLs : list string)
    (batchResult : BatchDecodeResult) (err : error) :
  fetchDecodedBatchExecuteMultiple env (pendingTokens env sourceURLs)
    = Some (batchResult, Some err) →
  ∃ rs,
    DecoderV4 env sourceURLs = Some rs
    ∧ length rs = length sourceURLs
    ∧ ∀ i u, sourceURLs !! i = Some u →
        match individual env u with
        | Some (inl r) => rs !! i = Some r
        | Some (inr tok) =>
            (lastPending env sourceURLs tok i →
             rs !! i = Some (failed ("batch execute failed: " +:+ err))) ∧
            (¬ lastPending env sourceURLs tok i →
             rs !! i = Some zeroResult) ∧
            (rs !! i = Some zeroResult ∨
             rs !! i = Some (failed ("batch execute failed: " +:+ err)))
        | None => False
        end.
Proof.
  intros Hfetch.
  destruct (DecoderV4_unfold env sourceURLs) as (st & Hcl & Hbatch & ->).
  rewrite Hfetch.
  destruct (0 <? _)%nat eqn:Hany; [by apply failPending_spec|].
  apply length_zero_nil in Hany. exists (results st).
  split; [done|]. split; [apply Hcl|]. intros i u Hu.
  by destruct (no_pending_results env sourceURLs st Hcl Hany i u Hu)
    as (r & -> & ?).
Qed.

Lemma DecoderV4_success (env : Env) (sourceURLs urls : list string) :
  fetchDecodedBatchExecuteMultiple env (pendingTokens env sourceURLs)
    = Some (mkBatchDecodeResult true urls "", None) →
  ∃ rs,
    DecoderV4 env sourceURLs = Some rs
    ∧ length rs = length sourceURLs
    ∧ ∀ i u, sourceURLs !! i = Some u →
        match individual env u with
        | Some (inl r) => rs !! i = Some r
        | Some (inr tok) =>
            (rs !! i = Some zeroResult ∧
             (lastPending env sourceURLs tok i →
              ∀ j d, pendingTokens env sourceURLs !! j = Some tok →
                     urls !! j = Some d → False))
            ∨ (∃ j d,
                 pendingTokens env sourceURLs !! j = Some tok ∧
                 urls !! j = Some d ∧
                 lastPending env sourceURLs tok i ∧
                 rs !! i = Some (resolved d) ∧
                 ∀ j' d', (j < j')%nat →
                          pendingTokens env sourceURLs !! j' = Some tok →
                          urls !! j' = Some d' → False)
        | None => False
        end.
Proof.
  intros Hfetch.
  destruct (DecoderV4_unfold env sourceURLs) as (st & Hcl & Hbatch & ->).
  rewrite Hfetch. cbn [BatchStatus URLs]. rewrite <- Hbatch.
  destruct (0 <? _)%nat eqn:Hany; [by apply fillPending_spec|].
  apply length_zero_nil in Hany. exists (results st).
  split; [done|]. split; [apply Hcl|]. intros i u Hu. rewrite Hbatch in Hany.
  by destruct (no_pending_results env sourceURLs st Hcl Hany i u Hu)
    as (r & -> & ?).
Qed.

Lemma NoDup_lastPending (env : Env) (l : list string) (i : nat)
    (u tok : string) :
  NoDup (pendingTokens env l) →
  l !! i = Some u → individual env u = Some (inr tok) →
  lastPending env l tok i.
Proof.
  intros Hnd Hu Hind. split; [by exists u|].
  intros j u' Hlt Hj Hind'.
  rewrite <- (take_drop_middle l j u' Hj) in Hnd.
  unfold pendingTokens in Hnd. rewrite omap_app in Hnd. cbn in Hnd.
  rewrite Hind' in Hnd. apply NoDup_app in Hnd as (_ & Hdisj & _).
  apply (Hdisj tok); [|by left].
  apply pendingTokens_elem. exists i, u. split; [|done].
  by rewrite lookup_take_lt.
Qed.

Lemma batchFails_fetch (env : Env) (ids : list string) (err : error) :
  batchFails env ids err →
  fetchDecodedBatchExecuteMultiple env ids
  = Some (mkBatchDecodeResult false [] err, Some err).
Proof.
  unfold batchFails, batchRequest, fetchDecodedBatchExecuteMultiple, io_ReadAll.
  intros [->|(resp & -> & [[Hcode ->]|[Hcode Hread]])]; [done| |].
  - by destruct (Z.eqb_spec (StatusCode resp) 200).
  - by rewrite Hcode, Hread.
Qed.

(** C7 (amended). When the pending tokens are pairwise distinct and the
    one batched call fails, because the request cannot be built or
    sent, the status is not 200 or the body cannot be read, every
    pending index receives a [status=false] result whose message is
    that failure behind the words [batch execute failed: ], and every
    other index keeps the result it had without the network. *)
Theorem batch_failure_reaches_pending (env : Env) (sourceURLs : list string)
    (err : error) :
  NoDup (pendingTokens env sourceURLs) →
  batchFails env (pendingTokens env sourceURLs) err →
  ∃ rs,
    DecoderV4 env sourceURLs = Some rs
    ∧ length rs = length sourceURLs
    ∧ ∀ i u, sourceURLs !! i = Some u →
        match individual env u with
        | Some (inl r) => rs !! i = Some r
        | Some (inr _) =>
            rs !! i = Some (failed ("batch execute failed: " +:+ err))
        | None => False
        end.
Proof.
  intros Hnd Hfails. apply batchFails_fetch in Hfails.
  destruct (DecoderV4_failure env sourceURLs _ err Hfails)
    as (rs & Hrs & Hlen & Hslots).
  exists rs. split; [done|]. split; [done|]. intros i u Hu.
  specialize (Hslots i u Hu).
  destruct (individual env u) as [[r|tok]|] eqn:Hind; [done| |done].
  apply Hslots. by eapply NoDup_lastPending.
Qed.

Lemma batch_failure_reaches_pending_witness :
  ∃ rs,
    DecoderV4 Sample.offline
      ["https://news.google.com/articles/CBMiBkFVX3lxTNIBEA";
       "https://example.com/x"] = Some rs
    ∧ length rs = 2%nat
    ∧ ∀ i u,
        ["https://news.google.com/articles/CBMiBkFVX3lxTNIBEA";
         "https://example.com/x"] !! i = Some u →
        match individual Sample.offline u with
        | Some (inl r) => rs !! i = Some r
        | Some (inr _) =>
            rs !! i = Some (failed ("batch execute failed: " +:+
                                    "dial tcp: no route to host"))
        | None => False
        end.
Proof.
  apply (batch_failure_reaches_pending Sample.offline
           ["https://news.google.com/articles/CBMiBkFVX3lxTNIBEA";
            "https://example.com/x"] "dial tcp: no route to host").
  - vm_compute. apply NoDup_singleton.
  - left. reflexivity.
Defined.

(** C7, as stated, fails for a response-format error: on a response
    with status 200 whose body holds no marker the batched call reports
    success with no URL, and the pending index keeps the zero value,
    [status=false] with an empty message. *)
Lemma markerless_batch_response :
  let u := "https://news.google.com/articles/CBMiBkFVX3lxTNIBEA" in
  individual (Sample.serving "nothing") u = Some (inr "CBMiBkFVX3lxTNIBEA")
  ∧ NoDup (pendingTokens (Sample.serving "nothing") [u])
  ∧ Strings.Contains "nothing" header = false
  ∧ fetchDecodedBatchExecuteMultiple (Sample.serving "nothing")
      ["CBMiBkFVX3lxTNIBEA"]
    = Some (mkBatchDecodeResult true [] "", None)
  ∧ DecoderV4 (Sample.serving "nothing") [u]
    = Some [mkDecodeResult false "" ""].
Proof.
  repeat split; try by vm_compute. vm_compute. apply NoDup_singleton.
Qed.

(** C6. The code at two equal URLs whose token waits for the batched
    call, with a response that resolves the token at both positions:
    only the second index receives a URL, the first keeps the zero
    value. *)
Theorem duplicate_token_first_index_unfilled :
  let u := "https://news.google.com/articles/CBMiBkFVX3lxTNIBEA" in
  let body := header +:+ "http://a" +:+ footer +:+
              header +:+ "http://a" +:+ footer in
  individual (Sample.serving body) u = Some (inr "CBMiBkFVX3lxTNIBEA")
  ∧ fetchDecodedBatchExecuteMultiple (Sample.serving body)
      ["CBMiBkFVX3lxTNIBEA"; "CBMiBkFVX3lxTNIBEA"]
    = Some (mkBatchDecodeResult true ["http://a"; "http://a"] "", None)
  ∧ DecoderV4 (Sample.serving body) [u; u]
    = Some [mkDecodeResult false "" ""; resolved "http://a"].
Proof. repeat split; by vm_compute. Qed.

(** C3. The code misses the order-preservation law in [DecoderV4].  The
    same URL stands at the indices 0 and 2, its token waits for the
    batched call, and the response resolves the token at both positions
    of the batch: the results keep the length of the input and the URL
    decided without the network keeps its index, but the index 0 holds
    the zero value and only the index 2 the resolved URL, so that the
    result at index 0 is not the result of decoding the URL at
    index 0. *)
Theorem duplicate_url_two_results :
  let u := "https://news.google.com/read/CBMiBkFVX3lxTNIBEA" in
  let w := "https://news.google.com/articles/CBMiA2FiY9IBAA" in
  let body := header +:+ "http://a" +:+ footer +:+
              header +:+ "http://a" +:+ footer in
  ∃ rs,
    DecoderV4 (Sample.serving body) [u; w; u] = Some rs
    ∧ rs = [mkDecodeResult false "" "";
            resolved (String "003"%char "abc");
            resolved "http://a"]
    ∧ pendingTokens (Sample.serving body) [u; w; u]
      = ["CBMiBkFVX3lxTNIBEA"; "CBMiBkFVX3lxTNIBEA"]
    ∧ fetchDecodedBatchExecuteMultiple (Sample.serving body)
        ["CBMiBkFVX3lxTNIBEA"; "CBMiBkFVX3lxTNIBEA"]
      = Some (mkBatchDecodeResult true ["http://a"; "http://a"] "", None)
    ∧ [u; w; u] !! 0%nat = [u; w; u] !! 2%nat
    ∧ rs !! 0%nat ≠ rs !! 2%nat.
Proof.
  intros u w body. eexists. split; [by vm_compute|].
  repeat split; by vm_compute.
Qed.

(** Every slot of [DecoderV4]'s result, by what the first loop found
    for its URL. *)
Lemma DecoderV4_slots (env : Env) (sourceURLs : list string) :
  ∃ rs,
    DecoderV4 env sourceURLs = Some rs
    ∧ length rs = length sourceURLs
    ∧ ∀ i u, sourceURLs !! i = Some u →
        match individual env u with
        | Some (inl r) => rs !! i = Some r
        | Some (inr tok) =>
            rs !! i = Some zeroResult
            ∨ (∃ err,
                 batchFails env (pendingTokens env sourceURLs) err ∧
                 rs !! i = Some (failed ("batch execute failed: " +:+ err)))
            ∨ (∃ urls j d,
                 fetchDecodedBatchExecuteMultiple env
                   (pendingTokens env sourceURLs)
                 = Some (mkBatchDecodeResult true urls "", None) ∧
                 pendingTokens env sourceURLs !! j = Some tok ∧
                 urls !! j = Some d ∧
                 rs !! i = Some (resolved d))
        | None => False
        end.
Proof.
  assert (Hkinds : (∃ err, batchFails env (pendingTokens env sourceURLs) err)
                   ∨ ∃ urls, fetchDecodedBatchExecuteMultiple env
                               (pendingTokens env sourceURLs)
                             = Some (mkBatchDecodeResult true urls "", None)).
  { unfold batchFails, batchRequest, fetchDecodedBatchExecuteMultiple,
      io_ReadAll.
    destruct (postRPC env _) as [err|resp]; [left; exists err; by left|].
    destruct (Z.eqb_spec (StatusCode resp) 200) as [Hcode|Hcode]; cbn [negb].
    - destruct (ReadErr resp) as [err|] eqn:Hread.
      + left. exists err. right. exists resp. split; [done|]. by right.
      + destruct (scanURLs_ScansTo (Body resp) []) as (urls & -> & _).
        right. by exists urls.
    - left. eexists. right. exists resp. split; [done|]. by left. }
  destruct Hkinds as [[err Hfails]|[urls Hfetch]].
  - destruct (DecoderV4_failure env sourceURLs _ err
                (batchFails_fetch _ _ _ Hfails)) as (rs & Hrs & Hlen & Hslots).
    exists rs. split; [done|]. split; [done|]. intros i u Hu.
    specialize (Hslots i u Hu).
    destruct (individual env u) as [[r|tok]|]; [done| |done].
    destruct Hslots as (_ & _ & [?|?]); [by left|].
    right. left. by exists err.
  - destruct (DecoderV4_success env sourceURLs urls Hfetch)
      as (rs & Hrs & Hlen & Hslots).
    exists rs. split; [done|]. split; [done|]. intros i u Hu.
    specialize (Hslots i u Hu).
    destruct (individual env u) as [[r|tok]|]; [done| |done].
    destruct Hslots as [[? _]|(j & d & ? & ? & _ & ? & _)]; [by left|].
    right. right. by exists urls, j, d.
Qed.



(** ** The fan-out: what every run maintains *)

#[local] Set Warnings "-clear-no-such-hyp".

Lemma entries_snoc (i : nat) (chan : list indexedResult) (ir : indexedResult) :
  entries i (chan ++ [ir])
  = entries i chan ++ (if decide (index ir = i) then [ir] else []).
Proof.
  unfold entries. by rewrite filter_app.
Qed.

Lemma entries_cons (i : nat) (chan : list indexedResult) (ir : indexedResult) :
  entries i (ir :: chan)
  = if decide (index ir = i) then ir :: entries i chan else entries i chan.
Proof. unfold entries. by rewrite filter_cons. Qed.

Lemma store_inv (rs rs' : list DecodeResult) (i : nat) (r : DecodeResult) :
  store rs i r = Some rs' → (i < length rs)%nat ∧ rs' = <[i := r]> rs.
Proof.
  unfold store. destruct (Nat.ltb_spec i (length rs)); [|done].
  by intros [= <-].
Qed.

Section FanOutInvariant.
Context (cd : ConcurrentDecoder) (v : Variant) (sourceURLs : list string).

Lemma fanOutInv_init :
  fanOutInv cd v sourceURLs [] (initialState v sourceURLs).
Proof.
  unfold fanOutInv, initialState. cbn [tasks collected ctxDone resultChan].
  rewrite !length_replicate. do 3 (split; [done|]).
  intros i. unfold slotInv. cbn [tasks collected resultChan].
  destruct (decide (i < length sourceURLs)%nat) as [Hi|Hi].
  - rewrite lookup_replicate_2 by done.
    split; [done|]. split; [|split; apply not_elem_of_nil].
    rewrite lookup_replicate_2 by done. by destruct v.
  - rewrite (proj1 (lookup_replicate_None _ _ _)) by lia. done.
Qed.

Lemma delivers_same (st st' : FanOut) (i : nat) (r : DecodeResult) :
  entries i (resultChan st') = entries i (resultChan st) →
  collected st' !! i = collected st !! i →
  delivers v st i r → delivers v st' i r.
Proof. unfold delivers. by intros -> ->. Qed.

(** A step that leaves the channel entries and the slot of [i] and the
    state of its goroutine as they are keeps what holds of [i], whatever
    event other than those of [i] and the cancellation is added. *)
Lemma slotInv_other (evs : list Event) (st st' : FanOut) (ev : Event)
    (i : nat) :
  tasks st' !! i = tasks st !! i →
  entries i (resultChan st') = entries i (resultChan st) →
  collected st' !! i = collected st !! i →
  ev ≠ EvAcquire i → ev ≠ EvCancelled i →
  slotInv cd v sourceURLs evs st i →
  slotInv cd v sourceURLs (evs ++ [ev]) st' i.
Proof.
  unfold slotInv. intros -> Hent Hcol Hacq Hcan.
  destruct (tasks st !! i) as [[| | |]|]; rewrite ?Hent, ?Hcol.
  - intros (? & ? & ? & ?). repeat split; [done..| |]; set_solver.
  - intros (? & ? & ? & ?). repeat split; [done..| |]; set_solver.
  - intros (? & ? & u & r & ? & ? & Hd).
    split; [set_solver|]. split; [set_solver|].
    exists u, r. repeat split; [done..|]. by eapply delivers_same.
  - intros (? & (before & after & -> & ?) & ? & Hd).
    split; [done|]. split.
    { exists before, (after ++ [ev]). by rewrite <- app_assoc. }
    split; [set_solver|]. by eapply delivers_same.
  - done.
Qed.

Lemma fanOutInv_step (evs : list Event) (st st' : FanOut) (ev : Event) :
  fanOutInv cd v sourceURLs evs st →
  step cd v sourceURLs st ev st' →
  fanOutInv cd v sourceURLs (evs ++ [ev]) st'.
Proof.
  intros (Hlt & Hlc & Hctx & Hslots) Hstep.
  destruct Hstep as [st Hv|st idx Hw Hroom|st idx Hv Hw Hdone
                    |st idx u r Hrun Hu Hdec|st ir rest rs Hchan Hstore];
    unfold fanOutInv; cbn [tasks collected ctxDone resultChan permits].
  - (* cancel *)
    do 2 (split; [done|]). split; [set_solver|].
    intros i. apply (slotInv_other evs st); try done.
  - (* acquire *)
    rewrite length_insert. do 2 (split; [done|]).
    split; [set_solver|]. intros i.
    destruct (decide (i = idx)) as [->|Hne].
    + specialize (Hslots idx). unfold slotInv in *.
      cbn [tasks collected resultChan].
      rewrite list_lookup_insert_eq by (by eapply lookup_lt_Some).
      rewrite Hw in Hslots. destruct Hslots as (? & ? & ? & ?).
      repeat split; [done..| |]; set_solver.
    + apply (slotInv_other evs st); try done; try congruence.
      cbn [tasks]. by rewrite list_lookup_insert_ne.
  - (* cancelled *)
    rewrite length_insert. do 2 (split; [done|]).
    split; [set_solver|]. intros i.
    destruct (decide (i = idx)) as [->|Hne].
    + specialize (Hslots idx). unfold slotInv in *.
      cbn [tasks collected resultChan].
      rewrite list_lookup_insert_eq by (by eapply lookup_lt_Some).
      rewrite Hw in Hslots. destruct Hslots as (Hent & ? & ? & ?).
      split; [done|]. split; [exists evs, []; split; [done|by apply Hctx]|].
      split; [set_solver|]. left. cbn [resultChan collected].
      rewrite entries_snoc, Hent. cbn [index].
      by destruct (decide (idx = idx)).
    + apply (slotInv_other evs st); try done; try congruence.
      * cbn [tasks]. by rewrite list_lookup_insert_ne.
      * cbn [resultChan]. rewrite entries_snoc. cbn [index].
        destruct (decide (idx = i)); [congruence|]. by rewrite app_nil_r.
  - (* finish *)
    rewrite length_insert. do 2 (split; [done|]).
    split; [set_solver|]. intros i.
    destruct (decide (i = idx)) as [->|Hne].
    + specialize (Hslots idx). unfold slotInv in *.
      cbn [tasks collected resultChan].
      rewrite list_lookup_insert_eq by (by eapply lookup_lt_Some).
      rewrite Hrun in Hslots. destruct Hslots as (Hent & ? & ? & ?).
      split; [set_solver|]. split; [set_solver|].
      exists u, r. do 2 (split; [done|]). left. cbn [resultChan collected].
      rewrite entries_snoc, Hent. cbn [index].
      by destruct (decide (idx = idx)).
    + apply (slotInv_other evs st); try done; try congruence.
      * cbn [tasks]. by rewrite list_lookup_insert_ne.
      * cbn [resultChan]. rewrite entries_snoc. cbn [index].
        destruct (decide (idx = i)); [congruence|]. by rewrite app_nil_r.
  - (* collect *)
    apply store_inv in Hstore as [Hrange ->]. rewrite length_insert.
    do 2 (split; [done|]). split; [set_solver|]. intros i.
    destruct (decide (index ir = i)) as [<-|Hne].
    + specialize (Hslots (index ir)). unfold slotInv in *.
      cbn [tasks collected resultChan]. rewrite Hchan in Hslots.
      rewrite entries_cons in Hslots.
      destruct (decide (index ir = index ir)); [|done].
      assert (Hdel : ∀ r, delivers v st (index ir) r →
                delivers v
                  (mkFanOut (tasks st) (permits st) rest
                     (<[index ir := result ir]> (collected st)) (ctxDone st))
                  (index ir) r).
      { intros r [[Hent _]|[Hent _]]; rewrite Hchan, entries_cons in Hent;
          destruct (decide (index ir = index ir)); try done.
        injection Hent as Hir Hrest. right. cbn [resultChan collected].
        split; [done|]. rewrite list_lookup_insert_eq by done.
        by rewrite Hir. }
      destruct (tasks st !! index ir) as [[| | |]|].
      * by destruct Hslots as [? _].
      * by destruct Hslots as [? _].
      * destruct Hslots as (? & ? & u & r & ? & ? & Hd).
        split; [set_solver|]. split; [set_solver|].
        exists u, r. do 2 (split; [done|]). by apply Hdel.
      * destruct Hslots as (? & (before & after & -> & ?) & ? & Hd).
        split; [done|]. split.
        { exists before, (after ++ [EvCollect]). by rewrite <- app_assoc. }
        split; [set_solver|]. by apply Hdel.
      * done.
    + apply (slotInv_other evs st); try done.
      * cbn [resultChan]. rewrite Hchan, entries_cons.
        by destruct (decide (index ir = i)).
      * cbn [collected]. by rewrite list_lookup_insert_ne.
Qed.

Lemma fanOutInv_run (evs : list Event) (st : FanOut) :
  run cd v sourceURLs (initialState v sourceURLs) evs st →
  fanOutInv cd v sourceURLs evs st.
Proof.
  remember (initialState v sourceURLs) as st0 eqn:Hst0.
  induction 1 as [st|st1 evs st2 ev st3 _ IH Hstep].
  - subst. apply fanOutInv_init.
  - eapply fanOutInv_step; [|done]. by apply IH.
Qed.

End FanOutInvariant.

(** ** The fan-out: what a call returns *)

Lemma Decode_total (env : Env) (u : string) : is_Some (Decode env u).
Proof. destruct (newDecoderV1WithClient_total env u) as (r & ? & _). by exists r. Qed.

Lemma NewConcurrentDecoder_positive (d : Env) (c : Z) :
  (0 < concurrency (NewConcurrentDecoder d c))%Z.
Proof.
  unfold NewConcurrentDecoder. cbn [concurrency].
  destruct (Z.leb_spec c 0); lia.
Qed.

Section FanOutReturns.
Context (cd : ConcurrentDecoder) (v : Variant) (sourceURLs : list string).

(** When the call has returned, every slot holds the result of its own
    goroutine. *)
Lemma returned_slot (evs : list Event) (st : FanOut) (i : nat) (u : string) :
  fanOutInv cd v sourceURLs evs st → returned st →
  sourceURLs !! i = Some u →
  (∃ r, Decode (decoder cd) u = Some r ∧ collected st !! i = Some r ∧
        (EvAcquire i ∈ evs) ∧ (EvCancelled i ∉ evs))
  ∨ (v = WithContext ∧ collected st !! i = Some cancelledResult ∧
     (EvAcquire i ∉ evs) ∧
     ∃ before after,
       evs = before ++ EvCancelled i :: after ∧ EvCancel ∈ before).
Proof.
  intros (Hlt & Hlc & _ & Hslots) [Hall Hchan] Hu.
  specialize (Hslots i). unfold slotInv in Hslots.
  destruct (lookup_lt_is_Some_2 (tasks st) i) as [t Ht].
  { rewrite Hlt. by eapply lookup_lt_Some. }
  rewrite Ht in Hslots.
  assert (Hdel : ∀ r, delivers v st i r → collected st !! i = Some r).
  { intros r [[Hent _]|[_ ?]]; [|done]. by rewrite Hchan in Hent. }
  rewrite Forall_lookup in Hall. destruct (Hall i t Ht) as [->| ->].
  - destruct Hslots as (? & ? & u' & r & Hu' & ? & Hd). left.
    assert (u' = u) as -> by congruence. exists r. auto.
  - destruct Hslots as (? & ? & ? & Hd). right. auto.
Qed.

(** One goroutine of the sequential schedule. *)
Lemma sequential_task (n k : nat) (st : FanOut) :
  n = length sourceURLs → (0 < concurrency cd)%Z → (k < n)%nat →
  betweenTasks n k st →
  ∃ st1 st2 st3,
    step cd v sourceURLs st (EvAcquire k) st1 ∧
    step cd v sourceURLs st1 (EvFinish k) st2 ∧
    step cd v sourceURLs st2 EvCollect st3 ∧
    betweenTasks n (S k) st3.
Proof.
  intros Hn Hpos Hk (Hlt & Hlc & Hperm & Hchan & Hfin & Hwait).
  destruct (lookup_lt_is_Some_2 sourceURLs k) as [u Hu]; [lia|].
  destruct (Decode_total (decoder cd) u) as [r Hr].
  eexists _, _, _. split; [|split; [|split]].
  - apply step_acquire; [apply Hwait; lia|]. rewrite Hperm. simpl. lia.
  - eapply step_finish; [|done..]. cbn [tasks].
    apply list_lookup_insert_eq. lia.
  - eapply step_collect; cbn [resultChan collected].
    + rewrite Hchan. reflexivity.
    + cbn [index result]. apply store_in_range. lia.
  - unfold betweenTasks. cbn [tasks collected permits resultChan].
    rewrite !length_insert, Hperm. repeat split; try done.
    + intros i Hi. destruct (decide (i = k)) as [->|Hne].
      * apply list_lookup_insert_eq. rewrite length_insert. lia.
      * rewrite !list_lookup_insert_ne by done. apply Hfin. lia.
    + intros i Hi. rewrite !list_lookup_insert_ne by lia. apply Hwait. lia.
Qed.

Lemma sequential_run (k : nat) :
  (0 < concurrency cd)%Z → (k ≤ length sourceURLs)%nat →
  ∃ st, run cd v sourceURLs (initialState v sourceURLs) (sequential k) st ∧
        betweenTasks (length sourceURLs) k st.
Proof.
  intros Hpos. induction k as [|k IH]; intros Hk.
  - exists (initialState v sourceURLs). split; [apply run_nil|].
    unfold betweenTasks, initialState. cbn.
    rewrite !length_replicate. repeat split; try done; try lia.
    intros i Hi. apply lookup_replicate_2. lia.
  - destruct IH as (st & Hrun & Hbetween); [lia|].
    destruct (sequential_task (length sourceURLs) k st eq_refl Hpos
                ltac:(lia) Hbetween) as (st1 & st2 & st3 & H1 & H2 & H3 & Hb).
    exists st3. split; [|done]. cbn [sequential].
    eapply run_snoc; [|exact H3]. eapply run_snoc; [|exact H2].
    eapply run_snoc; [exact Hrun|exact H1].
Qed.

(** The call can return: the sequential schedule is a run. *)
Lemma sequential_returns :
  (0 < concurrency cd)%Z →
  ∃ rs, returns cd v sourceURLs (sequential (length sourceURLs)) rs.
Proof.
  intros Hpos.
  destruct (sequential_run (length sourceURLs) Hpos ltac:(lia))
    as (st & Hrun & (Hlt & _ & _ & Hchan & Hfin & _)).
  exists (collected st), st. split; [done|]. split; [|done].
  split; [|done]. apply Forall_lookup. intros i t Ht. left.
  pose proof (lookup_lt_Some _ _ _ Ht) as Hi. rewrite Hfin in Ht by lia.
  congruence.
Qed.

End FanOutReturns.

(** In every run of [DecodeURLs] that returns there are as many results
    as input URLs and every slot holds what [Decode] returns for its
    URL, whatever the order of the events; and the call can return. *)
Lemma DecodeURLs_in_order :
  (∀ cd sourceURLs evs rs,
     returns cd PlainFanOut sourceURLs evs rs →
     length rs = length sourceURLs ∧
     ∀ i u, sourceURLs !! i = Some u → rs !! i = Decode (decoder cd) u) ∧
  (∀ decoder concurrency sourceURLs,
     ∃ rs, returns (NewConcurrentDecoder decoder concurrency) PlainFanOut
             sourceURLs (sequential (length sourceURLs)) rs).
Proof.
  split.
  - intros cd sourceURLs evs rs (st & Hrun & Hret & <-).
    apply fanOutInv_run in Hrun. split; [apply Hrun|].
    intros i u Hu.
    destruct (returned_slot cd PlainFanOut sourceURLs evs st i u Hrun Hret Hu)
      as [(r & -> & -> & _)|[[=] _]].
    done.
  - intros decoder concurrency sourceURLs.
    apply sequential_returns, NewConcurrentDecoder_positive.
Qed.



(** * Further properties *)

(** ** The decoders side by side *)

Ltac both := eexists; split; reflexivity.

(** X1. [DecoderV2] never panics and returns what [DecoderV3] finds:
    the decoded URL when [DecoderV3] succeeds, and the source URL,
    unchanged, whenever [DecoderV3] fails. *)
Theorem DecoderV2_follows_DecoderV3 (env : Env) (sourceURL : string) :
  ∃ r, DecoderV3 env sourceURL = Some r ∧
       DecoderV2 env sourceURL =
       Some (if Status r then DecodedURL r else sourceURL).
Proof.
  unfold DecoderV3, DecoderV2.
  destruct (url_Parse env sourceURL) as [err|parsedURL]; [both|].
  cbv zeta. set (path := Strings.Split _ _).
  destruct (if String.eqb _ _ then pathType_ok path else Some false)
    as [[|]|] eqn:Hok; simpl; [| both |].
  - assert (is_Some (path !! (length path - 1)%nat)) as [tok ->].
    { destruct (String.eqb _ _); [|done]. by eapply pathType_ok_inv. }
    simpl. destruct (decodeToken_total tok) as [[e|decodedStr] ->]; simpl;
      [both|].
    destruct (Strings.HasPrefix decodedStr "AU_yqL"); [|both].
    destruct (fetchDecodedBatchExecute_total env tok) as [[e|u] ->]; simpl;
      both.
  - destruct (String.eqb _ _); [|done].
    by destruct (pathType_ok_total path) as [? Hp]; rewrite Hp in Hok.
Qed.

(** X2. [DecoderV1] never panics.  It returns the source URL
    unchanged, or else the record of the last path piece of a URL of
    the news host whose second-to-last piece is [articles]; when that
    record is not an [AU_yqL] reference, [DecoderV2] and [DecoderV3]
    return the same URL. *)
Theorem DecoderV1_result (env : Env) (sourceURL : string) :
  ∃ s,
    DecoderV1 env sourceURL = Some s ∧
    (s = sourceURL ∨
     (∃ parsedURL path tok,
        url_Parse env sourceURL = inr parsedURL ∧
        Host parsedURL = "news.google.com" ∧
        path = Strings.Split (Path parsedURL) "/" ∧
        path !! (length path - 2)%nat = Some "articles" ∧
        path !! (length path - 1)%nat = Some tok ∧
        decodeToken tok = Some (inr s)) ∧
     (Strings.HasPrefix s "AU_yqL" = false →
      DecoderV2 env sourceURL = Some s ∧
      DecoderV3 env sourceURL = Some (resolved s))).
Proof.
  unfold DecoderV1, DecoderV2, DecoderV3.
  destruct (url_Parse env sourceURL) as [err|parsedURL];
    [eexists; split; [done|by left]|].
  cbv zeta. set (path := Strings.Split _ _).
  destruct (String.eqb_spec (Host parsedURL) "news.google.com") as [Hhost|];
    [|eexists; split; [done|by left]].
  unfold articles_ok, pathType_ok.
  destruct (Nat.ltb_spec 1 (length path)); [|eexists; split; [done|by left]].
  destruct (lookup_lt_is_Some_2 path (length path - 2)) as [pathType Hpt];
    [lia|].
  destruct (lookup_lt_is_Some_2 path (length path - 1)) as [tok Htok];
    [lia|].
  rewrite Hpt. cbn [mbind option_bind].
  destruct (String.eqb_spec pathType "articles") as [->|];
    [|eexists; split; [done|by left]].
  cbn [orb]. rewrite Htok. cbn [mbind option_bind].
  destruct (decodeToken_total tok) as [[e|decodedStr] Hdec]; rewrite Hdec;
    cbn [mbind option_bind]; [eexists; split; [done|by left]|].
  exists decodedStr. split; [done|]. right. split.
  - by exists parsedURL, path, tok.
  - by intros ->.
Qed.

(** ** The record steps only cut *)

Lemma slice_cut (s r : string) (lo hi : nat) :
  Strings.slice s lo hi = Some r →
  s = Strings.take lo s +:+ r +:+ Strings.drop (hi - lo) (Strings.drop lo s).
Proof.
  unfold Strings.slice. destruct (_ && _); [|done]. intros [= <-].
  by rewrite !take_drop.
Qed.

Lemma removePrefix_cut (s r : string) :
  removePrefix s = Some r →
  ∃ pre, s = pre +:+ r ∧ (Strings.len pre ≤ 3)%nat.
Proof.
  unfold removePrefix. destruct (Strings.HasPrefix s prefix).
  - intros Hs%slice_cut.
    rewrite drop_all, str_app_nil_r in Hs by (rewrite drop_len; lia).
    eexists. split; [exact Hs|]. rewrite take_len.
    change (Strings.len prefix) with 3%nat. lia.
  - intros [= <-]. exists "". split; [done|]. cbn. lia.
Qed.

Lemma removeSuffix_cut (s r : string) :
  removeSuffix s = Some r → ∃ post, s = r +:+ post.
Proof.
  unfold removeSuffix. destruct (Strings.HasSuffix s suffix).
  - intros Hs%slice_cut. cbn [Strings.take Strings.drop String.append] in Hs.
    eexists. exact Hs.
  - intros [= <-]. exists "". by rewrite str_app_nil_r.
Qed.

Lemma extractByLength_cut (s r : string) :
  extractByLength s = Some r →
  ∃ pre post, s = pre +:+ r +:+ post ∧ (Strings.len pre ≤ 2)%nat.
Proof.
  assert (Hwhole : ∃ pre post, s = pre +:+ s +:+ post ∧ (Strings.len pre ≤ 2)%nat).
  { exists "", "". split; [by rewrite str_app_nil_r|cbn; lia]. }
  unfold extractByLength. destruct (0 <? Strings.len s)%nat; [|by intros [= <-]].
  destruct (Strings.index s 0) as [c|]; [|done]. cbn [mbind option_bind].
  destruct (_ && _).
  { intros Hs%slice_cut. eexists _, _. split; [exact Hs|].
    rewrite take_len. lia. }
  destruct (_ <? _)%nat; [|by intros [= <-]].
  intros Hs%slice_cut. eexists _, _. split; [exact Hs|].
  rewrite take_len. lia.
Qed.

(** X3. The record steps only cut: on every byte sequence they
    return one contiguous part of it, which starts at most five bytes
    into the sequence (the three bytes of the prefix and up to two
    length bytes). *)
Theorem decodeRecord_cuts (decodedBytes : string) :
  ∃ r pre post,
    decodeRecord decodedBytes = Some r ∧
    decodedBytes = pre +:+ r +:+ post ∧
    (Strings.len pre ≤ 5)%nat.
Proof.
  destruct (decodeRecord_total decodedBytes) as [r Hr]. exists r.
  pose proof Hr as Hsteps. revert Hsteps. unfold decodeRecord at 1.
  destruct (removePrefix decodedBytes) as [s1|] eqn:H1; [|done].
  cbn [mbind option_bind].
  destruct (removeSuffix s1) as [s2|] eqn:H2; [|done].
  cbn [mbind option_bind]. intros H3.
  apply removePrefix_cut in H1 as (p1 & -> & Hp1).
  apply removeSuffix_cut in H2 as (q1 & ->).
  apply extractByLength_cut in H3 as (p2 & q2 & -> & Hp2).
  exists (p1 +:+ p2), (q2 +:+ q1). split; [exact Hr|]. split.
  - by rewrite !str_app_assoc.
  - rewrite len_app. lia.
Qed.

Lemma take_app_le (k : nat) (s t : string) :
  (k ≤ Strings.len s)%nat → Strings.take k (s +:+ t) = Strings.take k s.
Proof.
  revert s. induction k as [|k IH]; intros [|c s]; simpl; try done; try lia.
  intros ?. f_equal. apply IH. lia.
Qed.

(** X4. On a record whose payload has 128 bytes or more, its length
    written in two bytes, the record steps return a proper initial part
    of the payload: its first [len mod 128 + 127] bytes.  The first
    length byte alone is read as the length. *)
Theorem long_record_cut_short (payload trailer : string) :
  (128 ≤ Strings.len payload)%nat →
  decodeRecord (longRecord payload trailer)
  = Some (Strings.take (Strings.len payload mod 128 + 127) payload) ∧
  (Strings.len payload mod 128 + 127 < Strings.len payload)%nat.
Proof.
  intros Hlen. set (n := Strings.len payload) in *.
  assert (Hshort : (n mod 128 + 127 < n)%nat).
  { pose proof (Nat.div_mod_eq n 128).
    assert (1 ≤ n / 128)%nat by (apply Nat.div_le_lower_bound; lia). lia. }
  split; [|done].
  unfold decodeRecord, longRecord. fold n.
  set (body := String (ascii_of_nat (n mod 128 + 128))
                 (String (ascii_of_nat (n / 128)) payload) +:+ trailer).
  assert (Hbody : String (ascii_of_nat (n mod 128 + 128))
                    (String (ascii_of_nat (n / 128)) payload)
                  +:+ trailer +:+ suffix = body +:+ suffix)
    by (unfold body; by rewrite str_app_assoc).
  rewrite Hbody.
  assert (removePrefix (prefix +:+ body +:+ suffix) = Some (body +:+ suffix))
    as ->.
  { unfold removePrefix. rewrite HasPrefix_app, slice_in_range.
    - rewrite drop_app, take_all; [done|]. rewrite !len_app. lia.
    - rewrite len_app. lia.
    - done. }
  cbn [mbind option_bind].
  assert (removeSuffix (body +:+ suffix) = Some body) as ->.
  { unfold removeSuffix. rewrite HasSuffix_app, slice_in_range.
    - cbn [Strings.drop]. rewrite len_app.
      replace (Strings.len body + Strings.len suffix
               - Strings.len suffix - 0)%nat with (Strings.len body) by lia.
      by rewrite take_app.
    - lia.
    - rewrite len_app. lia. }
  cbn [mbind option_bind].
  unfold extractByLength, body. cbn [String.append String.length].
  change (0 <? S _)%nat with true. rewrite index_0. cbn [mbind option_bind].
  assert (n mod 128 < 128)%nat by (apply Nat.mod_upper_bound; lia).
  rewrite nat_ascii_embedding by lia.
  destruct (Nat.leb_spec 128 (n mod 128 + 128)); [|lia]. rewrite len_app.
  fold n.
  destruct (Nat.ltb_spec (n mod 128 + 128 + 1)
              (S (S (n + Strings.len trailer)))); [|lia].
  cbn [andb].
  rewrite slice_in_range by (cbn [String.length]; rewrite ?len_app; fold n; lia).
  cbn [Strings.drop].
  replace (n mod 128 + 128 + 1 - 2)%nat with (n mod 128 + 127)%nat by lia.
  by rewrite take_app_le by (fold n; lia).
Qed.

Lemma long_record_cut_short_witness :
  let payload := String.concat "" (replicate 13 "0123456789") in
  decodeRecord (longRecord payload "")
  = Some (Strings.take 129 payload).
Proof.
  intros payload.
  apply (long_record_cut_short payload "").
  vm_compute. lia.
Defined.

(** ** The attributes of the article page *)

Lemma spanUnquoted_spec (s : string) :
  s = (spanUnquoted s).1 +:+ (spanUnquoted s).2 ∧
  hasByte "034"%char (spanUnquoted s).1 = false.
Proof.
  induction s as [|c s [IH1 IH2]]; [done|]. cbn [spanUnquoted hasByte].
  destruct (Ascii.eqb c "034"%char) eqn:Hc; [done|].
  destruct (spanUnquoted s) as [v rest]. cbn [fst snd] in *.
  cbn [hasByte String.append]. rewrite Hc. split; [by f_equal|done].
Qed.

Lemma spanUnquoted_app (v post : string) :
  hasByte "034"%char v = false →
  spanUnquoted (v +:+ dq +:+ post) = (v, dq +:+ post).
Proof.
  induction v as [|c v IH]; [done|]. cbn [hasByte String.append spanUnquoted].
  intros [Hc Hv]%orb_false_iff. rewrite Hc, (IH Hv). done.
Qed.

Lemma matchAttrAt_sound (name s v : string) :
  matchAttrAt name s = Some v →
  v ≠ "" ∧ hasByte "034"%char v = false ∧
  ∃ post, s = (name +:+ "=" +:+ dq) +:+ v +:+ dq +:+ post.
Proof.
  unfold matchAttrAt. cbv zeta.
  destruct (Strings.HasPrefix s _) eqn:Hp; [|done].
  apply HasPrefix_split in Hp.
  pose proof (spanUnquoted_spec
                (Strings.drop (Strings.len (name +:+ "=" +:+ dq)) s)) as [Hs Hq].
  destruct (spanUnquoted _) as [v' rest]. cbn [fst snd] in *.
  destruct (String.eqb_spec v' ""); [done|]. cbn [negb andb].
  destruct (Strings.HasPrefix rest dq) eqn:Hr; [|done].
  intros [= <-]. apply HasPrefix_split in Hr.
  do 2 (split; [done|]). eexists. rewrite Hp at 1. rewrite Hs. rewrite Hr at 1.
  reflexivity.
Qed.

Lemma matchAttrAt_complete (name v post : string) :
  v ≠ "" → hasByte "034"%char v = false →
  matchAttrAt name ((name +:+ "=" +:+ dq) +:+ v +:+ dq +:+ post) = Some v.
Proof.
  intros Hv Hq. unfold matchAttrAt. cbv zeta.
  rewrite HasPrefix_app, drop_app, spanUnquoted_app by done.
  rewrite HasPrefix_app. by destruct (String.eqb_spec v "").
Qed.

Lemma findAttr_sound (name s v : string) :
  findAttr name s = Some v → attrOccurs name v s.
Proof.
  unfold attrOccurs. induction s as [|c s IH]; cbn [findAttr].
  - destruct (matchAttrAt name "") eqn:Hm; [|done]. intros [= ->].
    apply matchAttrAt_sound in Hm as (? & ? & post & Hs).
    do 2 (split; [done|]). by exists "", post.
  - destruct (matchAttrAt name (String c s)) eqn:Hm.
    + intros [= ->]. apply matchAttrAt_sound in Hm as (? & ? & post & Hs).
      do 2 (split; [done|]). by exists "", post.
    + intros (? & ? & pre & post & ->)%IH. do 2 (split; [done|]).
      by exists (String c pre), post.
Qed.

Lemma findAttr_here (name s v : string) :
  matchAttrAt name s = Some v → findAttr name s = Some v.
Proof. destruct s; cbn [findAttr]; by intros ->. Qed.

Lemma findAttr_complete (name s v : string) :
  attrOccurs name v s → is_Some (findAttr name s).
Proof.
  intros (Hv & Hq & pre & post & ->).
  induction pre as [|c pre IH].
  - cbn [String.append]. eexists.
    by apply findAttr_here, matchAttrAt_complete.
  - cbn [String.append findAttr]. destruct (matchAttrAt _ _); [by eexists|done].
Qed.

Lemma extractDataAttributes_sound (htmlContent signature timestamp : string) :
  extractDataAttributes htmlContent = inr (signature, timestamp) →
  attrOccurs "data-n-a-sg" signature htmlContent ∧
  attrOccurs "data-n-a-ts" timestamp htmlContent.
Proof.
  unfold extractDataAttributes.
  destruct (findAttr "data-n-a-sg" htmlContent) as [sig|] eqn:Hsig; [|done].
  destruct (findAttr "data-n-a-ts" htmlContent) as [ts|] eqn:Hts; [|done].
  intros [= <- <-]. split; by apply findAttr_sound.
Qed.

(** X5. [extractDataAttributes] succeeds exactly when the markup holds
    both attributes with a non-empty value between quotes, and the
    values it returns stand in the markup in that form.  The signature
    is looked for first: whenever it is missing the error is the one of
    the signature, also when the timestamp is missing too; the error of
    the timestamp is returned only when the signature is there. *)
Theorem extractDataAttributes_spec (htmlContent : string) :
  match extractDataAttributes htmlContent with
  | inr (signature, timestamp) =>
      attrOccurs "data-n-a-sg" signature htmlContent ∧
      attrOccurs "data-n-a-ts" timestamp htmlContent
  | inl err =>
      ((∀ v, ¬ attrOccurs "data-n-a-sg" v htmlContent) ∧
       err = "signature not found in HTML") ∨
      ((∃ v, attrOccurs "data-n-a-sg" v htmlContent) ∧
       (∀ v, ¬ attrOccurs "data-n-a-ts" v htmlContent) ∧
       err = "timestamp not found in HTML")
  end.
Proof.
  unfold extractDataAttributes.
  destruct (findAttr "data-n-a-sg" htmlContent) as [sig|] eqn:Hsig.
  - destruct (findAttr "data-n-a-ts" htmlContent) as [ts|] eqn:Hts.
    + split; by apply findAttr_sound.
    + right. split; [exists sig; by apply findAttr_sound|]. split; [|done].
      intros v Hv%findAttr_complete. rewrite Hts in Hv. by destruct Hv.
  - left. split; [|done]. intros v Hv%findAttr_complete.
    rewrite Hsig in Hv. by destruct Hv.
Qed.

(** X6. The parameters [getDecodingParams] returns with a true status
    carry the token it was given, no message, and a signature and a
    timestamp that are non-empty, free of quotes and taken from one
    response body: the body of a response with status 200 that the
    client gave to the request for the article page of the token, or to
    the request for its RSS page.  With a false status the three fields
    are empty and the message is not. *)
Theorem getDecodingParams_shape (env : Env) (base64Str : string) :
  let params := getDecodingParams env base64Str in
  if ParamsStatus params then
    Base64Str params = base64Str ∧ ParamsMessage params = "" ∧
    (answersWith env ("https://news.google.com/articles/" +:+ base64Str)
       (Signature params) (Timestamp params) ∨
     answersWith env ("https://news.google.com/rss/articles/" +:+ base64Str)
       (Signature params) (Timestamp params))
  else
    Signature params = "" ∧ Timestamp params = "" ∧ Base64Str params = "" ∧
    ParamsMessage params ≠ "".
Proof.
  cbv zeta. unfold getDecodingParams, answersWith.
  destruct (http_NewRequest env "GET"
              ("https://news.google.com/articles/" +:+ base64Str) None)
    as [err|req] eqn:Hreq; [by cbn|].
  cbv zeta.
  destruct (match client_Do env _ with inl _ => None | inr _ => _ end)
    as [params|] eqn:Hfirst.
  { destruct (client_Do env _) as [|resp] eqn:Hdo; [done|].
    destruct (Z.eqb_spec (StatusCode resp) 200) as [Hcode|]; [|done].
    unfold io_ReadAll in Hfirst.
    destruct (extractDataAttributes (Body resp)) as [|[sig ts]] eqn:Hbody;
      [done|].
    apply extractDataAttributes_sound in Hbody as [Hsg Hts].
    injection Hfirst as <-. cbn. do 2 (split; [done|]). left.
    by exists req, resp. }
  clear Hfirst.
  destruct (http_NewRequest env "GET"
              ("https://news.google.com/rss/articles/" +:+ base64Str) None)
    as [err|req'] eqn:Hreq'; [by cbn|].
  destruct (client_Do env (Header_Set req' _ _)) as [err|resp] eqn:Hdo;
    [by cbn|].
  destruct (Z.eqb_spec (StatusCode resp) 200) as [Hcode|]; [|by cbn].
  cbn [negb]. unfold io_ReadAll.
  destruct (ReadErr resp) as [err|]; [by cbn|].
  destruct (extractDataAttributes (Body resp)) as [|[sig ts]] eqn:Hbody; cbn;
    [done|].
  apply extractDataAttributes_sound in Hbody as [Hsg Hts].
  do 2 (split; [done|]). right. by exists req', resp.
Qed.

(** ** The single-reference call *)

(** X7. On a response that was read, the single-reference call returns
    the first URL the batched parser would scan from the same body; when
    that scan finds no URL, it returns the error of the missing marker
    or of the missing terminator, and no other. *)
Theorem single_call_returns_first_scanned (env : Env) (id : string)
    (resp : Response) (urls : list string) :
  postRPC env (singleRequest id) = inr resp →
  StatusCode resp = 200%Z →
  ReadErr resp = None →
  ScansTo (Body resp) urls →
  fetchDecodedBatchExecute env id =
  Some (match urls with
        | u :: _ => inr u
        | [] =>
            inl (if Strings.Contains (Body resp) header
                 then "footer not found in response"
                 else "header not found in response")
        end).
Proof.
  intros Hpost Hcode Hread Hscan.
  unfold fetchDecodedBatchExecute, io_ReadAll. cbv zeta.
  unfold singleRequest in Hpost. rewrite Hpost, Hcode, Hread.
  cbn [negb Z.eqb Pos.eqb].
  unfold Strings.Contains, Strings.SplitN2.
  inversion Hscan as [text Hi|text i Hi Hk|text i k rest Hi Hk Hrest]; subst;
    rewrite Hi; cbn [negb]; [done| |];
    cbn [length Nat.ltb Nat.leb lookup list_lookup mbind option_bind];
    rewrite Hk; done.
Qed.

Lemma single_call_returns_first_scanned_witness :
  fetchDecodedBatchExecute
    (Sample.serving ("x" +:+ header +:+ "http://a" +:+ footer +:+ "y" +:+
                     header +:+ "http://b" +:+ footer))
    "id"
  = Some (inr "http://a").
Proof.
  apply (single_call_returns_first_scanned
           (Sample.serving ("x" +:+ header +:+ "http://a" +:+ footer +:+ "y" +:+
                            header +:+ "http://b" +:+ footer))
           "id"
           (mkResponse 200
              ("x" +:+ header +:+ "http://a" +:+ footer +:+ "y" +:+
               header +:+ "http://b" +:+ footer) None)
           ["http://a"; "http://b"]); [reflexivity..|].
  refine (scan_url _ 1 8 ["http://b"] _ _ _); [reflexivity..|].
  refine (scan_url _ 1 8 [] _ _ _); [reflexivity..|].
  by apply scan_no_marker.
Defined.

(** ** What is decided without the network *)

Lemma sameParser_individual (env1 env2 : Env) (u : string) :
  sameParser env1 env2 → individual env1 u = individual env2 u.
Proof. intros Hsame. unfold individual. by rewrite Hsame. Qed.

Lemma sameParser_pendingTokens (env1 env2 : Env) (urls : list string) :
  sameParser env1 env2 → pendingTokens env1 urls = pendingTokens env2 urls.
Proof.
  intros Hsame. unfold pendingTokens. induction urls as [|u urls IH]; [done|].
  cbn [omap list_omap]. by rewrite IH, (sameParser_individual env1 env2).
Qed.

(** X8. What is decided without the network does not depend on the
    client: [DecoderV1] and [GetBase64Str] always, [DecoderV3] on a URL
    the first loop of [DecoderV4] would decide by itself, and
    [newDecoderV1WithClient] on a URL whose extraction fails, return the
    same under any two environments that parse URLs alike. *)
Theorem local_results_ignore_the_client (env1 env2 : Env) (sourceURL : string) :
  sameParser env1 env2 →
  DecoderV1 env1 sourceURL = DecoderV1 env2 sourceURL ∧
  GetBase64Str env1 sourceURL = GetBase64Str env2 sourceURL ∧
  (∀ r, individual env1 sourceURL = Some (inl r) →
        DecoderV3 env1 sourceURL = Some r ∧ DecoderV3 env2 sourceURL = Some r) ∧
  (∀ failure, extractBase64Str env1 sourceURL = Some (inl failure) →
        newDecoderV1WithClient env1 sourceURL = Some failure ∧
        newDecoderV1WithClient env2 sourceURL = Some failure).
Proof.
  intros Hsame. split; [|split; [|split]].
  - unfold DecoderV1. by rewrite Hsame.
  - unfold GetBase64Str. by rewrite Hsame.
  - intros r Hr. rewrite !DecoderV3_individual.
    by rewrite <- (sameParser_individual env1 env2), Hr.
  - intros failure Hf.
    assert (extractBase64Str env2 sourceURL = Some (inl failure)) as Hf2.
    { rewrite <- Hf. unfold extractBase64Str. by rewrite Hsame. }
    unfold newDecoderV1WithClient. by rewrite Hf, Hf2.
Qed.

Lemma local_results_ignore_the_client_witness :
  DecoderV1 Sample.offline "https://news.google.com/articles/CBMiA2FiY9IBAA"
  = DecoderV1 (Sample.serving "x")
      "https://news.google.com/articles/CBMiA2FiY9IBAA".
Proof.
  apply (local_results_ignore_the_client Sample.offline (Sample.serving "x")
           "https://news.google.com/articles/CBMiA2FiY9IBAA").
  intros u. reflexivity.
Defined.

(** ** [DecoderV4] and the single decoders *)

(** X9. Every URL that does not wait for the batched call gets from
    [DecoderV4] the result [DecoderV3] returns for it. *)
Theorem DecoderV4_direct_slots (env : Env) (sourceURLs : list string) :
  ∃ rs,
    DecoderV4 env sourceURLs = Some rs ∧
    ∀ i u, sourceURLs !! i = Some u →
      (∃ tok, individual env u = Some (inr tok)) ∨
      (rs !! i = DecoderV3 env u ∧ is_Some (rs !! i)).
Proof.
  destruct (DecoderV4_slots env sourceURLs) as (rs & Hrs & _ & Hslots).
  exists rs. split; [done|]. intros i u Hu. specialize (Hslots i u Hu).
  rewrite DecoderV3_individual.
  destruct (individual env u) as [[r|tok]|]; [|by left; exists tok|done].
  right. by rewrite Hslots.
Qed.

(** X10. When no URL waits for the batched call, [DecoderV4] sends
    nothing: its results, one per URL, are the same under any two
    environments that parse URLs alike. *)
Theorem DecoderV4_without_pending (env1 env2 : Env) (sourceURLs : list string) :
  sameParser env1 env2 →
  pendingTokens env1 sourceURLs = [] →
  ∃ rs, DecoderV4 env1 sourceURLs = Some rs ∧
        DecoderV4 env2 sourceURLs = Some rs ∧
        length rs = length sourceURLs.
Proof.
  intros Hsame Hnone.
  pose proof Hnone as Hnone2.
  rewrite (sameParser_pendingTokens env1 env2) in Hnone2 by done.
  destruct (DecoderV4_unfold env1 sourceURLs) as (st1 & Hcl1 & _ & H1).
  destruct (DecoderV4_unfold env2 sourceURLs) as (st2 & Hcl2 & _ & H2).
  rewrite Hnone in H1. rewrite Hnone2 in H2. cbn in H1, H2.
  exists (results st1). split; [done|]. split; [|apply Hcl1].
  rewrite H2. f_equal. apply list_eq. intros i.
  destruct (sourceURLs !! i) as [u|] eqn:Hu.
  - destruct (no_pending_results env1 sourceURLs st1 Hcl1 Hnone i u Hu)
      as (r1 & Hr1 & ->).
    destruct (no_pending_results env2 sourceURLs st2 Hcl2 Hnone2 i u Hu)
      as (r2 & Hr2 & ->).
    rewrite (sameParser_individual env1 env2) in Hr1 by done. congruence.
  - apply lookup_ge_None in Hu.
    destruct Hcl1 as (Hl1 & _), Hcl2 as (Hl2 & _).
    rewrite !(proj2 (lookup_ge_None _ _)) by lia. done.
Qed.

Lemma DecoderV4_without_pending_witness :
  ∃ rs,
    DecoderV4 Sample.offline
      ["https://news.google.com/articles/CBMiA2FiY9IBAA"; "https://example.com/"]
      = Some rs ∧
    DecoderV4 (Sample.serving "x")
      ["https://news.google.com/articles/CBMiA2FiY9IBAA"; "https://example.com/"]
      = Some rs ∧
    length rs = 2%nat.
Proof.
  apply (DecoderV4_without_pending Sample.offline (Sample.serving "x")
           ["https://news.google.com/articles/CBMiA2FiY9IBAA";
            "https://example.com/"]).
  - intros u. reflexivity.
  - vm_compute. reflexivity.
Defined.

(** X11. When the pending tokens are pairwise distinct and the batched
    call succeeds, the URL whose token stands at position [j] of the
    batch gets the [j]-th URL of the response; it keeps the zero value
    when the response holds fewer URLs. *)
Theorem DecoderV4_distinct_tokens (env : Env) (sourceURLs urls : list string) :
  NoDup (pendingTokens env sourceURLs) →
  fetchDecodedBatchExecuteMultiple env (pendingTokens env sourceURLs)
    = Some (mkBatchDecodeResult true urls "", None) →
  ∃ rs,
    DecoderV4 env sourceURLs = Some rs ∧
    length rs = length sourceURLs ∧
    ∀ i u tok j,
      sourceURLs !! i = Some u →
      individual env u = Some (inr tok) →
      pendingTokens env sourceURLs !! j = Some tok →
      rs !! i = Some (match urls !! j with
                      | Some d => resolved d
                      | None => zeroResult
                      end).
Proof.
  intros Hnd Hfetch.
  destruct (DecoderV4_success env sourceURLs urls Hfetch)
    as (rs & Hrs & Hlen & Hslots).
  exists rs. do 2 (split; [done|]). intros i u tok j Hu Hind Hj.
  specialize (Hslots i u Hu). rewrite Hind in Hslots.
  pose proof (NoDup_lastPending env sourceURLs i u tok Hnd Hu Hind) as Hlast.
  destruct Hslots as [[Hzero Hnone]|(j' & d & Hj' & Hd & _ & Hres & _)].
  - destruct (urls !! j) as [d|] eqn:Hd; [|done].
    by destruct (Hnone Hlast j d Hj Hd).
  - assert (j' = j) as -> by (by eapply NoDup_lookup).
    by rewrite Hd.
Qed.

Lemma DecoderV4_distinct_tokens_witness :
  let env := Sample.serving (header +:+ "http://a" +:+ footer) in
  let sourceURLs := ["https://news.google.com/read/CBMiBkFVX3lxTNIBEA";
                     "https://example.com/x"] in
  ∃ rs,
    DecoderV4 env sourceURLs = Some rs ∧
    length rs = length sourceURLs ∧
    ∀ i u tok j,
      sourceURLs !! i = Some u →
      individual env u = Some (inr tok) →
      pendingTokens env sourceURLs !! j = Some tok →
      rs !! i = Some (match ["http://a"] !! j with
                      | Some d => resolved d
                      | None => zeroResult
                      end).
Proof.
  intros env sourceURLs.
  apply (DecoderV4_distinct_tokens env sourceURLs ["http://a"]).
  - vm_compute. apply NoDup_singleton.
  - vm_compute. reflexivity.
Defined.

(** ** Splitting and joining *)

Lemma Join_cons (p : string) (pieces : list string) (sep : string) :
  pieces ≠ [] →
  Strings.Join (p :: pieces) sep = p +:+ sep +:+ Strings.Join pieces sep.
Proof. by destruct pieces. Qed.

Lemma Join_onHead (p : string) (pieces : list string) (sep : string) :
  pieces ≠ [] →
  Strings.Join (onHead p pieces) sep = p +:+ Strings.Join pieces sep.
Proof.
  destruct pieces as [|f [|g fs]]; [done| |]; intros _; cbn; [done|].
  by rewrite str_app_assoc.
Qed.

Lemma fields_Join (c : ascii) (s : string) :
  Strings.Join (fields c s) (String c "") = s.
Proof.
  induction s as [|a s IH]; [done|]. rewrite fields_cons.
  pose proof (fields_nonempty c s).
  destruct (Ascii.eqb_spec a c) as [->|].
  - rewrite Join_cons, IH by done. done.
  - rewrite Join_onHead, IH by done. done.
Qed.

Lemma fields_free (c : ascii) (s : string) :
  Forall (λ p, hasByte c p = false) (fields c s).
Proof.
  induction s as [|a s IH]; [by repeat constructor|]. rewrite fields_cons.
  destruct (Ascii.eqb a c) eqn:Ha; [by constructor|].
  destruct (fields c s) as [|f fs].
  - constructor; [|done]. cbn. by rewrite Ha.
  - inversion IH; subst. constructor; [|done]. cbn. by rewrite Ha.
Qed.

Lemma fields_app_free (c : ascii) (p t : string) :
  hasByte c p = false → fields c (p +:+ t) = onHead p (fields c t).
Proof.
  pose proof (fields_nonempty c t).
  induction p as [|a p IH]; cbn [hasByte String.append].
  - intros _. by destruct (fields c t).
  - intros [Ha Hp]%orb_false_iff. rewrite fields_cons, Ha, (IH Hp).
    by rewrite onHead_onHead.
Qed.

Lemma fields_of_Join (c : ascii) (pieces : list string) :
  pieces ≠ [] → Forall (λ p, hasByte c p = false) pieces →
  fields c (Strings.Join pieces (String c "")) = pieces.
Proof.
  induction pieces as [|p [|q pieces] IH]; [done| |]; intros _ Hfree.
  - inversion Hfree; subst. cbn [Strings.Join String.concat].
    rewrite <- (str_app_nil_r p) at 1. rewrite fields_app_free by done.
    cbn. by rewrite str_app_nil_r.
  - inversion Hfree; subst. rewrite Join_cons by done.
    rewrite fields_app_free by done. cbn [String.append].
    rewrite fields_cons, Ascii.eqb_refl, IH by done.
    cbn. by rewrite str_app_nil_r.
Qed.

(** X12. [splitString] with a non-empty separator never panics: it
    cuts at the first byte of the separator only, the pieces hold no
    such byte, there is at least one piece, and joining the pieces with
    that byte gives the string back. *)
Theorem splitString_round_trip (s : string) (c : ascii) (rest : string) :
  ∃ pieces,
    splitString s (String c rest) = Some pieces ∧
    Strings.Join pieces (String c "") = s ∧
    Forall (λ p, hasByte c p = false) pieces ∧
    pieces ≠ [].
Proof.
  exists (fields c s). split; [by apply splitString_is_fields|].
  split; [apply fields_Join|]. split; [apply fields_free|apply fields_nonempty].
Qed.

(** X13. With the empty separator [splitString] returns the empty
    string alone for the empty string, and panics on every other
    string. *)
Theorem splitString_empty_separator :
  splitString "" "" = Some [""] ∧
  ∀ c s, splitString (String c s) "" = None.
Proof. split; [done|]. intros c s. unfold splitString. by cbn. Qed.

(** X14. On a slash [splitString] returns what [strings.Split]
    returns, and [splitPath] never panics: its segments are the pieces
    of [strings.Split] that are not empty, and none of them holds a
    slash. *)
Theorem splitString_agrees_with_Split (path : string) :
  splitString path "/" = Some (Strings.Split path "/") ∧
  ∃ segs,
    splitPath path = Some segs ∧
    segs = filter (λ p, p ≠ "") (Strings.Split path "/") ∧
    Forall (λ p, p ≠ "" ∧ hasByte "/"%char p = false) segs.
Proof.
  rewrite Split_is_fields. split; [by apply splitString_is_fields|].
  exists (segments path). split; [apply splitPath_is_segments|].
  split; [done|].
  unfold segments. apply Forall_forall. intros p [Hp Hin]%list_elem_of_filter.
  split; [done|]. pose proof (fields_free "/"%char path) as Hfree.
  rewrite Forall_forall in Hfree. by apply Hfree.
Qed.

Lemma filter_all {A : Type} (P : A → Prop) `{∀ x, Decision (P x)}
    (l : list A) :
  Forall P l → filter P l = l.
Proof.
  induction 1 as [|x l Hx _ IH]; [done|].
  by rewrite filter_cons_True, IH.
Qed.

(** X15. [splitPath] gives back the segments a path was built from:
    for segments that are not empty and hold no slash, the path made of
    a slash and the segments joined by slashes splits into them. *)
Theorem splitPath_of_joined_segments (segs : list string) :
  Forall (λ p, p ≠ "" ∧ hasByte "/"%char p = false) segs →
  splitPath ("/" +:+ Strings.Join segs "/") = Some segs.
Proof.
  intros Hsegs.
  rewrite splitPath_is_segments. unfold segments. f_equal.
  cbn [String.append]. rewrite fields_cons, Ascii.eqb_refl.
  rewrite filter_cons_False by (by intros []).
  destruct segs as [|p segs]; [done|].
  rewrite fields_of_Join; [|done|].
  - apply filter_all. eapply Forall_impl; [exact Hsegs|]. by intros ? [].
  - eapply Forall_impl; [exact Hsegs|]. by intros ? [].
Qed.

Lemma splitPath_of_joined_segments_witness :
  splitPath ("/" +:+ Strings.Join ["rss"; "articles"; "CBMiA2FiY9IBAA"] "/")
  = Some ["rss"; "articles"; "CBMiA2FiY9IBAA"].
Proof.
  apply (splitPath_of_joined_segments ["rss"; "articles"; "CBMiA2FiY9IBAA"]).
  repeat constructor; done.
Defined.

(** ** Permits, progress and the length of a run *)

Lemma count_insert (P : Task → Prop) `{∀ t, Decision (P t)}
    (ts : list Task) (i : nat) (a b : Task) :
  ts !! i = Some a →
  (length (filter P (<[i := b]> ts)) + (if decide (P a) then 1 else 0)
   = length (filter P ts) + (if decide (P b) then 1 else 0))%nat.
Proof.
  revert i. induction ts as [|t ts IH]; intros [|i] Hi; try done.
  - change (<[0%nat:=b]> (t :: ts)) with (b :: ts). rewrite !filter_cons.
    injection Hi as ->. repeat case_decide; simpl; lia.
  - change (<[S i:=b]> (t :: ts)) with (t :: <[i:=b]> ts).
    rewrite !filter_cons. specialize (IH i Hi).
    repeat case_decide; simpl; lia.
Qed.

Lemma count_replicate (P : Task → Prop) `{∀ t, Decision (P t)}
    (n : nat) (t : Task) :
  length (filter P (replicate n t)) = if decide (P t) then n else 0%nat.
Proof.
  induction n as [|n IH]; [by case_decide|]. cbn [replicate].
  rewrite filter_cons. case_decide; simpl; lia.
Qed.

Lemma count_zero (P : Task → Prop) `{∀ t, Decision (P t)} (ts : list Task) :
  length (filter P ts) = 0%nat → Forall (λ t, ¬ P t) ts.
Proof.
  intros Hlen. apply Forall_forall. intros t Hin HP.
  assert (t ∈ filter P ts) as Hf by (by apply list_elem_of_filter).
  destruct (filter P ts); [by apply elem_of_nil in Hf|done].
Qed.

Lemma programEvents_snoc (evs : list Event) (ev : Event) :
  programEvents (evs ++ [ev])
  = programEvents evs ++ (if isCancel ev then [] else [ev]).
Proof.
  unfold programEvents. rewrite List.filter_app. cbn [List.filter].
  by destruct (isCancel ev).
Qed.

Section FanOutProgress.
Context (cd : ConcurrentDecoder) (v : Variant) (sourceURLs : list string).
Hypothesis Hpos : (0 < concurrency cd)%Z.

Lemma workLeft_init :
  workLeft (initialState v sourceURLs) = (3 * length sourceURLs)%nat.
Proof.
  unfold workLeft, running, initialState. cbn [tasks resultChan].
  rewrite !count_replicate. repeat case_decide; try done. simpl. lia.
Qed.

(** Every step of the program uses up some of the work that is left;
    the cancellation leaves it as it is. *)
Lemma step_workLeft (st st' : FanOut) (ev : Event) :
  step cd v sourceURLs st ev st' →
  (workLeft st' + (if isCancel ev then 0 else 1) ≤ workLeft st)%nat.
Proof.
  unfold workLeft, running.
  destruct 1 as [st _|st idx Ht _|st idx _ Ht _|st idx u r Ht _ _
                 |st ir rest rs Hchan _];
    cbn [tasks resultChan isCancel]; [lia| | | |rewrite Hchan; simpl; lia];
    rewrite ?length_app; cbn [length].
  - pose proof (count_insert (λ t, t = Waiting) _ idx _ Running Ht).
    pose proof (count_insert (λ t, t = Running) _ idx _ Running Ht).
    repeat case_decide; try done; lia.
  - pose proof (count_insert (λ t, t = Waiting) _ idx _ Cancelled Ht).
    pose proof (count_insert (λ t, t = Running) _ idx _ Cancelled Ht).
    repeat case_decide; try done; lia.
  - pose proof (count_insert (λ t, t = Waiting) _ idx _ Finished Ht).
    pose proof (count_insert (λ t, t = Running) _ idx _ Finished Ht).
    repeat case_decide; try done; lia.
Qed.

Lemma permits_run (evs : list Event) (st : FanOut) :
  run cd v sourceURLs (initialState v sourceURLs) evs st →
  permits st = running (tasks st) ∧
  (Z.of_nat (permits st) ≤ concurrency cd)%Z.
Proof using Hpos.
  remember (initialState v sourceURLs) as st0 eqn:Hst0.
  induction 1 as [st|st1 evs st2 ev st3 Hrun IH Hstep].
  - subst st. unfold running. cbn [initialState permits tasks].
    rewrite count_replicate. case_decide; [done|]. split; [done|lia].
  - destruct (IH Hst0) as [Hperm Hle]. clear IH. unfold running in *.
    destruct Hstep as [st _|st idx Ht Hroom|st idx _ Ht _|st idx u r Ht _ _
                       |st ir rest rs Hchan _];
      cbn [tasks permits]; [done| | | |done].
    + pose proof (count_insert (λ t, t = Running) _ idx _ Running Ht).
      repeat case_decide; try done. split; lia.
    + pose proof (count_insert (λ t, t = Running) _ idx _ Cancelled Ht).
      repeat case_decide; try done. split; lia.
    + pose proof (count_insert (λ t, t = Running) _ idx _ Finished Ht).
      repeat case_decide; try done. split; lia.
Qed.

Lemma run_app (st1 st2 st3 : FanOut) (evs evs' : list Event) :
  run cd v sourceURLs st1 evs st2 → run cd v sourceURLs st2 evs' st3 →
  run cd v sourceURLs st1 (evs ++ evs') st3.
Proof.
  intros Hrun. induction 1 as [st|st2 evs' st3 ev st4 _ IH Hstep].
  - by rewrite app_nil_r.
  - rewrite app_assoc. eapply run_snoc; [|done]. by apply IH.
Qed.

Lemma run_one (st st' : FanOut) (ev : Event) :
  step cd v sourceURLs st ev st' → run cd v sourceURLs st [ev] st'.
Proof. intros Hstep. apply (run_snoc _ _ _ st [] st ev st'); [constructor|done]. Qed.

(** A reachable state that has not returned has a step of the program
    to take. *)
Lemma fanOut_progress (evs : list Event) (st : FanOut) :
  run cd v sourceURLs (initialState v sourceURLs) evs st →
  ¬ returned st →
  ∃ ev st', isCancel ev = false ∧ step cd v sourceURLs st ev st'.
Proof using Hpos.
  intros Hrun Hnot.
  destruct (permits_run evs st Hrun) as [Hperm _].
  apply fanOutInv_run in Hrun as (Hlt & Hlc & _ & Hslots).
  destruct (resultChan st) as [|ir rest] eqn:Hchan.
  - destruct (decide (running (tasks st) = 0%nat)) as [Hnone|Hsome].
    + assert (∃ idx, tasks st !! idx = Some Waiting) as [idx Hidx].
      { apply count_zero in Hnone.
        destruct (decide (Forall (λ t, t = Finished ∨ t = Cancelled) (tasks st)))
          as [Hall|Hex]; [by destruct Hnot|].
        apply not_Forall_Exists in Hex; [|intros t; apply _].
        apply Exists_exists in Hex as (t & Hin & Ht).
        apply list_elem_of_lookup in Hin as [idx Hidx]. exists idx.
        rewrite Forall_forall in Hnone.
        assert (t ≠ Running)
          by (apply Hnone; by eapply list_elem_of_lookup_2).
        destruct t; naive_solver. }
      exists (EvAcquire idx). eexists. split; [done|].
      apply step_acquire; [done|]. rewrite Hperm, Hnone. simpl. lia.
    + assert (∃ idx, tasks st !! idx = Some Running) as [idx Hidx].
      { unfold running in Hsome.
        destruct (filter (λ t, t = Running) (tasks st)) as [|t ts] eqn:Hf;
          [done|].
        assert (t ∈ filter (λ t, t = Running) (tasks st)) as Hin
          by (rewrite Hf; by left).
        apply list_elem_of_filter in Hin as [-> Hin].
        by apply list_elem_of_lookup in Hin. }
      destruct (lookup_lt_is_Some_2 sourceURLs idx) as [u Hu].
      { rewrite <- Hlt. by eapply lookup_lt_Some. }
      destruct (Decode_total (decoder cd) u) as [r Hr].
      exists (EvFinish idx). eexists. split; [done|]. by eapply step_finish.
  - assert (index ir < length (collected st))%nat as Hidx.
    { specialize (Hslots (index ir)). unfold slotInv in Hslots.
      destruct (tasks st !! index ir) as [t|] eqn:Ht.
      - rewrite Hlc, <- Hlt. by eapply lookup_lt_Some.
      - rewrite Hchan in Hslots. unfold entries in Hslots.
        by rewrite filter_cons_True in Hslots. }
    exists EvCollect. eexists. split; [done|].
    eapply step_collect; [done|]. unfold store.
    destruct (Nat.ltb_spec (index ir) (length (collected st))); [done|lia].
Qed.

(** From every reachable state the call can go on to its return. *)
Lemma completion (budget : nat) :
  ∀ evs st,
    run cd v sourceURLs (initialState v sourceURLs) evs st →
    (workLeft st ≤ budget)%nat →
    ∃ evs' st',
      run cd v sourceURLs st evs' st' ∧ returned st' ∧
      (length evs' ≤ budget)%nat ∧ Forall (λ ev, isCancel ev = false) evs'.
Proof using Hpos.
  induction budget as [|budget IH]; intros evs st Hrun Hleft.
  - exists [], st. split; [constructor|]. split; [|by split].
    destruct (decide (Forall (λ t, t = Finished ∨ t = Cancelled) (tasks st)))
      as [Hall|Hex];
      [destruct (resultChan st) eqn:Hchan; [by split|]|].
    + unfold workLeft in Hleft. rewrite Hchan in Hleft. simpl in Hleft. lia.
    + assert (¬ returned st) as Hnot by (by intros []).
      destruct (fanOut_progress evs st Hrun Hnot) as (ev & st' & Hev & Hstep).
      apply step_workLeft in Hstep. rewrite Hev in Hstep. lia.
  - destruct (decide (Forall (λ t, t = Finished ∨ t = Cancelled) (tasks st)))
      as [Hall|Hex];
      [destruct (resultChan st) eqn:Hchan|].
    + exists [], st. split; [constructor|]. split; [by split|]. split; [simpl; lia|done].
    + assert (¬ returned st) as Hnot by (intros [_ ?]; congruence).
      destruct (fanOut_progress evs st Hrun Hnot) as (ev & st1 & Hev & Hstep).
      pose proof (step_workLeft _ _ _ Hstep) as Hless. rewrite Hev in Hless.
      destruct (IH (evs ++ [ev]) st1) as (evs' & st' & Hrun' & Hret & Hlen & Hprog);
        [by eapply run_snoc|lia|].
      exists (ev :: evs'), st'. split; [|split; [done|split; [simpl; lia|by constructor]]].
      apply (run_app st st1 st' [ev] evs'); [by apply run_one|done].
    + assert (¬ returned st) as Hnot by (by intros []).
      destruct (fanOut_progress evs st Hrun Hnot) as (ev & st1 & Hev & Hstep).
      pose proof (step_workLeft _ _ _ Hstep) as Hless. rewrite Hev in Hless.
      destruct (IH (evs ++ [ev]) st1) as (evs' & st' & Hrun' & Hret & Hlen & Hprog);
        [by eapply run_snoc|lia|].
      exists (ev :: evs'), st'. split; [|split; [done|split; [simpl; lia|by constructor]]].
      apply (run_app st st1 st' [ev] evs'); [by apply run_one|done].
Qed.

End FanOutProgress.

(** X16. In every state a call of [DecodeURLs] or
    [DecodeURLsWithContext] reaches, the permits held are as many as the
    goroutines that decode, and never more than the concurrency of the
    decoder. *)
Theorem permits_bounded (decoder : Env) (workers : Z) (v : Variant)
    (sourceURLs : list string) (evs : list Event) (st : FanOut) :
  run (NewConcurrentDecoder decoder workers) v sourceURLs
      (initialState v sourceURLs) evs st →
  permits st = running (tasks st) ∧
  (Z.of_nat (running (tasks st))
   ≤ concurrency (NewConcurrentDecoder decoder workers))%Z.
Proof.
  intros Hrun.
  destruct (permits_run _ v sourceURLs
              (NewConcurrentDecoder_positive decoder workers) evs st Hrun)
    as [Hperm Hle].
  split; [done|]. by rewrite <- Hperm.
Qed.

Lemma permits_bounded_witness :
  let st := mkFanOut [Running; Waiting] 1 [] [zeroResult; zeroResult] false in
  permits st = running (tasks st) ∧
  (Z.of_nat (running (tasks st)) ≤ 1)%Z.
Proof.
  intros st.
  apply (permits_bounded Sample.offline 1 PlainFanOut
           ["https://example.com/1"; "https://example.com/2"]
           [EvAcquire 0] st).
  apply (run_snoc _ _ _
           (initialState PlainFanOut
              ["https://example.com/1"; "https://example.com/2"]) []
           (initialState PlainFanOut
              ["https://example.com/1"; "https://example.com/2"])
           (EvAcquire 0) st); [apply run_nil|].
  by apply (step_acquire _ _ _
              (initialState PlainFanOut
                 ["https://example.com/1"; "https://example.com/2"]) 0).
Defined.

(** X17. No run of the fan-out is stuck: from every state a call
    reaches it can go on to its return by steps of the program alone,
    in no more steps than the work that is left. *)
Theorem call_can_always_return (decoder : Env) (concurrency : Z) (v : Variant)
    (sourceURLs : list string) (evs : list Event) (st : FanOut) :
  run (NewConcurrentDecoder decoder concurrency) v sourceURLs
      (initialState v sourceURLs) evs st →
  ∃ evs' rs,
    returns (NewConcurrentDecoder decoder concurrency) v sourceURLs
      (evs ++ evs') rs ∧
    Forall (λ ev, isCancel ev = false) evs' ∧
    (length evs' ≤ workLeft st)%nat.
Proof.
  intros Hrun.
  destruct (completion _ v sourceURLs
              (NewConcurrentDecoder_positive decoder concurrency)
              (workLeft st) evs st Hrun (le_n _))
    as (evs' & st' & Hrun' & Hret & Hlen & Hprog).
  exists evs', (collected st'). split; [|done].
  exists st'. split; [|done]. by eapply run_app.
Qed.

Lemma call_can_always_return_witness :
  let st := mkFanOut [Running; Waiting] 1 [] [zeroResult; zeroResult] false in
  ∃ evs' rs,
    returns (NewConcurrentDecoder Sample.offline 1) PlainFanOut
      ["https://example.com/1"; "https://example.com/2"]
      ([EvAcquire 0] ++ evs') rs ∧
    Forall (λ ev, isCancel ev = false) evs' ∧
    (length evs' ≤ workLeft st)%nat.
Proof.
  intros st.
  apply (call_can_always_return Sample.offline 1 PlainFanOut
           ["https://example.com/1"; "https://example.com/2"]
           [EvAcquire 0] st).
  apply (run_snoc _ _ _
           (initialState PlainFanOut
              ["https://example.com/1"; "https://example.com/2"]) []
           (initialState PlainFanOut
              ["https://example.com/1"; "https://example.com/2"])
           (EvAcquire 0) st); [apply run_nil|].
  by apply (step_acquire _ _ _
              (initialState PlainFanOut
                 ["https://example.com/1"; "https://example.com/2"]) 0).
Defined.

(** X18. Every run of the fan-out on [n] URLs has at most [3n] events
    of the program: the work left and the events taken never exceed
    that number together. *)
Theorem run_length_bounded (cd : ConcurrentDecoder) (v : Variant)
    (sourceURLs : list string) (evs : list Event) (st : FanOut) :
  run cd v sourceURLs (initialState v sourceURLs) evs st →
  (workLeft st + length (programEvents evs) ≤ 3 * length sourceURLs)%nat.
Proof.
  remember (initialState v sourceURLs) as st0 eqn:Hst0.
  induction 1 as [st|st1 evs st2 ev st3 Hrun IH Hstep].
  - subst st. rewrite workLeft_init. simpl. lia.
  - specialize (IH Hst0). apply (step_workLeft cd v sourceURLs) in Hstep.
    rewrite programEvents_snoc, length_app.
    destruct (isCancel ev); simpl in *; lia.
Qed.

Lemma run_length_bounded_witness :
  let st := mkFanOut [Running; Waiting] 1 [] [zeroResult; zeroResult] false in
  (workLeft st + length (programEvents [EvAcquire 0]) ≤ 3 * 2)%nat.
Proof.
  intros st.
  apply (run_length_bounded (NewConcurrentDecoder Sample.offline 1) PlainFanOut
           ["https://example.com/1"; "https://example.com/2"]
           [EvAcquire 0] st).
  apply (run_snoc _ _ _
           (initialState PlainFanOut
              ["https://example.com/1"; "https://example.com/2"]) []
           (initialState PlainFanOut
              ["https://example.com/1"; "https://example.com/2"])
           (EvAcquire 0) st); [apply run_nil|].
  by apply (step_acquire _ _ _
              (initialState PlainFanOut
                 ["https://example.com/1"; "https://example.com/2"]) 0).
Defined.

(** ** The status code of the responses *)

(** X23. [decodeURLWithParams] never reads the status code of the
    response: whatever status the server answers with, the result is the
    one the body gives.  The single-reference call does read it: with a
    status other than 200 it fails with the status error, whatever the
    body. *)
Theorem decodeURLWithParams_ignores_status (env : Env) (code : Z) :
  (∀ signature timestamp base64Str,
     decodeURLWithParams (withStatus code env) signature timestamp base64Str
     = decodeURLWithParams env signature timestamp base64Str) ∧
  (∀ id resp,
     code ≠ 200%Z →
     postRPC env (singleRequest id) = inr resp →
     fetchDecodedBatchExecute (withStatus code env) id
     = Some (inl (statusError code))).
Proof.
  split.
  - intros signature timestamp base64Str.
    unfold decodeURLWithParams, withStatus, io_ReadAll.
    cbn [json_Marshal url_Values_Encode http_NewRequest client_Do
         json_Unmarshal].
    destruct (json_Marshal env _) as [err|payloadJSON]; [done|].
    destruct (http_NewRequest env _ _ _) as [err|req]; [done|].
    by destruct (client_Do env _) as [err|resp].
  - intros id resp Hcode Hpost.
    unfold fetchDecodedBatchExecute. cbv zeta.
    assert (postRPC (withStatus code env) (singleRequest id)
            = inr (mkResponse code (Body resp) (ReadErr resp))) as Hpost'.
    { revert Hpost. unfold postRPC, withStatus.
      cbn [url_Values_Encode http_NewRequest client_Do].
      destruct (http_NewRequest env _ _ _) as [err|req]; [done|].
      cbv zeta. by intros ->. }
    unfold singleRequest in Hpost'. rewrite Hpost'. cbn [StatusCode].
    by destruct (Z.eqb_spec code 200).
Qed.

(** ** The text output of the command *)

Lemma outputText_loop_spec (n : nat) (results : list DecodeResult) :
  ∀ i written exitCode,
    outputText_loop n i results written exitCode
    = (written ++ imap (λ j, outputLine n (i + j)) results,
       if forallb Status results then exitCode else 1%Z).
Proof.
  induction results as [|r results IH]; intros i written exitCode;
    cbn [outputText_loop imap forallb].
  - by rewrite app_nil_r.
  - rewrite IH, <- app_assoc. cbn [app]. rewrite Nat.add_0_r. f_equal.
    + do 2 f_equal. apply imap_ext. intros j x _. cbn. f_equal. lia.
    + by destruct (Status r), (forallb Status results).
Qed.

(** X19. [outputText] writes one line for each result, in order,
    whatever the URLs it is given; the exit code is 0 exactly when every
    result has a true status, and 1 exactly when some result has
    not. *)
Theorem outputText_exit_code (urls : list string) (results : list DecodeResult) :
  ∃ written exitCode,
    outputText urls results = (written, exitCode) ∧
    written = imap (outputLine (length results)) results ∧
    (exitCode = 0%Z ↔ Forall (λ r, Status r = true) results) ∧
    (exitCode = 1%Z ↔ Exists (λ r, Status r = false) results).
Proof.
  eexists _, _. unfold outputText. rewrite outputText_loop_spec.
  split; [reflexivity|]. split; [done|].
  destruct (forallb Status results) eqn:Hall.
  - pose proof Hall as Hall'. rewrite forallb_forall in Hall'.
    assert (Forall (λ r, Status r = true) results) as HF.
    { apply Forall_forall. intros r Hr. apply Hall'.
      by apply list_elem_of_In. }
    split; [done|]. split; [done|].
    intros (r & Hr & Hs)%Exists_exists. rewrite Forall_forall in HF.
    rewrite (HF r Hr) in Hs. done.
  - assert (Exists (λ r, Status r = false) results) as HE.
    { apply not_true_iff_false in Hall.
      destruct (decide (Exists (λ r, Status r = false) results)) as [|Hno];
        [done|].
      destruct Hall. apply forallb_forall. intros r Hr%list_elem_of_In.
      destruct (Status r) eqn:Hs; [done|]. destruct Hno.
      apply Exists_exists. by exists r. }
    split; [|done]. split; [done|].
    intros HF. apply Exists_exists in HE as (r & Hr & Hs).
    rewrite Forall_forall in HF. rewrite (HF r Hr) in Hs. done.
Qed.

(** ** The construction of a decoder *)

Lemma NewGoogleDecoder_client (w : World) (opts : list DecoderOption)
    (d : GoogleDecoder) :
  NewGoogleDecoder w opts = inr d → is_Some (client d).
Proof.
  unfold NewGoogleDecoder. cbv zeta. destruct (negb _).
  - destruct (createTransportWithProxy w _); [done|]. intros [= <-]. by eexists.
  - intros [= <-]. by eexists.
Qed.

(** X20. A decoder [NewGoogleDecoder] returns holds a client, so that
    decoding with it never panics and gives an informative result; and
    [NewGoogleDecoder] fails only with the error of the transport of a
    non-empty proxy. *)
Theorem constructed_decoder_decodes (w : World) (opts : list DecoderOption)
    (sourceURL : string) :
  match NewGoogleDecoder w opts with
  | inr d =>
      ∃ c r, client d = Some c ∧
             GoogleDecoder_Decode w d sourceURL = Some r ∧
             Decode (envOf w c) sourceURL = Some r ∧ informative r
  | inl err =>
      ∃ p, p ≠ "" ∧ createTransportWithProxy w p = inl err
  end.
Proof.
  destruct (NewGoogleDecoder w opts) as [err|d] eqn:Hnew.
  - revert Hnew. unfold NewGoogleDecoder. cbv zeta.
    destruct (String.eqb_spec (proxy (foldl (λ d opt, opt d)
                                        (mkGoogleDecoder None "") opts)) "")
      as [|Hp]; cbn [negb]; [done|].
    destruct (createTransportWithProxy w _) eqn:Ht; [|done].
    intros [= <-]. eexists. by split.
  - destruct (NewGoogleDecoder_client w opts d Hnew) as [c Hc].
    destruct (newDecoderV1WithClient_total (envOf w c) sourceURL)
      as (r & Hr & Hinf).
    exists c, r. unfold GoogleDecoder_Decode, Decode. rewrite Hc. by cbn.
Qed.

(** X21. [GNewsDecoder] without a proxy, or with the empty proxy,
    decodes with the default client of 30 seconds; with any other proxy
    it returns the error of the transport as a failure, or decodes with
    that transport. *)
Theorem GNewsDecoder_proxy_cases (w : World) (sourceURL : string) :
  GNewsDecoder w sourceURL None
    = Decode (envOf w (mkClient None 30)) sourceURL ∧
  GNewsDecoder w sourceURL (Some "")
    = Decode (envOf w (mkClient None 30)) sourceURL ∧
  ∀ p, p ≠ "" →
    GNewsDecoder w sourceURL (Some p)
    = match createTransportWithProxy w p with
      | inl err => Some (failed err)
      | inr transport =>
          Decode (envOf w (mkClient (Some transport) 30)) sourceURL
      end.
Proof.
  split; [done|]. split; [done|]. intros p Hp.
  unfold GNewsDecoder, proxyOpts, NewGoogleDecoder.
  destruct (String.eqb_spec p "") as [|_]; [done|]. cbn.
  destruct (String.eqb_spec p "") as [|_]; [done|]. cbn.
  by destruct (createTransportWithProxy w p).
Qed.

(** X22. [GNewsDecoderConcurrent] can return, and returns one result
    for each URL: every one the failure of [NewGoogleDecoder] when the
    decoder cannot be made, and otherwise, at each index, what the
    decoder returns for the URL of that index. *)
Theorem GNewsDecoderConcurrent_results (w : World) (sourceURLs : list string)
    (concurrency : Z) (proxyURL : option string) :
  (∃ evs rs,
     GNewsDecoderConcurrent_returns w sourceURLs concurrency proxyURL evs rs) ∧
  ∀ evs rs,
    GNewsDecoderConcurrent_returns w sourceURLs concurrency proxyURL evs rs →
    length rs = length sourceURLs ∧
    match NewGoogleDecoder w (proxyOpts proxyURL) with
    | inl err =>
        ∀ i, (i < length sourceURLs)%nat → rs !! i = Some (failed err)
    | inr d =>
        ∀ i u, sourceURLs !! i = Some u →
               rs !! i = GoogleDecoder_Decode w d u
    end.
Proof.
  unfold GNewsDecoderConcurrent_returns. split.
  - destruct (NewGoogleDecoder w (proxyOpts proxyURL)) as [err|d] eqn:Hnew.
    + by eexists _, _.
    + destruct (NewGoogleDecoder_client _ _ _ Hnew) as [c Hc].
      destruct (sequential_returns (NewConcurrentDecoder (envOf w c) concurrency)
                  PlainFanOut sourceURLs
                  (NewConcurrentDecoder_positive _ _)) as [rs Hrs].
      exists (sequential (length sourceURLs)), rs, c. by split.
  - intros evs rs.
    destruct (NewGoogleDecoder w (proxyOpts proxyURL)) as [err|d] eqn:Hnew.
    + intros [_ ->]. split; [by rewrite length_replicate|].
      intros i Hi. by apply lookup_replicate_2.
    + intros (c & Hc & st & Hrun & Hret & <-).
      apply fanOutInv_run in Hrun. split; [apply Hrun|].
      intros i u Hu. unfold GoogleDecoder_Decode. rewrite Hc. cbn.
      destruct (returned_slot _ PlainFanOut sourceURLs evs st i u Hrun Hret Hu)
        as [(r & Hdec & -> & _)|[[=] _]].
      symmetry. exact Hdec.
Qed.
